(** * Verification of the divisive attribute tree and its spectral back end

    The development embeds [model/auto_attribute_tree.py] and, of
    [model/spectral.py], the functions [discretize], [k_medoids] and
    [spectral_clustering_mod] and the estimator [SpectralClustering].  Python exceptions and non-termination are made
    explicit in the [result] type; library calls (the [pamk] oracle, the
    scikit-learn scaler, numpy's SVD, ...) are Section variables. *)

From Stdlib Require Import Reals Lra.
From stdpp Require Import gmap list strings.

Local Open Scope nat_scope.

(** ** Outcomes of a Python call *)

(** Python exceptions.  [LibraryError tag] is an exception raised inside
    a library call (numpy, scikit-learn), whatever its Python class. *)
Inductive exn : Type :=
  | IndexError
  | KeyError
  | TypeError
  | AttributeError
  | ValueError (msg : string)
  | LinAlgError (msg : string)
  | LibraryError (tag : string).

Inductive result (A : Type) : Type :=
  | Ret (a : A)
  | Raise (e : exn)
  | OutOfFuel.
Arguments Ret {A} a.
Arguments Raise {A} e.
Arguments OutOfFuel {A}.

#[global] Instance result_ret : MRet result := λ A a, Ret a.

#[global] Instance result_bind : MBind result := λ A B k m,
  match m with
  | Ret a => k a
  | Raise e => Raise e
  | OutOfFuel => OutOfFuel
  end.

(** ** The tree builder of [auto_attribute_tree.py] *)

Module Tree.

(** What the builder reads of the object [pam_res[0]] returned by [pamk]. *)
Record KMedoids : Type := {
  medoid_indices_ : list nat;
  labels_ : list nat
}.

Section Builder.

Context {Id Feat Rng : Type} `{EqDecision Id}.

(** A table: the first column is the row id, the rest is the feature
    vector of the row. *)
Definition DataFrame : Type := list (Id * Feat).

(** [StandardScaler.fit_transform]: fitted on all the rows, applied to one. *)
Variable scaler : list Feat -> Feat -> Feat.

(** The model-selection oracle [pamk(X, krange, method, ..., random_state)];
    it returns [(pam_res[0], pam_res[1])] and the generator's next state. *)
Variable pamk : list Feat -> list nat -> string -> Rng -> (KMedoids * nat) * Rng.

Record Node : Type := {
  name : nat;
  parent_node : option nat;
  children_nodes : list nat;
  data : option DataFrame
}.

(** [Node.__init__] *)
Definition new_node (name : nat) (parent_node : option nat)
    (data : option DataFrame) : Node :=
  {| name := name; parent_node := parent_node; children_nodes := [];
     data := data |}.

Definition add_child (child_node : nat) (n : Node) : Node :=
  {| name := name n; parent_node := parent_node n;
     children_nodes := children_nodes n ++ [child_node]; data := data n |}.

Definition del_data (n : Node) : Node :=
  {| name := name n; parent_node := parent_node n;
     children_nodes := children_nodes n; data := None |}.

Record AutoAttributeTree : Type := {
  nodes : list Node;
  incomplete_nodes : list nat;
  medoids : list (nat * Id);
  levels2nodes : gmap nat (list nat);
  nodes2levels : gmap nat nat;
  max_k : nat;
  leaf_nodes_idx : list nat;
  method : string;
  random_state : Rng
}.

(** [AutoAttributeTree.__init__] *)
Definition init (max_k : nat) (method : string) (random_state : Rng)
  : AutoAttributeTree :=
  {| nodes := []; incomplete_nodes := [0]; medoids := [];
     levels2nodes := ∅; nodes2levels := ∅; max_k := max_k;
     leaf_nodes_idx := []; method := method; random_state := random_state |}.

(** [id_col.iloc[indices]]: positional selection, IndexError out of range. *)
Fixpoint iloc {A} (col : list A) (indices : list nat) : option (list A) :=
  match indices with
  | [] => Some []
  | i :: rest =>
      match col !! i, iloc col rest with
      | Some x, Some xs => Some (x :: xs)
      | _, _ => None
      end
  end.

(** [level_pamk]: the tables [(clusters, medoids)], with columns
    [(id, cluster)] and [(cluster, id)].  Building a frame from columns of
    different lengths is a ValueError. *)
Definition level_pamk (data : DataFrame) (max_k offset : nat) (method : string)
    (random_state : Rng)
  : result (list (Id * nat) * list (nat * Id)) * Rng :=
  let id_col := data.*1 in
  let X := data.*2 in
  let max_k := min (length data - 1) max_k in
  let '(pam_res, rs) := pamk X (seq 1 max_k) method random_state in
  if bool_decide (pam_res.2 = 1) then (Ret ([], []), rs)
  else
    match iloc id_col (medoid_indices_ pam_res.1) with
    | None => (Raise IndexError, rs)
    | Some medoids =>
        if bool_decide (length medoids = pam_res.2) then
          if bool_decide (length (labels_ pam_res.1) = length id_col) then
            (Ret (zip id_col ((λ l, l + offset + 1) <$> labels_ pam_res.1),
                  zip (seq (offset + 1) pam_res.2) medoids), rs)
          else (Raise (ValueError "array length does not match index length"), rs)
        else (Raise (ValueError "array length does not match index length"), rs)
    end.

(** The ids of [clustered_data.id[clustered_data.cluster == n]]. *)
Definition ids_of_cluster (clustered_data : list (Id * nat)) (n : nat) : list Id :=
  (filter (λ c, c.2 = n) clustered_data).*1.

(** [data_node[mask]] for the mask of cluster [n]. *)
Definition masked (data_node : DataFrame) (clustered_data : list (Id * nat))
    (n : nat) : DataFrame :=
  filter (λ r, r.1 ∈ ids_of_cluster clustered_data n) data_node.

Definition append_level (level n : nat) (m : gmap nat (list nat))
  : gmap nat (list nat) :=
  <[level := default [] (m !! level) ++ [n]]> m.

Definition with_nodes (self : AutoAttributeTree) (ns : list Node)
    (l2n : gmap nat (list nat)) (n2l : gmap nat nat) : AutoAttributeTree :=
  {| nodes := ns; incomplete_nodes := incomplete_nodes self;
     medoids := medoids self; levels2nodes := l2n; nodes2levels := n2l;
     max_k := max_k self; leaf_nodes_idx := leaf_nodes_idx self;
     method := method self; random_state := random_state self |}.

(** One pass of the body of [for n in list(medoids.cluster)]; the node
    [current_node] is the object stored at [current_node_idx]. *)
Definition child_body (current_node_idx level : nat) (data_node : DataFrame)
    (clustered_data : list (Id * nat)) (self : AutoAttributeTree) (n : nat)
  : AutoAttributeTree :=
  with_nodes self
    (alter (add_child n) current_node_idx (nodes self)
       ++ [new_node n (Some current_node_idx)
             (Some (masked data_node clustered_data n))])
    (append_level (level + 1) n (levels2nodes self))
    (<[n := level + 1]> (nodes2levels self)).

(** The local variables of [fit] that survive from one pass of the
    [while] loop to the next. *)
Record FitState : Type := {
  self : AutoAttributeTree;
  level : nat;
  data_node : DataFrame
}.

Definition pop_front (t : AutoAttributeTree) (rest : list nat)
  : AutoAttributeTree :=
  {| nodes := nodes t; incomplete_nodes := rest; medoids := medoids t;
     levels2nodes := levels2nodes t; nodes2levels := nodes2levels t;
     max_k := max_k t; leaf_nodes_idx := leaf_nodes_idx t;
     method := method t; random_state := random_state t |}.

Definition set_random_state (t : AutoAttributeTree) (rs : Rng)
  : AutoAttributeTree :=
  {| nodes := nodes t; incomplete_nodes := incomplete_nodes t;
     medoids := medoids t; levels2nodes := levels2nodes t;
     nodes2levels := nodes2levels t; max_k := max_k t;
     leaf_nodes_idx := leaf_nodes_idx t; method := method t;
     random_state := rs |}.

(** [self.medoids = self.medoids.append(medoids)] and
    [self.incomplete_nodes += list(medoids.cluster)]. *)
Definition accept_split (t : AutoAttributeTree) (meds : list (nat * Id))
  : AutoAttributeTree :=
  {| nodes := nodes t; incomplete_nodes := incomplete_nodes t ++ meds.*1;
     medoids := medoids t ++ meds; levels2nodes := levels2nodes t;
     nodes2levels := nodes2levels t; max_k := max_k t;
     leaf_nodes_idx := leaf_nodes_idx t; method := method t;
     random_state := random_state t |}.

(** [current_node.del_data()] *)
Definition release (current_node_idx : nat) (t : AutoAttributeTree)
  : AutoAttributeTree :=
  with_nodes t (alter del_data current_node_idx (nodes t))
    (levels2nodes t) (nodes2levels t).

(** The body of the [while] loop of [fit], entered with a non-empty queue. *)
Definition fit_iter (st : FitState) : result FitState :=
  match incomplete_nodes (self st) with
  | [] => Raise IndexError
  | current_node_idx :: rest =>
      let t := pop_front (self st) rest in
      match nodes t !! current_node_idx with
      | None => Raise IndexError
      | Some current_node =>
          '(data_opt, level) ←
            (if bool_decide (0 < current_node_idx) then
               match nodes2levels t !! current_node_idx with
               | None => Raise KeyError
               | Some l => Ret (data current_node, l)
               end
             else Ret (Some (data_node st), level st));
          match data_opt with
          | None => Raise TypeError
          | Some data_node =>
              if bool_decide (2 < length data_node) then
                let '(res, rs) :=
                  level_pamk data_node (max_k t) (length (nodes t) - 1)
                    (method t) (random_state t) in
                '(clustered_data, meds) ← res;
                let t := set_random_state t rs in
                if bool_decide (1 < length meds) then
                  let t := accept_split t meds in
                  let t := foldl (child_body current_node_idx level data_node
                                    clustered_data) t meds.*1 in
                  Ret {| self := release current_node_idx t;
                         level := level; data_node := data_node |}
                else
                  Ret {| self := t; level := level; data_node := data_node |}
              else
                Ret {| self := t; level := level; data_node := data_node |}
          end
      end
  end.

Fixpoint fit_loop (fuel : nat) (st : FitState) : result FitState :=
  match incomplete_nodes (self st) with
  | [] => Ret st
  | _ :: _ =>
      match fuel with
      | 0 => OutOfFuel
      | S fuel => st' ← fit_iter st; fit_loop fuel st'
      end
  end.

(** The statements of [fit] before the loop. *)
Definition fit_start (t : AutoAttributeTree) (table : DataFrame) : FitState :=
  let scaled_data := (λ r, (r.1, scaler table.*2 r.2)) <$> table in
  {| self := with_nodes t
               (nodes t ++ [new_node 0 None (Some scaled_data)])
               (append_level 0 0 (levels2nodes t))
               (<[0 := 0]> (nodes2levels t));
     level := 0; data_node := scaled_data |}.

Definition has_data (n : Node) : bool :=
  match data n with Some _ => true | None => false end.

Definition set_leaves (t : AutoAttributeTree) : AutoAttributeTree :=
  {| nodes := nodes t; incomplete_nodes := incomplete_nodes t;
     medoids := medoids t; levels2nodes := levels2nodes t;
     nodes2levels := nodes2levels t; max_k := max_k t;
     leaf_nodes_idx := name <$> filter (λ n, has_data n = true) (nodes t);
     method := method t; random_state := random_state t |}.

Definition fit (fuel : nat) (t : AutoAttributeTree) (table : DataFrame)
  : result AutoAttributeTree :=
  st ← fit_loop fuel (fit_start t table);
  Ret (set_leaves (self st)).

(** [max(self.levels2nodes.keys())] *)
Definition max_level (t : AutoAttributeTree) : result nat :=
  match (map_to_list (levels2nodes t)).*1 with
  | [] => Raise (ValueError "max() arg is an empty sequence")
  | ks => Ret (max_list ks)
  end.

(** The [while] loop of [get_clusters]: climb while the stored depth of
    [n_idx] exceeds [level]. *)
Fixpoint walk_up (fuel : nat) (t : AutoAttributeTree) (level n_idx : nat)
    (node : Node) : result nat :=
  match fuel with
  | 0 => OutOfFuel
  | S fuel =>
      match nodes2levels t !! n_idx with
      | None => Raise KeyError
      | Some l =>
          if bool_decide (level < l) then
            match parent_node node with
            | None => Raise TypeError
            | Some p =>
                match nodes t !! p with
                | None => Raise IndexError
                | Some node' => walk_up fuel t level p node'
                end
            end
          else Ret n_idx
      end
  end.

(** The [for] loop of [get_clusters] over the remaining leaves. *)
Fixpoint get_clusters_loop (fuel : nat) (t : AutoAttributeTree) (level : nat)
    (leaves : list nat) (clustered_data : list (Id * nat))
  : result (list (Id * nat)) :=
  match leaves with
  | [] => Ret clustered_data
  | n_idx :: leaves =>
      match nodes t !! n_idx with
      | None => Raise IndexError
      | Some node =>
          match data node with
          | None => Raise AttributeError
          | Some d =>
              c ← walk_up fuel t level n_idx node;
              get_clusters_loop fuel t level leaves
                (clustered_data ++ ((λ r, (r.1, c)) <$> d))
          end
      end
  end.

Definition get_clusters (fuel : nat) (t : AutoAttributeTree)
    (level : option nat) : result (list (Id * nat)) :=
  level ← match level with
          | None => max_level t
          | Some l => Ret l
          end;
  get_clusters_loop fuel t level (leaf_nodes_idx t) [].

(** [num_levels] *)
Definition num_levels (t : AutoAttributeTree) : result nat :=
  m ← max_level t; Ret (m + 1).

(** ** Vocabulary of the properties *)

(** The arena invariant: the node stored at index [i] is named [i]. *)
Definition arena_ok (ns : list Node) : Prop :=
  ∀ i nd, ns !! i = Some nd → name nd = i.

(** The row ids a node owns: those of its data, none once released. *)
Definition node_ids (n : Node) : list Id :=
  match data n with Some d => d.*1 | None => [] end.

Definition leaf_ids (ns : list Node) : list Id :=
  concat (node_ids <$> ns).

(** The row ids of the node stored at index [i]. *)
Definition ids_at (t : AutoAttributeTree) (i : nat) : list Id :=
  match nodes t !! i with Some n => node_ids n | None => [] end.

(** The children appended by the [for] loop, in closed form. *)
Definition add_children (ns : list nat) (n : Node) : Node :=
  {| name := name n; parent_node := parent_node n;
     children_nodes := children_nodes n ++ ns; data := data n |}.

Definition mk_child (cur : nat) (dn : DataFrame) (cd : list (Id * nat))
    (n : nat) : Node :=
  new_node n (Some cur) (Some (masked dn cd n)).

(** The oracle's contract: every label it returns names one of the [k]
    clusters it chose. *)
Definition labels_in_range : Prop :=
  ∀ X krange meth rs,
    Forall (λ l, l < (pamk X krange meth rs).1.2)
      (labels_ (pamk X krange meth rs).1.1).

(** [c] is [n] or one of its ancestors along the parent pointers. *)
Inductive ancestor_or_self (t : AutoAttributeTree) (c : nat) : nat → Prop :=
  | aos_self : ancestor_or_self t c c
  | aos_up n nd p :
      nodes t !! n = Some nd → parent_node nd = Some p →
      ancestor_or_self t c p → ancestor_or_self t c n.

(** [climbs t L n c]: from [n], following parent pointers while the stored
    depth exceeds [L], the first node of depth at most [L] is [c]. *)
Inductive climbs (t : AutoAttributeTree) (L : nat) : nat → nat → Prop :=
  | climbs_stop n l :
      nodes2levels t !! n = Some l → l ≤ L → climbs t L n n
  | climbs_up n l nd p c :
      nodes2levels t !! n = Some l → L < l →
      nodes t !! n = Some nd → parent_node nd = Some p →
      climbs t L p c → climbs t L n c.

(** The states of the [while] loop that [fit] goes through on [table],
    starting from a fresh builder. *)
Inductive reach (t0 : AutoAttributeTree) (table : DataFrame)
  : FitState → Prop :=
  | reach_start : reach t0 table (fit_start t0 table)
  | reach_iter st st' :
      reach t0 table st → fit_iter st = Ret st' → reach t0 table st'.

(** The builder at the program points of [fit]: on entry, at the top of
    every pass of the [while] loop, after every pass of the [for] loop
    over the new children, and on return. *)
Inductive fit_point (t0 : AutoAttributeTree) (table : DataFrame)
  : AutoAttributeTree → Prop :=
  | point_entry : fit_point t0 table t0
  | point_while st : reach t0 table st → fit_point t0 table (self st)
  | point_for st current_node_idx rest current_node level data_node
        clustered_data meds rs j :
      reach t0 table st →
      incomplete_nodes (self st) = current_node_idx :: rest →
      nodes (self st) !! current_node_idx = Some current_node →
      level_pamk data_node (max_k (self st)) (length (nodes (self st)) - 1)
        (method (self st)) (random_state (self st))
        = (Ret (clustered_data, meds), rs) →
      1 < length meds →
      fit_point t0 table
        (foldl (child_body current_node_idx level data_node clustered_data)
           (accept_split
              (set_random_state (pop_front (self st) rest) rs) meds)
           (take j meds.*1))
  | point_return fuel t : fit fuel t0 table = Ret t → fit_point t0 table t.


(** The node ids popped by the first [fuel] passes of the loop, in order. *)
Fixpoint dequeued (fuel : nat) (st : FitState) : list nat :=
  match fuel with
  | 0 => []
  | S fuel =>
      match incomplete_nodes (self st) with
      | [] => []
      | current_node_idx :: _ =>
          current_node_idx ::
          match fit_iter st with
          | Ret st' => dequeued fuel st'
          | _ => []
          end
      end
  end.

(** The three ways a pass of the [while] body can end normally. *)
Inductive iter_case (st st' : FitState) : Prop :=
  | iter_few cur rest nd dn :
      incomplete_nodes (self st) = cur :: rest →
      nodes (self st) !! cur = Some nd →
      (cur = 0 ∧ dn = data_node st ∧ level st' = level st ∨
       0 < cur ∧ data nd = Some dn ∧
         nodes2levels (self st) !! cur = Some (level st')) →
      data_node st' = dn →
      length dn ≤ 2 →
      self st' = pop_front (self st) rest →
      iter_case st st'
  | iter_keep cur rest nd dn cd meds rs :
      incomplete_nodes (self st) = cur :: rest →
      nodes (self st) !! cur = Some nd →
      (cur = 0 ∧ dn = data_node st ∧ level st' = level st ∨
       0 < cur ∧ data nd = Some dn ∧
         nodes2levels (self st) !! cur = Some (level st')) →
      data_node st' = dn →
      2 < length dn →
      level_pamk dn (max_k (self st)) (length (nodes (self st)) - 1)
        (method (self st)) (random_state (self st)) = (Ret (cd, meds), rs) →
      length meds ≤ 1 →
      self st' = set_random_state (pop_front (self st) rest) rs →
      iter_case st st'
  | iter_split cur rest nd dn cd meds rs :
      incomplete_nodes (self st) = cur :: rest →
      nodes (self st) !! cur = Some nd →
      (cur = 0 ∧ dn = data_node st ∧ level st' = level st ∨
       0 < cur ∧ data nd = Some dn ∧
         nodes2levels (self st) !! cur = Some (level st')) →
      data_node st' = dn →
      2 < length dn →
      level_pamk dn (max_k (self st)) (length (nodes (self st)) - 1)
        (method (self st)) (random_state (self st)) = (Ret (cd, meds), rs) →
      1 < length meds →
      self st' =
        release cur
          (foldl (child_body cur (level st') dn cd)
             (accept_split (set_random_state (pop_front (self st) rest) rs) meds)
             meds.*1) →
      iter_case st st'.

(** The cluster ids that a pass of the loop added to the medoid table. *)
Definition new_medoid_ids (st st' : FitState) : list nat :=
  drop (length (medoids (self st))) (medoids (self st')).*1.

(** What holds of every state of the loop, whatever the oracle answers. *)
Record fit_inv (st : FitState) : Prop := {
  inv_arena : arena_ok (nodes (self st));
  inv_queue : ∃ c, c ≤ length (nodes (self st)) ∧
      incomplete_nodes (self st) = seq c (length (nodes (self st)) - c);
  inv_nonempty : 0 < length (nodes (self st));
  inv_levels : ∀ i, i < length (nodes (self st)) ↔
      is_Some (nodes2levels (self st) !! i);
  inv_parent : ∀ i nd, nodes (self st) !! i = Some nd →
      match parent_node nd with
      | None => i = 0 ∧ nodes2levels (self st) !! 0 = Some 0
      | Some p => p < i ∧ ∃ lp, nodes2levels (self st) !! p = Some lp ∧
                                 nodes2levels (self st) !! i = Some (S lp)
      end;
  inv_queued : ∀ q nd, q ∈ incomplete_nodes (self st) →
      nodes (self st) !! q = Some nd →
      is_Some (data nd) ∧ children_nodes nd = [];
  inv_root : 0 ∈ incomplete_nodes (self st) →
      ∃ nd, nodes (self st) !! 0 = Some nd ∧
            data nd = Some (data_node st) ∧ level st = 0;
  inv_medoids : (medoids (self st)).*1 = seq 1 (length (nodes (self st)) - 1);
  inv_mono : ∀ i j li lj, i ≤ j →
      nodes2levels (self st) !! i = Some li →
      nodes2levels (self st) !! j = Some lj → li ≤ lj;
  inv_front : ∀ q rest lq j lj,
      incomplete_nodes (self st) = q :: rest →
      nodes2levels (self st) !! q = Some lq →
      nodes2levels (self st) !! j = Some lj → lj ≤ lq + 1;
  inv_buckets : ∀ l n,
      (∃ ns, levels2nodes (self st) !! l = Some ns ∧ n ∈ ns) ↔
      nodes2levels (self st) !! n = Some l;
  inv_buckets_ne : ∀ l, levels2nodes (self st) !! l ≠ Some []
}.

End Builder.
End Tree.

(** ** A small instance, used to run the builder *)

Module Demo.
Import Tree.

(** Rows are [(id, feature)] with a natural number as feature; the
    generator state counts the calls.  The oracle splits on the bit of
    the feature selected by the call count, and answers [k = 1] when
    that bit is the same in all rows. *)
Definition scaler (X : list nat) (x : nat) : nat := x.

Definition pamk (X : list nat) (krange : list nat) (method : string)
    (calls : nat) : (KMedoids * nat) * nat :=
  let labels := (λ x, (x / 2 ^ calls) mod 2) <$> X in
  if bool_decide (Forall (λ l, l = 0) labels)
     || bool_decide (Forall (λ l, l = 1) labels)
  then ({| medoid_indices_ := [0]; labels_ := (λ _, 0) <$> X |}, 1, S calls)
  else ({| medoid_indices_ := [0; 1]; labels_ := labels |}, 2, S calls).

Definition table : list (nat * nat) := zip (seq 10 8) (seq 0 8).

Definition small : list (nat * nat) := [(7, 3); (9, 4)].

Definition start : FitState := fit_start scaler (init 10 "pam" 0) table.

Definition tree : AutoAttributeTree :=
  match fit scaler pamk 20 (init 10 "pam" 0) table with
  | Ret t => t
  | _ => init 10 "pam" 0
  end.

Definition after_first : FitState :=
  match fit_iter pamk start with
  | Ret st => st
  | _ => start
  end.

End Demo.

(** ** The discretizer and the clustering driver of [spectral.py]

    A float64 array is a list of rows of [float] values: a real number,
    an infinity or NaN, with the rules of IEEE 754 for the special
    values.  The rounding of a real result to float64, overflow and
    underflow included, is the oracle [rnd] of the class [Rounding];
    what holds for every [rnd] holds for float64, and what needs the
    arithmetic to be exact says so with [exact_arithmetic]. *)

Module Spectral.

Local Open Scope R_scope.

(** *** float64 arithmetic *)

(** A float64 value.  The two zeros are one value. *)
Inductive float : Type :=
  | Fin (x : R)
  | PInf
  | NInf
  | NaN.

(** [rnd r]: the float64 that stands for the real result [r]. *)
Class Rounding : Type := rnd : R → float.

Abbreviation Vector := (list float).
Abbreviation Matrix := (list (list float)).

Definition Rltb (x y : R) : bool := if Rlt_dec x y then true else false.

Definition fopp (a : float) : float :=
  match a with
  | Fin x => Fin (- x)
  | PInf => NInf
  | NInf => PInf
  | NaN => NaN
  end.

(** The infinity of the sign of [x], NaN for zero: [x * inf], [x / 0]. *)
Definition signed_inf (x : R) : float :=
  if Rlt_dec 0 x then PInf else if Rlt_dec x 0 then NInf else NaN.

(** [a < b] and [a != 0]; a comparison with NaN is false, so NaN is
    different from zero. *)
Definition flt (a b : float) : bool :=
  match a, b with
  | Fin x, Fin y => Rltb x y
  | Fin _, PInf => true
  | NInf, Fin _ => true
  | NInf, PInf => true
  | _, _ => false
  end.

Definition is_zero (a : float) : bool :=
  match a with
  | Fin x => if Req_dec_T x 0 then true else false
  | _ => false
  end.

Definition is_nan (a : float) : bool :=
  match a with NaN => true | _ => false end.

(** [abs] and [np.sign] *)
Definition fabs (a : float) : float :=
  match a with
  | Fin x => Fin (Rabs x)
  | PInf | NInf => PInf
  | NaN => NaN
  end.

Definition np_sign (a : float) : float :=
  match a with
  | Fin x => if Rlt_dec 0 x then Fin 1 else if Rlt_dec x 0 then Fin (-1) else Fin 0
  | PInf => Fin 1
  | NInf => Fin (-1)
  | NaN => NaN
  end.

Section Arithmetic.

Context `{Rounding}.

Definition fadd (a b : float) : float :=
  match a, b with
  | NaN, _ | _, NaN => NaN
  | Fin x, Fin y => rnd (x + y)
  | PInf, NInf | NInf, PInf => NaN
  | PInf, _ | _, PInf => PInf
  | NInf, _ | _, NInf => NInf
  end.

Definition fsub (a b : float) : float := fadd a (fopp b).

Definition fmul (a b : float) : float :=
  match a, b with
  | NaN, _ | _, NaN => NaN
  | Fin x, Fin y => rnd (x * y)
  | Fin x, PInf | PInf, Fin x => signed_inf x
  | Fin x, NInf | NInf, Fin x => signed_inf (- x)
  | PInf, PInf | NInf, NInf => PInf
  | PInf, NInf | NInf, PInf => NInf
  end.

Definition fdiv (a b : float) : float :=
  match a, b with
  | NaN, _ | _, NaN => NaN
  | Fin x, Fin y => if Req_dec_T y 0 then signed_inf x else rnd (x / y)
  | Fin _, (PInf | NInf) => Fin 0
  | PInf, Fin y => if Rlt_dec y 0 then NInf else PInf
  | NInf, Fin y => if Rlt_dec y 0 then PInf else NInf
  | (PInf | NInf), (PInf | NInf) => NaN
  end.

Definition fsqrt (a : float) : float :=
  match a with
  | Fin x => if Rlt_dec x 0 then NaN else rnd (sqrt x)
  | PInf => PInf
  | NInf | NaN => NaN
  end.

(** An integer converted to float64. *)
Definition of_nat (n : nat) : float := rnd (INR n).

(** The arithmetic is exact: no result is rounded, none overflows. *)
Definition exact_arithmetic : Prop := ∀ r, rnd r = Fin r.

(** Rounding keeps the sign: the rounded value of a result that is not
    negative is not negative, and the same for not positive. *)
Definition sign_preserving : Prop :=
  ∀ r, (0 <= r → flt (rnd r) (Fin 0) = false) ∧
       (r <= 0 → flt (Fin 0) (rnd r) = false).

(** *** Arrays *)

Definition sum_list (v : Vector) : float := foldr fadd (Fin 0) v.

(** [np.linalg.norm] of a vector: [sqrt(dot(v, v))] *)
Definition norm (v : Vector) : float :=
  fsqrt (sum_list ((λ x, fmul x x) <$> v)).

Definition dot (u v : Vector) : float := sum_list (zip_with fmul u v).

End Arithmetic.

(** [M[r, c]], [M[:, i]], [M[r, :]] and the assignment [M[:, i] = v], for
    indices within the array *)
Definition entry (M : Matrix) (r c : nat) : float :=
  nth c (nth r M []) (Fin 0).

Definition column (M : Matrix) (i : nat) : Vector :=
  (λ row, nth i row (Fin 0)) <$> M.

Definition row (M : Matrix) (r : nat) : Vector := nth r M [].

Definition set_column (M : Matrix) (i : nat) (v : Vector) : Matrix :=
  zip_with (λ row x, <[i := x]> row) M v.

(** [M.shape] *)
Definition shape (M : Matrix) : nat * nat := (length M, length (row M 0)).

Definition zeros (n m : nat) : Matrix := replicate n (replicate m (Fin 0)).

(** [M.T] for a matrix of [d] columns *)
Definition transpose (d : nat) (M : Matrix) : Matrix :=
  column M <$> seq 0 d.

(** [argmax] and [argmin] of a vector that is not empty: the first NaN
    if there is one, else the first index of an extremal entry *)
Fixpoint argmax_from (best_i : nat) (best : float) (i : nat) (v : Vector)
  : nat :=
  match v with
  | [] => best_i
  | x :: v =>
      if negb (is_nan best) && (is_nan x || flt best x)
      then argmax_from i x (S i) v
      else argmax_from best_i best (S i) v
  end.

Definition argmax (v : Vector) : nat :=
  match v with [] => 0%nat | x :: v => argmax_from 0 x 1 v end.

Fixpoint argmin_from (best_i : nat) (best : float) (i : nat) (v : Vector)
  : nat :=
  match v with
  | [] => best_i
  | x :: v =>
      if negb (is_nan best) && (is_nan x || flt x best)
      then argmin_from i x (S i) v
      else argmin_from best_i best (S i) v
  end.

Definition argmin (v : Vector) : nat :=
  match v with [] => 0%nat | x :: v => argmin_from 0 x 1 v end.

(** [np.finfo(float).eps] *)
Definition eps : float := Fin (/ 2 ^ 52).

(** [csc_matrix((ones, (arange(n), labels)), shape=(n, d))]: row [i] has
    the one stored entry [1.0], in column [labels[i]].  The rows of
    [vectors] stored in column [j] of that matrix: *)
Definition members (labels : list nat) (j : nat) (vectors : Matrix)
  : Matrix :=
  (filter (λ p, p.1 = j) (zip labels vectors)).*2.

Inductive inner_outcome : Type :=
  | Converged (labels : list nat) (svd_restarts : nat)
  | Broke (svd_restarts : nat)
  | InnerOutOfFuel.

Section Discretize.

Context `{Rounding} {Rng : Type}.

(** [np.dot(M, v)] *)
Definition mat_vec (M : Matrix) (v : Vector) : Vector :=
  (λ r, dot r v) <$> M.

(** [np.dot(A, B)] for [B] of [d] columns *)
Definition mat_mul (d : nat) (A B : Matrix) : Matrix :=
  (λ r, (λ j, dot r (column B j)) <$> seq 0 d) <$> A.

(** One pass of the loop [for i in range(vectors.shape[1])]. *)
Definition normalize_column (norm_ones : float) (vectors : Matrix) (i : nat)
  : Matrix :=
  let vectors :=
    set_column vectors i
      ((λ x, fmul (fdiv x (norm (column vectors i))) norm_ones)
         <$> column vectors i) in
  if is_zero (entry vectors 0 i) then vectors
  else
    set_column vectors i
      ((λ x, fmul (fmul (Fin (-1)) x) (np_sign (entry vectors 0 i)))
         <$> column vectors i).

(** The same pass on the column alone: scale, then flip. *)
Definition normalize_vector (norm_ones : float) (c : Vector) : Vector :=
  let c1 := (λ x, fmul (fdiv x (norm c)) norm_ones) <$> c in
  if is_zero (hd (Fin 0) c1) then c1
  else (λ x, fmul (fmul (Fin (-1)) x) (np_sign (hd (Fin 0) c1))) <$> c1.

Definition normalize_columns (vectors : Matrix) : Matrix :=
  foldl (normalize_column (fsqrt (of_nat (shape vectors).1))) vectors
    (seq 0 (shape vectors).2).

(** [vectors / np.sqrt((vectors ** 2).sum(axis=1))[:, np.newaxis]] *)
Definition normalize_rows (vectors : Matrix) : Matrix :=
  (λ r, (λ x, fdiv x (fsqrt (sum_list ((λ y, fmul y y) <$> r)))) <$> r)
    <$> vectors.

(** The hard partition of a pass: [np.dot(vectors, rotation).argmax(axis=1)] *)
Definition labels_of (d : nat) (vectors rotation : Matrix) : list nat :=
  argmax <$> mat_mul d vectors rotation.

(** [vectors_discrete.T * vectors], a sparse product: entry [(j, c)] is
    the sum, over the samples labelled [j], of the stored [1.0] times
    the entry of the sample in column [c]. *)
Definition t_svd (d : nat) (vectors rotation : Matrix) : Matrix :=
  let labels := labels_of d vectors rotation in
  (λ j, (λ c, sum_list ((λ r, fmul (Fin 1) (nth c r (Fin 0)))
                          <$> members labels j vectors))
          <$> seq 0 d)
    <$> seq 0 d.

(** [2.0 * (n_samples - S.sum())] *)
Definition ncut_value (n_samples : nat) (s : Vector) : float :=
  fmul (Fin 2) (fsub (of_nat n_samples) (sum_list s)).

(** [random_state.randint(n)], for [n] above zero; it answers below [n]. *)
Variable randint : Rng → nat → nat * Rng.

(** [np.linalg.svd]: [(U, S, Vh)], or [None] for a [LinAlgError]. *)
Variable svd : Matrix → option (Matrix * Vector * Matrix).

Variable max_svd_restarts n_iter_max : nat.

(** The initial rotation, for at least one sample and one component: a
    row of [vectors] chosen at random, then the rows most orthogonal to
    the columns already chosen. *)
Definition init_rotation (vectors : Matrix) (n_samples n_components k : nat)
  : Matrix :=
  let rotation :=
    set_column (zeros n_components n_components) 0 (row vectors k) in
  (foldl (λ '(c, rotation) j,
            let c := zip_with fadd c
                       (fabs <$> mat_vec vectors (column rotation (j - 1))) in
            (c, set_column rotation j (row vectors (argmin c))))
         (replicate n_samples (Fin 0), rotation)
         (seq 1 (n_components - 1))).2.

(** The loop [while not has_converged], one unit of fuel per pass. *)
Fixpoint inner_loop (fuel : nat) (vectors : Matrix)
    (n_samples n_components : nat) (rotation : Matrix)
    (last_objective_value : float) (n_iter svd_restarts : nat)
  : inner_outcome :=
  match fuel with
  | O => InnerOutOfFuel
  | S fuel =>
      let n_iter := S n_iter in
      let labels := labels_of n_components vectors rotation in
      match svd (t_svd n_components vectors rotation) with
      | None => Broke svd_restarts
      | Some (U, s, Vh) =>
          let svd_restarts := S svd_restarts in
          let ncut := ncut_value n_samples s in
          if flt (fabs (fsub ncut last_objective_value)) eps
             || (n_iter_max <? n_iter)%nat
          then Converged labels svd_restarts
          else
            inner_loop fuel vectors n_samples n_components
              (mat_mul n_components (transpose n_components Vh)
                 (transpose n_components U))
              ncut n_iter svd_restarts
      end
  end.

(** The loop [while (svd_restarts < max_svd_restarts) and not
    has_converged]; [has_converged] is false whenever its test is
    evaluated, except after [Converged], which leaves both loops and
    returns the labels.  Without samples [randint(0)] raises inside
    numpy (a ValueError, [high <= 0]); without components the
    assignment [rotation[:, 0] = ...] to an array of shape [(0, 0)] is
    an IndexError, after the call of [randint]. *)
Fixpoint outer_loop (fuel : nat) (vectors : Matrix)
    (n_samples n_components svd_restarts : nat) (random_state : Rng)
  : result (list nat) :=
  match fuel with
  | O => OutOfFuel
  | S fuel =>
      if (svd_restarts <? max_svd_restarts)%nat then
        if (n_samples =? 0)%nat then
          Raise (LibraryError "ValueError: high <= 0")
        else
          let '(k, random_state) := randint random_state n_samples in
          if (n_components =? 0)%nat then Raise IndexError
          else
            let rotation := init_rotation vectors n_samples n_components k in
            match inner_loop fuel vectors n_samples n_components rotation
                    (Fin 0) 0 svd_restarts with
            | Converged labels _ => Ret labels
            | Broke svd_restarts =>
                outer_loop fuel vectors n_samples n_components svd_restarts
                  random_state
            | InnerOutOfFuel => OutOfFuel
            end
      else Raise (LinAlgError "SVD did not converge")
  end.

Definition discretize (fuel : nat) (vectors : Matrix) (random_state : Rng)
  : result (list nat) :=
  let '(n_samples, n_components) := shape vectors in
  let vectors := normalize_rows (normalize_columns vectors) in
  outer_loop fuel vectors n_samples n_components 0 random_state.

End Discretize.

(** *** [spectral_clustering_mod] *)

(** The library calls a run makes, in order. *)
Inductive event : Type :=
  | CheckRandomState
  | SpectralEmbedding
  | Print (msg : string)
  | KMedoidsFit
  | KMeans
  | Discretize.

(** What a library call answers: a value, or an exception of its own. *)
Inductive lib (A : Type) : Type :=
  | LibOk (a : A)
  | LibRaise (tag : string).
Arguments LibOk {A} a.
Arguments LibRaise {A} tag.

(** A computation that logs its library calls and may raise. *)
Definition IO (A : Type) : Type := list event → result A * list event.

Definition io_ret {A} (a : A) : IO A := λ log, (Ret a, log).

Definition io_raise {A} (e : exn) : IO A := λ log, (Raise e, log).

Definition io_bind {A B} (m : IO A) (k : A → IO B) : IO B := λ log,
  match m log with
  | (Ret a, log) => k a log
  | (Raise e, log) => (Raise e, log)
  | (OutOfFuel, log) => (OutOfFuel, log)
  end.

Definition call {A} (ev : event) (answer : lib A) : IO A := λ log,
  match answer with
  | LibOk a => (Ret a, log ++ [ev])
  | LibRaise tag => (Raise (LibraryError tag), log ++ [ev])
  end.

Definition run_own {A} (ev : event) (r : result A) : IO A := λ log,
  (r, log ++ [ev]).

Inductive centers : Type :=
  | MedoidIndices (idx : list nat)
  | Centroids (c : Matrix).

Definition never_value_error {A} (m : IO A) : Prop :=
  ∀ log msg, (m log).1 ≠ Raise (ValueError msg).

Definition accepted_labels : list string := ["kmedoids"; "kmeans"; "discretize"].

Definition assign_labels_message (assign_labels : string) : string :=
  "The 'assign_labels' parameter should be 'kmedoids', 'kmeans' or 'discretize', but '"
  +:+ assign_labels +:+ "' was given".

Section Clustering.

Context `{Rounding} {Seed Rng : Type}.

Variable check_random_state : Seed → lib Rng.
Variable spectral_embedding :
  Matrix → nat → option string → Rng → R → lib Matrix.
Variable KMedoids_fit : Matrix → nat → Rng → lib (list nat * list nat * R).
Variable k_means : Matrix → nat → Rng → nat → bool → lib (Matrix * list nat * R).
Variable randint : Rng → nat → nat * Rng.
Variable svd : Matrix → option (Matrix * Vector * Matrix).

(** [k_medoids] with [return_n_iter=False] *)
Definition k_medoids (X : Matrix) (n_clusters : nat) (random_state : Rng)
  : IO (list nat * list nat * R) :=
  call KMedoidsFit (KMedoids_fit X n_clusters random_state).

Definition spectral_clustering_mod (fuel : nat) (affinity : Matrix)
    (n_clusters : nat) (n_components : option nat)
    (eigen_solver : option string) (random_state : Seed) (n_init : nat)
    (eigen_tol : R) (assign_labels : string) (verbose : bool)
  : IO (list nat * Matrix * option centers) :=
  if bool_decide (assign_labels ∉ accepted_labels) then
    io_raise (ValueError (assign_labels_message assign_labels))
  else
    io_bind (call CheckRandomState (check_random_state random_state))
      (λ random_state,
    let n_components := default n_clusters n_components in
    io_bind (call SpectralEmbedding
               (spectral_embedding affinity n_components eigen_solver
                  random_state eigen_tol))
      (λ maps,
    io_bind (if verbose
             then call (Print ("Computing label assignment using "
                               +:+ assign_labels)) (LibOk ())
             else io_ret ())
      (λ _,
    if bool_decide (assign_labels = "kmedoids") then
      io_bind (k_medoids maps n_clusters random_state)
        (λ '(cluster_centers, labels, _),
           io_ret (labels, maps, Some (MedoidIndices cluster_centers)))
    else if bool_decide (assign_labels = "kmeans") then
      io_bind (call KMeans (k_means maps n_clusters random_state n_init verbose))
        (λ '(cluster_centers, labels, _),
           io_ret (labels, maps, Some (Centroids cluster_centers)))
    else
      io_bind (run_own Discretize
                 (discretize randint svd 30 20 fuel maps random_state))
        (λ labels, io_ret (labels, maps, None))))).

End Clustering.

End Spectral.


(** ** Vocabulary of exact arithmetic: real vectors, their norm, and the
    pass of the normalization over the reals *)

Module Exact.

Local Open Scope R_scope.

Definition sum_list (v : list R) : R := foldr Rplus 0 v.

Definition norm (v : list R) : R := sqrt (sum_list ((λ x, x * x) <$> v)).

Definition np_sign (x : R) : R :=
  if Rlt_dec 0 x then 1 else if Rlt_dec x 0 then -1 else 0.

Definition column (W : list (list R)) (i : nat) : list R :=
  (λ row, nth i row 0) <$> W.

(** Scale to norm [b], then flip against the sign of the first entry. *)
Definition normalize_vector (b : R) (c : list R) : list R :=
  let c1 := (λ x, x / norm c * b) <$> c in
  if Req_dec_T (hd 0 c1) 0 then c1
  else (λ x, -1 * x * np_sign (hd 0 c1)) <$> c1.

(** The float64 arrays of real entries *)
Definition fin_vector (v : list R) : Spectral.Vector := Spectral.Fin <$> v.

Definition fin_matrix (W : list (list R)) : Spectral.Matrix :=
  fin_vector <$> W.

End Exact.


(** ** Stand-ins for the libraries, used to run the driver *)

Module SpectralDemo.
Import Spectral.

Local Open Scope R_scope.

(** Exact arithmetic as the rounding. *)
Definition exact : Rounding := Fin.

Definition check_random_state (seed : nat) : lib nat := LibOk seed.

Definition spectral_embedding (affinity : Matrix) (n_components : nat)
    (eigen_solver : option string) (random_state : nat) (eigen_tol : R)
  : lib Matrix :=
  LibOk affinity.

Definition KMedoids_fit (X : Matrix) (n_clusters random_state : nat)
  : lib (list nat * list nat * R) :=
  LibOk (seq 0 n_clusters, (λ _, 0%nat) <$> X, 0).

Definition k_means (X : Matrix) (n_clusters random_state n_init : nat)
    (verbose : bool) : lib (Matrix * list nat * R) :=
  LibOk (take n_clusters X, (λ _, 0%nat) <$> X, 0).

Definition randint (random_state n : nat) : nat * nat := (0%nat, S random_state).

(** An SVD oracle that answers the one-by-one identity decomposition. *)
Definition svd (M : Matrix) : option (Matrix * Vector * Matrix) :=
  Some ([[Fin 1]], [Fin 1], [[Fin 1]]).

(** An SVD oracle that fails, as numpy's does, on a matrix that holds a
    NaN, and answers the zero decomposition of the size of its argument
    otherwise. *)
Definition svd_finite (M : Matrix) : option (Matrix * Vector * Matrix) :=
  if bool_decide (Exists (Exists (λ x, is_nan x = true)) M) then None
  else Some (zeros (length M) (length M), replicate (length M) (Fin 0),
             zeros (length M) (length M)).

(** The embedding with an all-zero first column. *)
Definition zero_column : Matrix := [[Fin 0; Fin 1]; [Fin 0; Fin 1]].

(** The identity matrix, and an SVD oracle that answers the
    decomposition of the identity of the size of its argument. *)
Definition eye (d : nat) : Matrix :=
  (λ i, <[i := Fin 1]> (replicate d (Fin 0))) <$> seq 0 d.

Definition svd_identity (M : Matrix) : option (Matrix * Vector * Matrix) :=
  Some (eye (length M), replicate (length M) (Fin 1), eye (length M)).

(** A two-by-two embedding of real entries. *)
Definition two_by_two : list (list R) := [[3; 1]; [4; 0]].

End SpectralDemo.


(** ** More of [auto_attribute_tree.py]: the rest of [Node], and the
    vocabulary of further properties of the builder *)

Module TreeMore.
Import Tree.

(** [list.remove(x)]: drops the first occurrence, [None] when there is
    none (a ValueError). *)
Fixpoint list_remove (x : nat) (l : list nat) : option (list nat) :=
  match l with
  | [] => None
  | y :: l => if decide (x = y) then Some l else (y ::.) <$> list_remove x l
  end.

Section More.

Context {Id Feat Rng : Type} `{EqDecision Id}.

Variable scaler : list Feat -> Feat -> Feat.
Variable pamk : list Feat -> list nat -> string -> Rng -> (KMedoids * nat) * Rng.

(** [Node.remove_child] *)
Definition remove_child (child_node : nat) (n : @Node Id Feat)
  : result (@Node Id Feat) :=
  match list_remove child_node (children_nodes n) with
  | None => Raise (ValueError "list.remove(x): x not in list")
  | Some cs =>
      Ret {| name := name n; parent_node := parent_node n;
             children_nodes := cs; data := data n |}
  end.

(** The data stored at the root: the table with its features scaled. *)
Definition scaled_table (table : @DataFrame Id Feat) : @DataFrame Id Feat :=
  (λ r, (r.1, scaler table.*2 r.2)) <$> table.

(** How nodes, rows and medoids hang together between two passes. *)
Record fit_links (table : @DataFrame Id Feat) (st : @FitState Id Feat Rng)
  : Prop := {
  lk_leaf : ∀ i nd, nodes (self st) !! i = Some nd →
      (data nd = None ↔ children_nodes nd ≠ []);
  lk_child : ∀ p c ndp, nodes (self st) !! p = Some ndp →
      (c ∈ children_nodes ndp ↔
       ∃ ndc, nodes (self st) !! c = Some ndc ∧ parent_node ndc = Some p);
  lk_fan : ∀ i nd, nodes (self st) !! i = Some nd →
      NoDup (children_nodes nd) ∧
      (children_nodes nd = [] ∨ 2 ≤ length (children_nodes nd));
  lk_rows : ∀ i nd d, nodes (self st) !! i = Some nd → data nd = Some d →
      d `sublist_of` scaled_table table;
  lk_medoids : ∀ c id, (c, id) ∈ medoids (self st) → id ∈ table.*1
}.

(** A well-behaved oracle: when it chooses [k ≠ 1] clusters it labels
    every row, names [k] medoids among the rows, and uses each of the
    labels [0 .. k - 1] at least once. *)
Definition oracle_ok : Prop :=
  ∀ X krange meth rs,
    (pamk X krange meth rs).1.2 ≠ 1 →
    length (labels_ (pamk X krange meth rs).1.1) = length X ∧
    length (medoid_indices_ (pamk X krange meth rs).1.1)
      = (pamk X krange meth rs).1.2 ∧
    Forall (λ i, i < length X) (medoid_indices_ (pamk X krange meth rs).1.1) ∧
    ∀ j, j < (pamk X krange meth rs).1.2 →
         j ∈ labels_ (pamk X krange meth rs).1.1.

(** The work left in the queue: a node of [m >= 1] rows can give at most
    [2 m - 1] nodes. *)
Definition queue_weight (st : @FitState Id Feat Rng) : nat :=
  sum_list_with (λ q, 2 * length (ids_at (self st) q) - 1)
    (incomplete_nodes (self st)).

(** Queued nodes hold at least one row. *)
Definition queue_rows (st : @FitState Id Feat Rng) : Prop :=
  ∀ q, q ∈ incomplete_nodes (self st) → 1 ≤ length (ids_at (self st) q).

(** Every node that holds data holds at least one row. *)
Definition node_rows (st : @FitState Id Feat Rng) : Prop :=
  ∀ i nd d, nodes (self st) !! i = Some nd → data nd = Some d →
    1 ≤ length d.

(** The nodes built so far, plus those the queue can still give: a node
    of [m >= 1] rows can add at most [2 m - 2] nodes below itself. *)
Definition tree_budget (st : @FitState Id Feat Rng) : nat :=
  length (nodes (self st)) +
  sum_list_with (λ q, 2 * length (ids_at (self st) q) - 2)
    (incomplete_nodes (self st)).

End More.
End TreeMore.


(** ** An oracle that never splits *)

Module DemoMore.
Import Tree.

Definition pamk_one (X : list nat) (krange : list nat) (method : string)
    (calls : nat) : (KMedoids * nat) * nat :=
  ({| medoid_indices_ := [0]; labels_ := (λ _, 0) <$> X |}, 1, S calls).

End DemoMore.


(** ** The estimator [SpectralClustering] of [spectral.py] *)

Module Estimator.
Import Spectral.

Local Open Scope R_scope.

(** The parameter [affinity]: a name, or a callable kernel. *)
Inductive affinity_param : Type :=
  | AffinityName (name : string)
  | AffinityCallable (tag : string).

#[global] Instance affinity_param_eq_dec : EqDecision affinity_param.
Proof. solve_decision. Defined.

Definition callable (a : affinity_param) : bool :=
  match a with AffinityCallable _ => true | AffinityName _ => false end.

Record SpectralClustering {Seed : Type} : Type := {
  n_clusters : nat;
  eigen_solver : option string;
  n_components : option nat;
  random_state : Seed;
  n_init : nat;
  gamma : R;
  affinity : affinity_param;
  n_neighbors : nat;
  eigen_tol : R;
  assign_labels : string;
  degree : R;
  coef0 : R;
  kernel_params : option (gmap string R);
  n_jobs : option nat;
  verbose : bool;
  affinity_matrix_ : option Matrix;
  labels_ : option (list nat);
  maps_ : option Matrix;
  medoid_indices_ : option (option centers)
}.
Arguments SpectralClustering : clear implicits.

(** The library calls of [fit], and those of the driver it runs. *)
Inductive fit_event : Type :=
  | ValidateData
  | Warn (msg : string)
  | KNeighborsGraph
  | NearestNeighborsFit
  | EstimatorKNeighborsGraph
  | PairwiseKernels
  | CheckSeed
  | Driver (ev : event).

Definition FitIO (A : Type) : Type :=
  list fit_event → result A * list fit_event.

Definition fit_ret {A} (a : A) : FitIO A := λ log, (Ret a, log).

Definition fit_bind {A B} (m : FitIO A) (k : A → FitIO B) : FitIO B := λ log,
  match m log with
  | (Ret a, log) => k a log
  | (Raise e, log) => (Raise e, log)
  | (OutOfFuel, log) => (OutOfFuel, log)
  end.

Definition fit_call {A} (ev : fit_event) (answer : lib A) : FitIO A := λ log,
  match answer with
  | LibOk a => (Ret a, log ++ [ev])
  | LibRaise tag => (Raise (LibraryError tag), log ++ [ev])
  end.

Definition fit_own {A} (r : result A) : FitIO A := λ log, (r, log).

(** A run of the driver, its calls appended to the log. *)
Definition fit_driver {A} (m : IO A) : FitIO A := λ log,
  let '(r, calls) := m [] in (r, log ++ (Driver <$> calls)).

Section Affinity.

Context `{Rounding}.

Definition mat_add (A B : Matrix) : Matrix := zip_with (zip_with fadd) A B.

Definition mat_scale (k : float) (A : Matrix) : Matrix :=
  (λ r : Vector, (λ x, fmul k x) <$> r) <$> A.

(** [0.5 * (connectivity + connectivity.T)]; the sum of two matrices of
    different shapes is a ValueError. *)
Definition symmetrize (connectivity : Matrix) : result Matrix :=
  if bool_decide ((shape connectivity).1 = (shape connectivity).2) then
    Ret (mat_scale (Fin 0.5)
           (mat_add connectivity
              (transpose (shape connectivity).2 connectivity)))
  else Raise (ValueError "inconsistent shapes").

End Affinity.

Definition pairwise_names : list affinity_param :=
  [AffinityName "precomputed"; AffinityName "precomputed_nearest_neighbors"].

Definition api_warning : string :=
  "The spectral clustering API has changed. ``fit``now constructs an affinity matrix from data. To use a custom affinity matrix, set ``affinity=precomputed``.".

Section Fit.

Context `{Rounding} {Seed Rng Neighbors : Type}.

Variable validate_data : Matrix → lib Matrix.
Variable kneighbors_graph : Matrix → nat → bool → option nat → lib Matrix.
Variable NearestNeighbors_fit : nat → option nat → Matrix → lib Neighbors.
Variable estimator_kneighbors_graph : Neighbors → Matrix → lib Matrix.
Variable pairwise_kernels :
  Matrix → affinity_param → gmap string R → lib Matrix.
Variable check_random_state : Seed → lib Rng.
Variable spectral_embedding :
  Matrix → nat → option string → Rng → R → lib Matrix.
Variable KMedoids_fit : Matrix → nat → Rng → lib (list nat * list nat * R).
Variable k_means : Matrix → nat → Rng → nat → bool → lib (Matrix * list nat * R).
Variable randint : Rng → nat → nat * Rng.
Variable svd : Matrix → option (Matrix * Vector * Matrix).

(** [_more_tags()['pairwise']] and [_pairwise] *)
Definition pairwise (self : SpectralClustering Seed) : bool :=
  bool_decide (affinity self ∈ pairwise_names).

(** The parameters handed to [pairwise_kernels], and the dictionary
    [self.kernel_params] afterwards: when it is not [None] it is the
    object that the three assignments update. *)
Definition kernel_arguments (self : SpectralClustering Seed)
  : gmap string R * option (gmap string R) :=
  let params := default ∅ (kernel_params self) in
  if callable (affinity self) then (params, kernel_params self)
  else
    let params :=
      <["coef0" := coef0 self]>
        (<["degree" := degree self]> (<["gamma" := gamma self]> params)) in
    (params, match kernel_params self with
             | Some _ => Some params
             | None => None
             end).

(** The affinity matrix of [fit], with [self.kernel_params] afterwards. *)
Definition build_affinity (self : SpectralClustering Seed) (X : Matrix)
  : FitIO (Matrix * option (gmap string R)) :=
  if bool_decide (affinity self = AffinityName "nearest_neighbors") then
    fit_bind (fit_call KNeighborsGraph
                (kneighbors_graph X (n_neighbors self) true (n_jobs self)))
      (λ connectivity,
    fit_bind (fit_own (symmetrize connectivity))
      (λ A, fit_ret (A, kernel_params self)))
  else if bool_decide
            (affinity self = AffinityName "precomputed_nearest_neighbors") then
    fit_bind (fit_call NearestNeighborsFit
                (NearestNeighbors_fit (n_neighbors self) (n_jobs self) X))
      (λ estimator,
    fit_bind (fit_call EstimatorKNeighborsGraph
                (estimator_kneighbors_graph estimator X))
      (λ connectivity,
    fit_bind (fit_own (symmetrize connectivity))
      (λ A, fit_ret (A, kernel_params self))))
  else if bool_decide (affinity self = AffinityName "precomputed") then
    fit_ret (X, kernel_params self)
  else
    let '(params, kept) := kernel_arguments self in
    fit_bind (fit_call PairwiseKernels
                (pairwise_kernels X (affinity self) params))
      (λ A, fit_ret (A, kept)).

(** [SpectralClustering.fit]; the driver is handed a generator, which
    its own [check_random_state] returns as it is.  The estimator is
    returned by a run that ends normally; what a run that raises has
    already assigned to [self] is not part of the outcome. *)
Definition fit (fuel : nat) (self : SpectralClustering Seed) (X : Matrix)
  : FitIO (SpectralClustering Seed) :=
  fit_bind (fit_call ValidateData (validate_data X))
    (λ X,
  fit_bind (if Nat.eqb (shape X).1 (shape X).2 && negb (pairwise self)
            then fit_call (Warn api_warning) (LibOk ())
            else fit_ret ())
    (λ _,
  fit_bind (build_affinity self X)
    (λ '(A, kept),
  fit_bind (fit_call CheckSeed (check_random_state (random_state self)))
    (λ rs,
  fit_bind (fit_driver
              (spectral_clustering_mod (λ r, LibOk r) spectral_embedding
                 KMedoids_fit k_means randint svd fuel A (n_clusters self)
                 (n_components self) (eigen_solver self) rs (n_init self)
                 (eigen_tol self) (assign_labels self) (verbose self)))
    (λ '(labels, maps, cluster_centers),
  fit_ret
    {| n_clusters := n_clusters self; eigen_solver := eigen_solver self;
       n_components := n_components self; random_state := random_state self;
       n_init := n_init self; gamma := gamma self; affinity := affinity self;
       n_neighbors := n_neighbors self; eigen_tol := eigen_tol self;
       assign_labels := assign_labels self; degree := degree self;
       coef0 := coef0 self; kernel_params := kept; n_jobs := n_jobs self;
       verbose := verbose self; affinity_matrix_ := Some A;
       labels_ := Some labels; maps_ := Some maps;
       medoid_indices_ := Some cluster_centers |}))))).

(** [fit_predict], inherited from [ClusterMixin]: fit, then the labels. *)
Definition fit_predict (fuel : nat) (self : SpectralClustering Seed)
    (X : Matrix) : FitIO (option (list nat)) :=
  fit_bind (fit fuel self X) (λ self, fit_ret (labels_ self)).

(** The calls of [fit] before the affinity matrix, and those that build
    it, as they are logged by a run that gets past them. *)
Definition warning_calls (self : SpectralClustering Seed) (X : Matrix)
  : list fit_event :=
  if Nat.eqb (shape X).1 (shape X).2 && negb (pairwise self)
  then [Warn api_warning] else [].

Definition affinity_calls (self : SpectralClustering Seed) : list fit_event :=
  if bool_decide (affinity self = AffinityName "nearest_neighbors") then
    [KNeighborsGraph]
  else if bool_decide
            (affinity self = AffinityName "precomputed_nearest_neighbors") then
    [NearestNeighborsFit; EstimatorKNeighborsGraph]
  else if bool_decide (affinity self = AffinityName "precomputed") then []
  else [PairwiseKernels].

End Fit.

End Estimator.


(** ** Stand-ins for the libraries, used to run the estimator *)

Module EstimatorDemo.
Import Spectral Estimator.

Local Open Scope R_scope.

#[local] Existing Instance SpectralDemo.exact.

Definition validate_data (X : Matrix) : lib Matrix := LibOk X.

(** The directed graph in which sample [j] is a neighbour of sample [i]
    when [i <= j]: a square array that is not symmetric. *)
Definition directed_graph (X : Matrix) : Matrix :=
  imap (λ i _, imap (λ j _, if (i <=? j)%nat then Fin 1 else Fin 0) X) X.

Definition kneighbors_graph (X : Matrix) (n_neighbors : nat)
    (include_self : bool) (n_jobs : option nat) : lib Matrix :=
  LibOk (directed_graph X).

Definition NearestNeighbors_fit (n_neighbors : nat) (n_jobs : option nat)
    (X : Matrix) : lib Matrix :=
  LibOk X.

Definition estimator_kneighbors_graph (estimator X : Matrix) : lib Matrix :=
  LibOk (directed_graph X).

Definition pairwise_kernels (X : Matrix) (metric : affinity_param)
    (params : gmap string R) : lib Matrix :=
  LibOk X.

(** [SpectralClustering(n_clusters, affinity=..., assign_labels=...,
    kernel_params=...)], the other parameters at their defaults. *)
Definition estimator (n_clusters : nat) (affinity : affinity_param)
    (assign_labels : string) (kernel_params : option (gmap string R))
  : SpectralClustering nat :=
  {| Estimator.n_clusters := n_clusters; eigen_solver := None;
     n_components := None; random_state := 0%nat; n_init := 10; gamma := 1;
     Estimator.affinity := affinity; n_neighbors := 10; eigen_tol := 0;
     Estimator.assign_labels := assign_labels; degree := 3; coef0 := 1;
     Estimator.kernel_params := kernel_params; n_jobs := None;
     verbose := false; affinity_matrix_ := None; labels_ := None;
     maps_ := None; medoid_indices_ := None |}.

Definition fit_demo (self : SpectralClustering nat) (X : Matrix)
  : FitIO (SpectralClustering nat) :=
  Estimator.fit validate_data kneighbors_graph NearestNeighbors_fit
    estimator_kneighbors_graph pairwise_kernels
    SpectralDemo.check_random_state SpectralDemo.spectral_embedding
    SpectralDemo.KMedoids_fit SpectralDemo.k_means SpectralDemo.randint
    SpectralDemo.svd 50 self X.

Definition fitted (self : SpectralClustering nat) (X : Matrix)
  : SpectralClustering nat :=
  match fit_demo self X [] with
  | (Ret self, _) => self
  | _ => self
  end.

Definition precomputed_kmedoids : SpectralClustering nat :=
  estimator 1 (AffinityName "precomputed") "kmedoids" None.

Definition rbf_kmedoids : SpectralClustering nat :=
  estimator 1 (AffinityName "rbf") "kmedoids" (Some {["gamma" := 5]}).

Definition neighbors_kmedoids : SpectralClustering nat :=
  estimator 1 (AffinityName "nearest_neighbors") "kmedoids" None.

Definition precomputed_spectral : SpectralClustering nat :=
  estimator 1 (AffinityName "precomputed") "spectral" None.

(** Two samples of one feature. *)
Definition two_samples : Matrix := [[Fin 1]; [Fin 2]].

End EstimatorDemo.


(** * Properties of the tree builder *)

Module TreeFacts.
Import Tree.

Section Facts.

Context {Id Feat Rng : Type} `{EqDecision Id}.
Variable scaler : list Feat -> Feat -> Feat.
Variable pamk : list Feat -> list nat -> string -> Rng -> (KMedoids * nat) * Rng.

Abbreviation Tree := (@AutoAttributeTree Id Feat Rng).
Abbreviation State := (@FitState Id Feat Rng).
Abbreviation Frame := (@DataFrame Id Feat).
Abbreviation ANode := (@Node Id Feat).

Lemma iloc_length {A} (col : list A) idx xs :
  iloc col idx = Some xs → length xs = length idx.
Proof.
  revert xs; induction idx as [|i idx IH]; intros xs; simpl.
  - by intros [= <-].
  - destruct (col !! i); [|done]. destruct (iloc col idx); [|done].
    intros [= <-]. simpl. f_equal. by apply IH.
Qed.

(** What a successful [level_pamk] returned. *)
Lemma level_pamk_Ret (dn : Frame) mk off m rs cd meds rs' :
  level_pamk pamk dn mk off m rs = (Ret (cd, meds), rs') →
  ∃ km k, pamk dn.*2 (seq 1 (min (length dn - 1) mk)) m rs = (km, k, rs') ∧
    ((k = 1 ∧ cd = [] ∧ meds = []) ∨
     (k ≠ 1 ∧ length (labels_ km) = length dn ∧
      cd = zip dn.*1 ((λ l, l + off + 1) <$> labels_ km) ∧
      meds.*1 = seq (off + 1) k ∧ length meds = k)).
Proof.
  unfold level_pamk.
  destruct (pamk _ _ _ _) as [[km k] rs0] eqn:E. simpl.
  case_bool_decide as Hk.
  - intros [= <- <- <-]. exists km, k. split; [done|]. by left.
  - destruct (iloc _ _) as [ms|] eqn:Hi; [|done].
    case_bool_decide as Hl; [|done].
    case_bool_decide as Hl2; [|done].
    intros [= <- <- <-]. exists km, k. split; [done|]. right.
    rewrite length_fmap in Hl2.
    split_and!; try done.
    + rewrite fst_zip; [done|]. rewrite length_seq. lia.
    + rewrite length_zip, length_seq. lia.
Qed.

Lemma with_nodes_id (t : Tree) :
  with_nodes t (nodes t) (levels2nodes t) (nodes2levels t) = t.
Proof. by destruct t. Qed.

Lemma foldl_child_body cur lv dn cd ns (t : Tree) :
  cur < length (nodes t) →
  foldl (child_body cur lv dn cd) t ns =
  with_nodes t
    (alter (add_children ns) cur (nodes t) ++ (mk_child cur dn cd <$> ns))
    (foldl (λ m n, append_level (lv + 1) n m) (levels2nodes t) ns)
    (foldl (λ m n, <[n := lv + 1]> m) (nodes2levels t) ns).
Proof.
  revert t. induction ns as [|n ns IH]; intros t Hcur; simpl.
  - rewrite app_nil_r, list_alter_id, with_nodes_id; [done|].
    intros [] ; unfold add_children; simpl. by rewrite app_nil_r.
  - rewrite IH.
    2:{ simpl. rewrite length_app, length_alter. lia. }
    unfold with_nodes; simpl. f_equal.
    rewrite alter_app_l by (rewrite length_alter; lia).
    rewrite list_alter_alter_eq, <- app_assoc. simpl. f_equal.
    apply list_alter_ext; [|done]. intros [] _. unfold add_children, add_child.
    simpl. by rewrite <- app_assoc.
Qed.

Lemma fit_iter_Ret (st st' : State) :
  fit_iter pamk st = Ret st' → iter_case pamk st st'.
Proof.
  unfold fit_iter.
  destruct (incomplete_nodes (self st)) as [|cur rest] eqn:Hq; [done|].
  simpl. destruct (nodes (self st) !! cur) as [nd|] eqn:Hnd; [|done].
  case_bool_decide as Hc.
  - destruct (nodes2levels (self st) !! cur) as [l|] eqn:Hl; [|done].
    simpl. destruct (data nd) as [dn|] eqn:Hd; [|done].
    case_bool_decide as Hlen.
    + destruct (level_pamk _ _ _ _ _ _) as [res rs] eqn:Hp.
      destruct res as [[cd meds]| |]; [|done|done]. simpl.
      case_bool_decide as Hm; intros [= <-].
      * eapply iter_split; eauto.
      * eapply iter_keep; eauto. simpl; lia.
    + intros [= <-]. eapply iter_few; eauto. simpl; lia.
  - simpl.
    case_bool_decide as Hlen.
    + destruct (level_pamk _ _ _ _ _ _) as [res rs] eqn:Hp.
      destruct res as [[cd meds]| |]; [|done|done]. simpl.
      case_bool_decide as Hm; intros [= <-].
      * eapply iter_split; eauto. left. simpl. split_and!; [lia|done..].
      * eapply iter_keep; eauto; simpl; [|lia]. left. split_and!; [lia|done..].
    + intros [= <-]. eapply iter_few; eauto; simpl; [|lia].
      left. split_and!; [lia|done..].
Qed.

Lemma foldl_insert_lookup (v : nat) ns (m : gmap nat nat) i :
  foldl (λ m n, <[n := v]> m) m ns !! i =
  if decide (i ∈ ns) then Some v else m !! i.
Proof.
  revert m. induction ns as [|n ns IH]; intros m; simpl.
  - destruct (decide (i ∈ [])) as [Hi|]; [inversion Hi|done].
  - rewrite IH. destruct (decide (i ∈ ns)) as [Hi|Hi].
    + rewrite decide_True; [done|by right].
    + destruct (decide (i = n)) as [->|Hne].
      * rewrite decide_True by left. by rewrite lookup_insert_eq.
      * rewrite decide_False by (rewrite elem_of_cons; tauto).
        by rewrite lookup_insert_ne.
Qed.

Lemma foldl_append_level L ns (m : gmap nat (list nat)) l :
  foldl (λ m n, append_level L n m) m ns !! l =
  if decide (l = L ∧ ns ≠ []) then Some (default [] (m !! L) ++ ns)
  else m !! l.
Proof.
  revert m. induction ns as [|n ns IH]; intros m; simpl.
  - rewrite decide_False; [done|]. tauto.
  - rewrite IH. unfold append_level. rewrite lookup_insert_eq. simpl.
    destruct (decide (l = L)) as [->|Hne].
    + rewrite (decide_True (P := L = L ∧ n :: ns ≠ [])) by done.
      destruct ns as [|n' ns].
      * rewrite decide_False by tauto. by rewrite lookup_insert_eq.
      * rewrite decide_True by done. by rewrite <- app_assoc.
    + rewrite !decide_False by tauto. by rewrite lookup_insert_ne.
Qed.

Lemma queue_head (a c cur : nat) rest :
  c ≤ a → seq c (a - c) = cur :: rest →
  cur = c ∧ c < a ∧ rest = seq (S c) (a - S c).
Proof.
  intros Hc Hq. destruct (a - c) as [|n] eqn:E; [done|].
  simpl in Hq. injection Hq as <- <-.
  split_and!; [done|lia|]. f_equal. lia.
Qed.

(** The state after an accepted split, field by field. *)
Lemma split_shape (st st' : State) cur rest nd dn cd meds rs :
  0 < length (nodes (self st)) →
  incomplete_nodes (self st) = cur :: rest →
  nodes (self st) !! cur = Some nd →
  level_pamk pamk dn (max_k (self st)) (length (nodes (self st)) - 1)
    (method (self st)) (random_state (self st)) = (Ret (cd, meds), rs) →
  1 < length meds →
  self st' =
    release cur
      (foldl (child_body cur (level st') dn cd)
         (accept_split (set_random_state (pop_front (self st) rest) rs) meds)
         meds.*1) →
  ∃ km k, let a := length (nodes (self st)) in
    pamk dn.*2 (seq 1 (min (length dn - 1) (max_k (self st))))
      (method (self st)) (random_state (self st)) = (km, k, rs) ∧
    1 < k ∧ length meds = k ∧ meds.*1 = seq a k ∧
    length (labels_ km) = length dn ∧
    cd = zip dn.*1 ((λ l, l + (a - 1) + 1) <$> labels_ km) ∧
    nodes (self st') =
      alter (λ n, del_data (add_children (seq a k) n)) cur (nodes (self st))
        ++ (mk_child cur dn cd <$> seq a k) ∧
    incomplete_nodes (self st') = rest ++ seq a k ∧
    medoids (self st') = medoids (self st) ++ meds ∧
    nodes2levels (self st') =
      foldl (λ m n, <[n := level st' + 1]> m) (nodes2levels (self st)) (seq a k) ∧
    levels2nodes (self st') =
      foldl (λ m n, append_level (level st' + 1) n m) (levels2nodes (self st))
        (seq a k) ∧
    max_k (self st') = max_k (self st) ∧
    method (self st') = method (self st) ∧
    random_state (self st') = rs.
Proof.
  intros Hne Hq Hnd Hp Hm Hs.
  apply level_pamk_Ret in Hp as (km & k & Hpam & [(-> & -> & ->)|Hk]).
  { simpl in Hm. lia. }
  destruct Hk as (Hk1 & Hlab & Hcd & Hids & Hlen).
  exists km, k. simpl.
  replace (length (nodes (self st)) - 1 + 1) with (length (nodes (self st)))
    in Hids by lia.
  assert (Hcur : cur < length (nodes (self st))) by by eapply lookup_lt_Some.
  rewrite foldl_child_body in Hs by done.
  rewrite Hs, Hids. simpl.
  split_and!; try done; try lia.
  - rewrite alter_app_l by (rewrite length_alter; lia).
    by rewrite list_alter_alter_eq.
  - by rewrite Hids.
Qed.

Lemma fit_inv_start mk meth (rs : Rng) (table : Frame) :
  fit_inv (fit_start scaler (init mk meth rs) table).
Proof.
  constructor; simpl.
  - intros [|i] nd; simpl; [by intros [= <-]|done].
  - exists 0. split; [lia|done].
  - lia.
  - intros i. destruct i as [|i].
    + rewrite lookup_insert_eq. split; [eauto|lia].
    + rewrite lookup_insert_ne by done. rewrite lookup_empty.
      split; [lia|]. by intros [? ?].
  - intros [|i] nd; simpl; [|done]. intros [= <-]. simpl.
    by rewrite lookup_insert_eq.
  - intros q nd ->%list_elem_of_singleton [= <-]. simpl. eauto.
  - intros _. eexists. split; [done|]. done.
  - done.
  - intros i j li lj Hij.
    destruct i as [|i]; [|by rewrite lookup_insert_ne, lookup_empty].
    rewrite lookup_insert_eq. intros [= <-]. lia.
  - intros q rest lq j lj [= <- <-].
    rewrite lookup_insert_eq. intros [= <-].
    destruct j as [|j]; [|by rewrite lookup_insert_ne, lookup_empty].
    rewrite lookup_insert_eq. intros [= <-]. lia.
  - intros l n. unfold append_level. rewrite lookup_empty. simpl. split.
    + intros (ns & Hl & Hn). destruct l as [|l].
      * rewrite lookup_insert_eq in Hl. injection Hl as <-.
        apply list_elem_of_singleton in Hn as ->. by rewrite lookup_insert_eq.
      * by rewrite lookup_insert_ne, lookup_empty in Hl.
    + destruct n as [|n]; [|by rewrite lookup_insert_ne, lookup_empty].
      rewrite lookup_insert_eq. intros [= <-]. exists [0].
      rewrite lookup_insert_eq. split; [done|]. by apply list_elem_of_singleton.
  - intros l. unfold append_level. rewrite lookup_empty. simpl.
    destruct l as [|l]; [by rewrite lookup_insert_eq|].
    by rewrite lookup_insert_ne, lookup_empty.
Qed.

(** A pass that pops the front of the queue and leaves the tree as it is. *)
Lemma fit_inv_pop (st st' : State) cur rest :
  fit_inv st →
  incomplete_nodes (self st) = cur :: rest →
  nodes (self st') = nodes (self st) →
  incomplete_nodes (self st') = rest →
  medoids (self st') = medoids (self st) →
  nodes2levels (self st') = nodes2levels (self st) →
  levels2nodes (self st') = levels2nodes (self st) →
  fit_inv st'.
Proof.
  intros [Ha (c & Hc & Hq) Hne Hlv Hpar Hqd Hroot Hmed Hmono Hfront Hb Hbne]
    Hcur Hn Hq' Hm Hn2l Hl2n.
  rewrite Hcur in Hq. symmetry in Hq.
  apply queue_head in Hq as (-> & Hlt & Hrest); [|done].
  constructor; rewrite ?Hn, ?Hq', ?Hm, ?Hn2l, ?Hl2n; try done.
  - exists (S c). split; [lia|done].
  - intros q nd Hin. apply Hqd. rewrite Hcur. by right.
  - rewrite Hrest. intros Hin%elem_of_seq. lia.
  - intros q rest' lq j lj Hr Hlq Hlj.
    destruct (Hlv c) as [[lc Hlc] _]; [done|].
    assert (lj ≤ lc + 1) by (eapply Hfront; eauto).
    assert (lc ≤ lq); [|lia].
    eapply (Hmono c q); eauto.
    assert (q ∈ seq (S c) (length (nodes (self st)) - S c)) as Hin%elem_of_seq.
    { rewrite <- Hrest, Hr. by left. }
    lia.
Qed.

Lemma root_level (st : State) :
  fit_inv st → nodes2levels (self st) !! 0 = Some 0.
Proof.
  intros Hinv. destruct (lookup_lt_is_Some_2 (nodes (self st)) 0) as [nd Hnd].
  { apply Hinv. }
  pose proof (inv_parent _ Hinv 0 nd Hnd) as Hp.
  destruct (parent_node nd) as [p|]; [lia|tauto].
Qed.

(** The loop's [level] and [data_node] are those of the node it popped. *)
Lemma current_level (st st' : State) cur rest nd dn :
  fit_inv st →
  incomplete_nodes (self st) = cur :: rest →
  nodes (self st) !! cur = Some nd →
  (cur = 0 ∧ dn = data_node st ∧ level st' = level st ∨
   0 < cur ∧ data nd = Some dn ∧
     nodes2levels (self st) !! cur = Some (level st')) →
  nodes2levels (self st) !! cur = Some (level st') ∧ data nd = Some dn.
Proof.
  intros Hinv Hq Hnd [(-> & -> & ->)|(_ & ? & ?)]; [|done].
  destruct (inv_root _ Hinv) as (nd' & Hnd' & Hd & Hl).
  { rewrite Hq. by left. }
  rewrite Hl, (root_level _ Hinv). split; [done|]. congruence.
Qed.

Lemma split_lookup (ns : list ANode) f cur dn cd k i x :
  (∀ n, name (f n) = name n ∧ parent_node (f n) = parent_node n) →
  (alter f cur ns ++ (mk_child cur dn cd <$> seq (length ns) k)) !! i = Some x →
  (i < length ns ∧ ∃ y, ns !! i = Some y ∧ name x = name y ∧
     parent_node x = parent_node y ∧ (i = cur ∧ x = f y ∨ i ≠ cur ∧ x = y)) ∨
  (length ns ≤ i < length ns + k ∧ x = mk_child cur dn cd i).
Proof.
  intros Hf Hx. destruct (decide (i < length ns)) as [Hi|Hi].
  - left. split; [done|].
    rewrite lookup_app_l in Hx by (by rewrite length_alter).
    destruct (decide (i = cur)) as [->|Hne].
    + rewrite list_lookup_alter_eq in Hx.
      destruct (ns !! cur) as [y|]; [|done]. injection Hx as <-.
      exists y. destruct (Hf y). split_and!; eauto.
    + rewrite list_lookup_alter_ne in Hx by done. exists x. eauto 6.
  - right. rewrite lookup_app_r in Hx by (rewrite length_alter; lia).
    rewrite length_alter, list_lookup_fmap in Hx.
    destruct (seq (length ns) k !! (i - length ns)) as [n|] eqn:Hs; [|done].
    apply lookup_seq in Hs as [-> Hlt]. injection Hx as <-.
    split; [lia|]. f_equal. lia.
Qed.

(** A pass that accepts a split into [k] children keeps the invariant. *)
Lemma fit_inv_split (st st' : State) cur rest nd dn cd k lv :
  let a := length (nodes (self st)) in
  fit_inv st →
  incomplete_nodes (self st) = cur :: rest →
  nodes (self st) !! cur = Some nd →
  nodes2levels (self st) !! cur = Some lv →
  0 < k →
  nodes (self st') =
    alter (λ n, del_data (add_children (seq a k) n)) cur (nodes (self st))
      ++ (mk_child cur dn cd <$> seq a k) →
  incomplete_nodes (self st') = rest ++ seq a k →
  (medoids (self st')).*1 = (medoids (self st)).*1 ++ seq a k →
  nodes2levels (self st') =
    foldl (λ m n, <[n := lv + 1]> m) (nodes2levels (self st)) (seq a k) →
  levels2nodes (self st') =
    foldl (λ m n, append_level (lv + 1) n m) (levels2nodes (self st)) (seq a k) →
  fit_inv st'.
Proof.
  intros a
    [Ha (c & Hc & Hq) Hne Hlv Hpar Hqd Hroot Hmed Hmono Hfront Hb Hbne]
    Hcur Hnd Hlcur Hk Hn Hq' Hm Hn2l Hl2n.
  fold a in Hc, Hq, Hne, Hlv, Hmed.
  rewrite Hcur in Hq. symmetry in Hq.
  apply queue_head in Hq as (-> & Hlt & Hrest); [|done].
  assert (Hlen : length (nodes (self st')) = a + k).
  { rewrite Hn, length_app, length_alter, length_fmap, length_seq. done. }
  assert (Hnew : ∀ i, nodes2levels (self st') !! i =
            if decide (a ≤ i < a + k) then Some (lv + 1)
            else nodes2levels (self st) !! i).
  { intros i. rewrite Hn2l, foldl_insert_lookup.
    destruct (decide (i ∈ seq a k)) as [Hi|Hi]; rewrite elem_of_seq in Hi.
    - by rewrite decide_True.
    - by rewrite decide_False. }
  assert (Hold : ∀ i l, nodes2levels (self st) !! i = Some l → i < a).
  { intros i l Hl. apply Hlv. eauto. }
  assert (Hf : ∀ n : ANode,
            name (del_data (add_children (seq a k) n)) = name n ∧
            parent_node (del_data (add_children (seq a k) n)) = parent_node n)
    by done.
  constructor.
  - (* arena *)
    intros i x Hx. rewrite Hn in Hx.
    apply split_lookup in Hx as [(Hi & y & Hy & -> & _)|(Hi & ->)]; [|done..].
    by apply Ha.
  - (* queue *)
    exists (S c). rewrite Hlen, Hq', Hrest. split; [lia|].
    replace (a + k - S c) with ((a - S c) + k) by lia.
    rewrite seq_app. do 2 f_equal. lia.
  - lia.
  - (* levels *)
    intros i. rewrite Hlen, Hnew. case_decide as Hi.
    + split; [eauto|lia].
    + rewrite <- Hlv. lia.
  - (* parents *)
    intros i x Hx. rewrite Hn in Hx.
    apply split_lookup in Hx as [(Hi & y & Hy & _ & -> & _)|(Hi & ->)];
      [| |done].
    + specialize (Hpar i y Hy). destruct (parent_node y) as [p|].
      * destruct Hpar as (Hp & lp & Hlp & Hli). split; [done|]. exists lp.
        rewrite !Hnew, !decide_False by lia. done.
      * rewrite Hnew, decide_False by lia. done.
    + simpl. split; [lia|]. exists lv.
      rewrite !Hnew, decide_False, decide_True by lia.
      split; [done|]. f_equal. lia.
  - (* queued nodes *)
    intros q x Hin Hx. rewrite Hq' in Hin. rewrite Hn in Hx.
    apply split_lookup in Hx as [(Hi & y & Hy & _ & _ & Hxy)|(Hi & ->)];
      [| |done].
    + apply elem_of_app in Hin as [Hin|Hin].
      * destruct Hxy as [[-> _]|[_ ->]].
        -- rewrite Hrest in Hin. apply elem_of_seq in Hin. lia.
        -- eapply Hqd; [|done]. rewrite Hcur. by right.
      * apply elem_of_seq in Hin. lia.
    + simpl. eauto.
  - (* the root is no longer queued *)
    rewrite Hq', Hrest. intros [Hin|Hin]%elem_of_app; apply elem_of_seq in Hin; lia.
  - (* medoid ids *)
    rewrite Hm, Hmed, Hlen.
    replace (a + k - 1) with ((a - 1) + k) by lia.
    rewrite seq_app. do 2 f_equal. lia.
  - (* depth is monotone in the id *)
    intros i j li lj Hij. rewrite !Hnew.
    assert (∀ j lj, nodes2levels (self st) !! j = Some lj → lj ≤ lv + 1)
      as Hbound by (intros; eapply Hfront; eauto).
    case_decide as Hi; case_decide as Hj; intros Hli Hlj.
    + injection Hli as <-. injection Hlj as <-. lia.
    + apply Hold in Hlj. lia.
    + injection Hlj as <-. eauto.
    + eauto.
  - (* the front of the queue *)
    intros q rest' lq j lj Hr. rewrite !Hnew. intros Hlq Hlj.
    assert (∀ j lj, nodes2levels (self st) !! j = Some lj → lj ≤ lv + 1)
      as Hbound by (intros; eapply Hfront; eauto).
    assert (c ≤ q) as Hcq.
    { assert (q ∈ rest ++ seq a k) as Hin by (rewrite <- Hq', Hr; by left).
      rewrite Hrest in Hin.
      apply elem_of_app in Hin as [Hin|Hin]; apply elem_of_seq in Hin; lia. }
    assert (lv ≤ lq).
    { destruct (decide (a ≤ q < a + k)); [injection Hlq as <-; lia|].
      eapply (Hmono c q); eauto. }
    destruct (decide (a ≤ j < a + k)); [injection Hlj as <-; lia|].
    apply Hbound in Hlj. lia.
  - (* depth buckets *)
    intros l n. rewrite Hl2n, foldl_append_level, Hnew.
    assert (seq a k ≠ []) as Hs by (destruct k; [lia|done]).
    destruct (decide (l = lv + 1)) as [->|Hl].
    + rewrite decide_True by done.
      case_decide as Hi.
      * split; [done|]. intros _. eexists. split; [done|].
        apply elem_of_app. right. apply elem_of_seq. lia.
      * rewrite <- Hb. split.
        -- intros (ns & [= <-] & [Hin|Hin]%elem_of_app).
           ++ destruct (levels2nodes (self st) !! (lv + 1)) as [ns0|] eqn:E;
                [eauto|inversion Hin].
           ++ apply elem_of_seq in Hin. lia.
        -- intros (ns & Hns & Hin). eexists. split; [done|].
           rewrite Hns. simpl. apply elem_of_app. by left.
    + rewrite decide_False by tauto. rewrite Hb.
      case_decide as Hi; [|done].
      split; [|by intros [= ?]; lia].
      intros Hx%Hold. lia.
  - (* no empty bucket *)
    intros l. rewrite Hl2n, foldl_append_level.
    case_decide as Hl; [|done].
    intros [= E]. apply app_eq_nil in E as [_ E]. destruct k; [lia|done].
Qed.

Lemma fit_inv_iter (st st' : State) :
  fit_inv st → fit_iter pamk st = Ret st' → fit_inv st'.
Proof.
  intros Hinv Hit. apply fit_iter_Ret in Hit.
  destruct Hit as [cur rest nd dn Hq Hnd Hloc Hdn Hlen Hs
                  |cur rest nd dn cd meds rs Hq Hnd Hloc Hdn Hlen Hp Hm Hs
                  |cur rest nd dn cd meds rs Hq Hnd Hloc Hdn Hlen Hp Hm Hs].
  - eapply fit_inv_pop; eauto; by rewrite Hs.
  - eapply fit_inv_pop; eauto; by rewrite Hs.
  - destruct (current_level st st' cur rest nd dn) as [Hlv Hd]; try done.
    pose proof (inv_nonempty _ Hinv) as Hne.
    destruct (split_shape st st' cur rest nd dn cd meds rs)
      as (km & k & Hsh); try done.
    simpl in Hsh.
    destruct Hsh as (_ & Hk & _ & Hids & _ & _ & Hn & Hq' & Hmed & Hn2l & Hl2n & _).
    apply (fit_inv_split st st' cur rest nd dn cd k (level st'));
      try done; [lia|].
    by rewrite Hmed, fmap_app, Hids.
Qed.

Lemma reach_inv mk meth (rs : Rng) (table : Frame) (st : State) :
  reach scaler pamk (init mk meth rs) table st → fit_inv st.
Proof.
  induction 1 as [|st st' _ IH Hit].
  - apply fit_inv_start.
  - by eapply fit_inv_iter.
Qed.

Lemma fit_loop_reach t0 (table : Frame) fuel (st st' : State) :
  reach scaler pamk t0 table st →
  fit_loop pamk fuel st = Ret st' →
  reach scaler pamk t0 table st' ∧ incomplete_nodes (self st') = [].
Proof.
  revert st. induction fuel as [|fuel IH]; intros st Hr; simpl.
  - destruct (incomplete_nodes (self st)) eqn:Hq; [|done].
    by intros [= <-].
  - destruct (incomplete_nodes (self st)) eqn:Hq.
    + by intros [= <-].
    + destruct (fit_iter pamk st) as [st1| |] eqn:Hit; simpl; [|done..].
      apply IH. by eapply reach_iter.
Qed.

Lemma fit_Ret t0 (table : Frame) fuel (t : Tree) :
  fit scaler pamk fuel t0 table = Ret t →
  ∃ st, reach scaler pamk t0 table st ∧ incomplete_nodes (self st) = [] ∧
        t = set_leaves (self st).
Proof.
  unfold fit.
  destruct (fit_loop _ _ _) as [st| |] eqn:Hl; simpl; [|done..].
  intros [= <-]. exists st.
  apply fit_loop_reach with (t0 := t0) (table := table) in Hl as [? ?];
    [done|constructor].
Qed.

(** ** The arena invariant *)

(** C10. At every program point of [fit] on a fresh builder, and in the
    tree it returns, the node stored at index [i] of [nodes] has name [i]:
    indexing the arena by a node id yields the node with that id. *)
Theorem arena_names mk meth (rs : Rng) (table : Frame) (t : Tree) :
  fit_point scaler pamk (init mk meth rs) table t →
  arena_ok (nodes t) ∧
  ∀ i nd, nodes t !! i = Some nd → nodes t !! name nd = Some nd.
Proof.
  intros Hp.
  assert (arena_ok (nodes t)) as Ha.
  { destruct Hp as [|st Hr|st cur rest nd lv dn cd meds rs' j Hr Hq Hnd Hlp Hm
                   |fuel t Hfit].
    - intros i nd. simpl. by rewrite lookup_nil.
    - apply reach_inv in Hr. apply Hr.
    - apply reach_inv in Hr.
      pose proof (inv_nonempty _ Hr) as Hne.
      apply level_pamk_Ret in Hlp as (km & k & _ & [(_ & _ & ->)|Hk]).
      { simpl in Hm. lia. }
      destruct Hk as (_ & _ & _ & Hids & _).
      replace (length (nodes (self st)) - 1 + 1)
        with (length (nodes (self st))) in Hids by lia.
      rewrite foldl_child_body by (simpl; by eapply lookup_lt_Some).
      simpl. rewrite Hids, take_seq.
      intros i x Hx.
      apply split_lookup in Hx as [(_ & y & Hy & -> & _)|(_ & ->)];
        [|done..].
      by apply (inv_arena _ Hr).
    - apply fit_Ret in Hfit as (st & Hr & _ & ->). simpl.
      apply reach_inv in Hr. apply Hr. }
  split; [done|]. intros i nd Hnd. by rewrite (Ha i nd Hnd).
Qed.

(** ** The partition of the rows among the leaves *)

Lemma elem_of_concat_fmap {A B} (f : A → list B) (l : list A) (x : B) :
  x ∈ concat (f <$> l) ↔ ∃ a, a ∈ l ∧ x ∈ f a.
Proof.
  induction l as [|a l IH]; simpl.
  - split; [by intros ?%elem_of_nil|]. by intros (a & ?%elem_of_nil & _).
  - rewrite elem_of_app, IH. split.
    + intros [Hx|(b & Hb & Hx)]; [exists a|exists b]; split; try done;
        [by left|by right].
    + intros (b & [->|Hb]%elem_of_cons & Hx); [by left|right; eauto].
Qed.

Lemma NoDup_concat_fmap {A B} (f : A → list B) (l : list A) :
  NoDup l →
  (∀ a, a ∈ l → NoDup (f a)) →
  (∀ a b x, a ∈ l → b ∈ l → x ∈ f a → x ∈ f b → a = b) →
  NoDup (concat (f <$> l)).
Proof.
  induction 1 as [|a l Ha Hl IH]; intros Hnd Hdisj; simpl; [constructor|].
  apply NoDup_app. split_and!.
  - apply Hnd. by left.
  - intros x Hx (b & Hb & Hxb)%elem_of_concat_fmap.
    assert (a = b) as -> by (eapply Hdisj; eauto; [by left|by right]).
    done.
  - apply IH.
    + intros b Hb. apply Hnd. by right.
    + intros b c x Hb Hc. apply Hdisj; by right.
Qed.

Lemma concat_filter_partition {A B} `{EqDecision B} (P : A → B → Prop)
    `{∀ a x, Decision (P a x)} (cs : list A) (xs : list B) :
  NoDup xs → NoDup cs →
  (∀ a b x, a ∈ cs → b ∈ cs → P a x → P b x → a = b) →
  (∀ x, x ∈ xs → ∃ a, a ∈ cs ∧ P a x) →
  concat ((λ a, filter (P a) xs) <$> cs) ≡ₚ xs.
Proof.
  intros Hxs Hcs Hfun Hex. apply NoDup_Permutation; [|done|].
  - apply NoDup_concat_fmap; [done|..].
    + intros a _. by apply NoDup_filter.
    + intros a b x Ha Hb [? _]%list_elem_of_filter [? _]%list_elem_of_filter.
      eauto.
  - intros x. rewrite elem_of_concat_fmap. split.
    + by intros (a & _ & [_ ?]%list_elem_of_filter).
    + intros Hx. destruct (Hex x Hx) as (a & Ha & HP).
      exists a. split; [done|]. by apply list_elem_of_filter.
Qed.

Lemma fmap_fst_filter {A B} (P : A → Prop) `{∀ a, Decision (P a)}
    (l : list (A * B)) :
  (filter (λ r, P r.1) l).*1 = filter P l.*1.
Proof.
  induction l as [|[a b] l IH]; [done|].
  rewrite fmap_cons, !filter_cons. cbn [fst].
  case_decide; [rewrite fmap_cons|]; by rewrite IH.
Qed.

Lemma elem_ids_of_cluster (cd : list (Id * nat)) n id :
  id ∈ ids_of_cluster cd n ↔ (id, n) ∈ cd.
Proof.
  unfold ids_of_cluster. rewrite list_elem_of_fmap. split.
  - intros ([id' n'] & -> & [Hn Hin]%list_elem_of_filter). simpl in *.
    by subst.
  - intros Hin. exists (id, n). split; [done|].
    by apply list_elem_of_filter.
Qed.

(** The children of a split share out the ids of the node they split. *)
Lemma masked_partition (dn : Frame) (labels : list nat) off k :
  0 < off →
  NoDup dn.*1 →
  length labels = length dn →
  Forall (λ l, l < k) labels →
  concat ((λ n, (masked dn
                   (zip dn.*1 ((λ l, l + (off - 1) + 1) <$> labels)) n).*1)
            <$> seq off k)
  ≡ₚ dn.*1.
Proof.
  intros Hoff Hnd Hlen Hlab.
  set (cd := zip dn.*1 _).
  etrans;
    [|apply (@concat_filter_partition nat Id _
               (λ n id, id ∈ ids_of_cluster cd n)
               (λ n id, decide_rel (∈) id (ids_of_cluster cd n))
               (seq off k) dn.*1)].
  - apply reflexive_eq, f_equal, list_fmap_ext. intros _ n _.
    exact (@fmap_fst_filter Id Feat (λ id, id ∈ ids_of_cluster cd n)
             (λ id, decide_rel (∈) id (ids_of_cluster cd n)) dn).
  - done.
  - apply NoDup_seq.
  - intros a b id _ _ Ha%elem_ids_of_cluster Hb%elem_ids_of_cluster.
    apply elem_of_lookup_zip_with in Ha as (i & x & y & [= <- ->] & Hx & Hy).
    apply elem_of_lookup_zip_with in Hb as (j & x' & y' & [= <- ->] & Hx' & Hy').
    assert (i = j) as -> by (eapply NoDup_lookup; eauto).
    congruence.
  - intros id (i & Hi)%list_elem_of_lookup.
    assert (i < length labels) as Hlt.
    { rewrite Hlen. apply lookup_lt_Some in Hi. by rewrite length_fmap in Hi. }
    destruct (lookup_lt_is_Some_2 labels i Hlt) as [l Hl].
    assert (l < k) as Hlk by (eapply Forall_lookup_1 in Hlab; eauto).
    exists (l + (off - 1) + 1). split.
    + apply elem_of_seq. lia.
    + apply elem_ids_of_cluster. unfold cd.
      apply elem_of_lookup_zip_with.
      exists i, id, (l + (off - 1) + 1). split_and!; [done..|].
      by rewrite list_lookup_fmap, Hl.
Qed.

Lemma leaf_ids_app (l k : list ANode) :
  leaf_ids (l ++ k) = leaf_ids l ++ leaf_ids k.
Proof. unfold leaf_ids. by rewrite fmap_app, concat_app. Qed.

Lemma leaf_ids_alter (f : ANode → ANode) ns cur nd :
  ns !! cur = Some nd → node_ids (f nd) = [] →
  leaf_ids ns ≡ₚ node_ids nd ++ leaf_ids (alter f cur ns).
Proof.
  revert cur. induction ns as [|x ns IH]; intros cur Hnd Hf; [done|].
  destruct cur as [|cur]; simpl in Hnd.
  - injection Hnd as ->. unfold leaf_ids. simpl. by rewrite Hf.
  - unfold leaf_ids in *. simpl. rewrite (IH cur) by done.
    rewrite !app_assoc. f_equiv; [apply Permutation_app_comm|done].
Qed.

Lemma leaf_ids_children cur (dn : Frame) cd cs :
  leaf_ids (mk_child cur dn cd <$> cs) =
  concat ((λ n, (masked dn cd n).*1) <$> cs).
Proof. unfold leaf_ids. by rewrite <- list_fmap_compose. Qed.

(** A pass of the loop only moves row ids from a node to its children. *)
Lemma leaf_ids_iter (st st' : State) :
  labels_in_range pamk →
  fit_inv st →
  NoDup (leaf_ids (nodes (self st))) →
  fit_iter pamk st = Ret st' →
  leaf_ids (nodes (self st')) ≡ₚ leaf_ids (nodes (self st)).
Proof.
  intros Hor Hinv Hnd Hit. apply fit_iter_Ret in Hit.
  destruct Hit as [cur rest nd dn Hq Hcur Hloc Hdn Hlen Hs
                  |cur rest nd dn cd meds rs Hq Hcur Hloc Hdn Hlen Hp Hm Hs
                  |cur rest nd dn cd meds rs Hq Hcur Hloc Hdn Hlen Hp Hm Hs].
  - by rewrite Hs.
  - by rewrite Hs.
  - destruct (current_level st st' cur rest nd dn) as [Hlv Hd]; try done.
    pose proof (inv_nonempty _ Hinv) as Hne.
    destruct (split_shape st st' cur rest nd dn cd meds rs)
      as (km & k & Hsh); try done.
    simpl in Hsh.
    destruct Hsh as (Hpam & Hk & _ & Hids & Hlab & -> & Hn & _).
    rewrite Hn, leaf_ids_app, leaf_ids_children.
    set (f := λ n : ANode, del_data (add_children _ n)).
    pose proof (leaf_ids_alter f _ _ _ Hcur eq_refl) as Hperm.
    rewrite Hperm in Hnd |- *.
    apply NoDup_app in Hnd as (Hdn' & _ & _).
    unfold node_ids in Hdn' |- *. rewrite Hd in Hdn' |- *.
    rewrite masked_partition; [apply Permutation_app_comm|done..|].
    specialize (Hor dn.*2 (seq 1 (min (length dn - 1) (max_k (self st))))
                  (method (self st)) (random_state (self st))).
    by rewrite Hpam in Hor.
Qed.

Lemma reach_partition mk meth (rs : Rng) (table : Frame) (st : State) :
  labels_in_range pamk → NoDup table.*1 →
  reach scaler pamk (init mk meth rs) table st →
  leaf_ids (nodes (self st)) ≡ₚ table.*1.
Proof.
  intros Hor Hnd. induction 1 as [|st st' Hr IH Hit].
  - unfold leaf_ids, node_ids. simpl. rewrite app_nil_r.
    rewrite <- list_fmap_compose. done.
  - rewrite <- IH. apply leaf_ids_iter; try done.
    + by eapply reach_inv.
    + by rewrite IH.
Qed.

Lemma concat_fmap_disjoint {A B} (f : A → list B) (l : list A) i j a b x :
  NoDup (concat (f <$> l)) →
  l !! i = Some a → l !! j = Some b → i ≠ j →
  x ∈ f a → x ∈ f b → False.
Proof.
  revert i j. induction l as [|c l IH]; intros i j Hnd Hi Hj Hij Ha Hb;
    [done|].
  simpl in Hnd. apply NoDup_app in Hnd as (_ & Hdis & Hnd).
  destruct i as [|i], j as [|j]; simpl in *; try done.
  - injection Hi as ->. apply (Hdis x Ha).
    apply elem_of_concat_fmap. exists b. split; [|done].
    by eapply list_elem_of_lookup_2.
  - injection Hj as ->. apply (Hdis x Hb).
    apply elem_of_concat_fmap. exists a. split; [|done].
    by eapply list_elem_of_lookup_2.
  - eapply (IH i j); eauto.
Qed.

Lemma leaf_ids_filter (ns : list ANode) :
  concat (node_ids <$> filter (λ n, has_data n = true) ns) = leaf_ids ns.
Proof.
  unfold leaf_ids. induction ns as [|n ns IH]; [done|].
  rewrite filter_cons, (fmap_cons node_ids n ns). case_decide as Hn.
  - rewrite fmap_cons. cbn [concat]. by rewrite IH.
  - cbn [concat]. rewrite IH. unfold has_data, node_ids in *.
    by destruct (data n).
Qed.

Lemma elem_of_leaves (t : Tree) i :
  arena_ok (nodes t) →
  i ∈ leaf_nodes_idx (set_leaves t) ↔
  ∃ nd, nodes t !! i = Some nd ∧ is_Some (data nd).
Proof.
  intros Ha. simpl. rewrite list_elem_of_fmap. split.
  - intros (nd & -> & [Hd Hin]%list_elem_of_filter).
    apply list_elem_of_lookup in Hin as [j Hj].
    rewrite (Ha j nd Hj). exists nd. split; [done|].
    unfold has_data in Hd. destruct (data nd); [eauto|done].
  - intros (nd & Hnd & [d Hd]). exists nd. split; [by rewrite (Ha i nd Hnd)|].
    apply list_elem_of_filter. split.
    + unfold has_data. by rewrite Hd.
    + by eapply list_elem_of_lookup_2.
Qed.

Lemma leaves_concat (t : Tree) :
  arena_ok (nodes t) →
  concat (ids_at (set_leaves t) <$> leaf_nodes_idx (set_leaves t)) =
  leaf_ids (nodes t).
Proof.
  intros Ha. simpl. rewrite <- leaf_ids_filter, <- list_fmap_compose.
  f_equal. apply list_fmap_ext. intros j nd Hj. simpl.
  apply list_elem_of_lookup_2, list_elem_of_filter in Hj as [_ Hin].
  apply list_elem_of_lookup in Hin as [i Hi].
  unfold ids_at. simpl. by rewrite (Ha i nd Hi), Hi.
Qed.

(** C1. When [fit] completes on a table with unique row ids (and the
    oracle's labels name clusters it chose), the final leaves, which are
    exactly the nodes whose data is still populated, hold pairwise
    disjoint sets of row ids whose union is the set of ids of the table;
    listed leaf by leaf, every id of the table occurs exactly once. *)
Theorem fit_partition fuel mk meth (rs : Rng) (table : Frame) (t : Tree) :
  labels_in_range pamk →
  NoDup table.*1 →
  fit scaler pamk fuel (init mk meth rs) table = Ret t →
  (∀ i, i ∈ leaf_nodes_idx t ↔
        ∃ nd, nodes t !! i = Some nd ∧ is_Some (data nd)) ∧
  concat (ids_at t <$> leaf_nodes_idx t) ≡ₚ table.*1 ∧
  (∀ i j id, i ∈ leaf_nodes_idx t → j ∈ leaf_nodes_idx t → i ≠ j →
             id ∈ ids_at t i → id ∉ ids_at t j) ∧
  (∀ id, id ∈ table.*1 ↔ ∃ i, i ∈ leaf_nodes_idx t ∧ id ∈ ids_at t i).
Proof.
  intros Hor Hnd Hfit.
  apply fit_Ret in Hfit as (st & Hr & _ & ->).
  pose proof (reach_partition _ _ _ _ _ Hor Hnd Hr) as Hperm.
  pose proof (inv_arena _ (reach_inv _ _ _ _ _ Hr)) as Ha.
  pose proof (leaves_concat _ Ha) as Hcat.
  split_and!.
  - intros i. exact (elem_of_leaves (self st) i Ha).
  - by rewrite Hcat.
  - intros i j id Hi Hj Hij Hidi Hidj.
    apply (elem_of_leaves (self st) i Ha) in Hi as (ndi & Hndi & _).
    apply (elem_of_leaves (self st) j Ha) in Hj as (ndj & Hndj & _).
    unfold ids_at in Hidi, Hidj. simpl in Hidi, Hidj.
    rewrite Hndi in Hidi. rewrite Hndj in Hidj.
    eapply (concat_fmap_disjoint node_ids (nodes (self st)) i j); eauto.
    fold (leaf_ids (nodes (self st))). rewrite Hperm. done.
  - intros id. rewrite <- Hperm, <- Hcat.
    rewrite elem_of_concat_fmap. done.
Qed.

(** ** Cluster labels at a level *)

Section Walk.
Variable t : Tree.
Hypothesis Hlevels : ∀ i, i < length (nodes t) →
  is_Some (nodes2levels t !! i).
Hypothesis Hparents : ∀ i nd, nodes t !! i = Some nd →
  match parent_node nd with
  | None => i = 0 ∧ nodes2levels t !! 0 = Some 0
  | Some p => p < i ∧ ∃ lp, nodes2levels t !! p = Some lp ∧
                             nodes2levels t !! i = Some (S lp)
  end.

(** The climb from node [n] ends within [n + 1] passes, at the first
    node of depth at most [L] on the way to the root. *)
Lemma walk_up_spec L n nd :
  nodes t !! n = Some nd →
  ∃ c, (∀ fuel, n < fuel → walk_up fuel t L n nd = Ret c) ∧
       climbs t L n c ∧ ancestor_or_self t c n.
Proof.
  revert nd. induction (lt_wf n) as [n _ IH]. intros nd Hnd.
  destruct (Hlevels n) as [l Hl]; [by eapply lookup_lt_Some|].
  destruct (decide (L < l)) as [HL|HL].
  - pose proof (Hparents n nd Hnd) as Hp.
    destruct (parent_node nd) as [p|] eqn:Hpn.
    + destruct Hp as (Hlt & lp & Hlp & _).
      destruct (lookup_lt_is_Some_2 (nodes t) p) as [nd' Hnd'].
      { apply lookup_lt_Some in Hnd. lia. }
      destruct (IH p Hlt nd' Hnd') as (c & Hw & Hc & Ha).
      exists c. split_and!; [|by eapply climbs_up|by eapply aos_up].
      intros [|fuel] Hfuel; [lia|]. simpl.
      rewrite Hl, bool_decide_true, Hpn, Hnd' by done. apply Hw. lia.
    + destruct Hp as [-> H0]. rewrite H0 in Hl. injection Hl as <-. lia.
  - exists n. split_and!; [| |constructor].
    + intros [|fuel] Hfuel; [lia|]. simpl.
      by rewrite Hl, bool_decide_false.
    + eapply climbs_stop; [done|lia].
Qed.

Lemma get_clusters_loop_spec L leaves :
  (∀ i, i ∈ leaves → ∃ nd, nodes t !! i = Some nd ∧ is_Some (data nd)) →
  ∃ res,
    (∀ fuel acc, length (nodes t) ≤ fuel →
       get_clusters_loop fuel t L leaves acc = Ret (acc ++ res)) ∧
    res.*1 = concat (ids_at t <$> leaves) ∧
    ∀ id c, (id, c) ∈ res →
      ∃ leaf, leaf ∈ leaves ∧ id ∈ ids_at t leaf ∧ climbs t L leaf c ∧
              ancestor_or_self t c leaf.
Proof.
  induction leaves as [|i leaves IH]; intros Hl.
  - exists []. split_and!; [|done|by intros ?? ?%elem_of_nil].
    intros fuel acc _. simpl. by rewrite app_nil_r.
  - destruct (Hl i) as (nd & Hnd & [d Hd]); [by left|].
    destruct (walk_up_spec L i nd Hnd) as (c & Hw & Hc & Ha).
    destruct IH as (res & Hres & Hids & Hin).
    { intros j Hj. apply Hl. by right. }
    exists (((λ r, (r.1, c)) <$> d) ++ res).
    split_and!.
    + intros fuel acc Hfuel. simpl. rewrite Hnd, Hd, Hw.
      2:{ apply lookup_lt_Some in Hnd. lia. }
      simpl. by rewrite Hres, app_assoc.
    + rewrite fmap_app, Hids, <- list_fmap_compose.
      cbn [fmap list_fmap concat]. f_equal.
      unfold ids_at, node_ids. by rewrite Hnd, Hd.
    + intros id c' [Hx|Hx]%elem_of_app.
      * apply list_elem_of_fmap in Hx as ([id' x] & [= -> ->] & Hx).
        exists i. split_and!; [by left| |done..].
        unfold ids_at, node_ids. rewrite Hnd, Hd.
        apply list_elem_of_fmap. by exists (id', x).
      * destruct (Hin id c' Hx) as (leaf & ? & ? & ? & ?).
        exists leaf. split_and!; [by right|done..].
Qed.
End Walk.

(** [max(levels2nodes.keys())] is the largest stored depth. *)
Lemma max_level_spec (st : State) :
  fit_inv st →
  ∃ L, max_level (self st) = Ret L ∧
    (∃ n, nodes2levels (self st) !! n = Some L) ∧
    ∀ n l, nodes2levels (self st) !! n = Some l → l ≤ L.
Proof.
  intros Hinv. unfold max_level.
  set (ks := (map_to_list (levels2nodes (self st))).*1).
  assert (Hks : ∀ l, l ∈ ks ↔ is_Some (levels2nodes (self st) !! l)).
  { intros l. unfold ks. rewrite list_elem_of_fmap. split.
    - intros ([l' ns] & -> & Hin%elem_of_map_to_list). eauto.
    - intros [ns Hns]. exists (l, ns). split; [done|].
      by apply elem_of_map_to_list. }
  assert (Hkey : ∀ n l, nodes2levels (self st) !! n = Some l → l ∈ ks).
  { intros n l Hl. apply Hks. apply (inv_buckets _ Hinv) in Hl as (ns & -> & _).
    eauto. }
  assert (ks ≠ []) as Hne.
  { intros E. pose proof (Hkey 0 0 (root_level _ Hinv)) as Hin.
    rewrite E in Hin. by apply elem_of_nil in Hin. }
  exists (max_list ks). split_and!.
  - by destruct ks.
  - pose proof (max_list_elem_of ks Hne) as [ns Hns]%Hks.
    destruct ns as [|n ns]; [by apply (inv_buckets_ne _ Hinv) in Hns|].
    exists n. apply (inv_buckets _ Hinv). exists (n :: ns).
    split; [done|by left].
  - intros n l Hl. apply max_list_elem_of_le. by eapply Hkey.
Qed.





(** ** The work queue *)

(** What a pass of the loop does to the queue and to the nodes it did
    not pop. *)
Lemma iter_frame (st st' : State) :
  fit_inv st → fit_iter pamk st = Ret st' →
  let a := length (nodes (self st)) in
  ∃ cur rest k,
    incomplete_nodes (self st) = cur :: rest ∧
    incomplete_nodes (self st') = rest ++ seq a k ∧
    length (nodes (self st')) = a + k ∧
    (k = 0 ∨ 1 < k) ∧
    (∀ i, i ≠ cur → i < a → nodes (self st') !! i = nodes (self st) !! i) ∧
    (k = 0 → nodes (self st') = nodes (self st) ∧
             medoids (self st') = medoids (self st)) ∧
    (∀ i l, nodes2levels (self st) !! i = Some l →
            nodes2levels (self st') !! i = Some l).
Proof.
  intros Hinv Hit a. pose proof Hit as Hcase. apply fit_iter_Ret in Hcase.
  destruct Hcase as [cur rest nd dn Hq Hnd Hloc Hdn Hlen Hs
                  |cur rest nd dn cd meds rs Hq Hnd Hloc Hdn Hlen Hp Hm Hs
                  |cur rest nd dn cd meds rs Hq Hnd Hloc Hdn Hlen Hp Hm Hs].
  - exists cur, rest, 0. rewrite Hs. simpl. rewrite app_nil_r.
    split_and!; auto; try (fold a; lia).
  - exists cur, rest, 0. rewrite Hs. simpl. rewrite app_nil_r.
    split_and!; auto; try (fold a; lia).
  - pose proof (inv_nonempty _ Hinv) as Hne.
    destruct (split_shape st st' cur rest nd dn cd meds rs)
      as (km & k & Hsh); try done.
    simpl in Hsh. fold a in Hsh.
    destruct Hsh as (_ & Hk & _ & _ & _ & _ & Hn & Hq' & _ & Hn2l & _).
    exists cur, rest, k. split_and!; try done.
    + rewrite Hn, length_app, length_alter, length_fmap, length_seq. done.
    + by right.
    + intros i Hi Hia. rewrite Hn, lookup_app_l by (by rewrite length_alter).
      by rewrite list_lookup_alter_ne.
    + lia.
    + intros i l Hl. rewrite Hn2l, foldl_insert_lookup, decide_False; [done|].
      rewrite elem_of_seq. intros [? _].
      assert (i < a); [|lia]. apply (inv_levels _ Hinv). eauto.
Qed.

Lemma names_are_indices (ns : list ANode) :
  arena_ok ns → name <$> ns = seq 0 (length ns).
Proof.
  intros Ha. apply list_eq. intros i. rewrite list_lookup_fmap.
  destruct (ns !! i) as [nd|] eqn:E; simpl; symmetry.
  - rewrite (Ha i nd E). apply lookup_seq. split; [done|].
    by eapply lookup_lt_Some.
  - apply lookup_seq_ge. by apply lookup_ge_None.
Qed.

Lemma fit_loop_grows fuel (st st' : State) :
  fit_inv st → fit_loop pamk fuel st = Ret st' →
  length (nodes (self st)) ≤ length (nodes (self st')).
Proof.
  revert st. induction fuel as [|fuel IH]; intros st Hinv; simpl.
  - destruct (incomplete_nodes (self st)); [|done]. by intros [= <-].
  - destruct (incomplete_nodes (self st)) eqn:Hq; [by intros [= <-]|].
    destruct (fit_iter pamk st) as [st1| |] eqn:Hit; simpl; [|done..].
    intros Hl. apply IH in Hl; [|by eapply fit_inv_iter].
    destruct (iter_frame st st1 Hinv Hit) as (? & ? & k & _ & _ & Hlen & _).
    lia.
Qed.

(** Nodes leave the queue in the order of their ids. *)
Lemma dequeued_seq fuel (st st' : State) c :
  fit_inv st →
  c ≤ length (nodes (self st)) →
  incomplete_nodes (self st) = seq c (length (nodes (self st)) - c) →
  fit_loop pamk fuel st = Ret st' →
  dequeued pamk fuel st = seq c (length (nodes (self st')) - c).
Proof.
  revert st c. induction fuel as [|fuel IH]; intros st c Hinv Hc Hq; simpl.
  - destruct (incomplete_nodes (self st)) eqn:E; [|done]. intros [= <-].
    destruct (length (nodes (self st)) - c); [done|]. done.
  - destruct (incomplete_nodes (self st)) as [|cur rest] eqn:E.
    + intros [= <-]. by destruct (length (nodes (self st)) - c).
    + destruct (fit_iter pamk st) as [st1| |] eqn:Hit; simpl; [|done..].
      intros Hl. symmetry in Hq.
      apply queue_head in Hq as (-> & Hlt & Hrest); [|done].
      destruct (iter_frame st st1 Hinv Hit)
        as (cur' & rest' & k & Hq0 & Hq1 & Hlen & _).
      rewrite E in Hq0. injection Hq0 as <- <-.
      pose proof (fit_inv_iter _ _ Hinv Hit) as Hinv1.
      pose proof (fit_loop_grows _ _ _ Hinv1 Hl) as Hgrow.
      rewrite (IH st1 (S c)); try done.
      * destruct (length (nodes (self st')) - c) as [|n] eqn:En; [lia|].
        simpl. do 2 f_equal. lia.
      * lia.
      * rewrite Hq1, Hrest, Hlen.
        replace (length (nodes (self st)) + k - S c)
          with ((length (nodes (self st)) - S c) + k) by lia.
        rewrite seq_app. do 2 f_equal. lia.
Qed.

(** C7. The queue is served first in, first out: every pass pops the
    front id and appends the ids of the children it created, if any, at
    the back.  Hence on a completed run the nodes are dequeued in the
    order of their ids, each once, and a node of smaller depth is always
    dequeued before a node of larger depth. *)
Theorem fit_breadth_first fuel mk meth (rs : Rng) (table : Frame) (t : Tree) :
  fit scaler pamk fuel (init mk meth rs) table = Ret t →
  let start := fit_start scaler (init mk meth rs) table in
  let tr := dequeued pamk fuel start in
  (∀ st st', reach scaler pamk (init mk meth rs) table st →
     fit_iter pamk st = Ret st' →
     ∃ cur rest,
       incomplete_nodes (self st) = cur :: rest ∧
       incomplete_nodes (self st') =
         rest ++ (name <$> drop (length (nodes (self st))) (nodes (self st')))) ∧
  incomplete_nodes (self start) = [0] ∧
  tr = seq 0 (length (nodes t)) ∧
  (∀ i j ni nj li lj,
     tr !! i = Some ni → tr !! j = Some nj →
     nodes2levels t !! ni = Some li → nodes2levels t !! nj = Some lj →
     li < lj → i < j).
Proof.
  intros Hfit start tr.
  assert (Hstep : ∀ st st', reach scaler pamk (init mk meth rs) table st →
     fit_iter pamk st = Ret st' →
     ∃ cur rest,
       incomplete_nodes (self st) = cur :: rest ∧
       incomplete_nodes (self st') =
         rest ++ (name <$> drop (length (nodes (self st))) (nodes (self st')))).
  { intros st st' Hr Hit. pose proof (reach_inv _ _ _ _ _ Hr) as Hinv.
    destruct (iter_frame st st' Hinv Hit)
      as (cur & rest & k & Hq & Hq' & Hlen & _).
    exists cur, rest. split; [done|]. rewrite Hq'. f_equal.
    rewrite fmap_drop, names_are_indices, drop_seq, Hlen.
    - f_equal. lia.
    - apply (fit_inv_iter _ _ Hinv Hit). }
  revert Hfit. unfold fit. fold start.
  destruct (fit_loop pamk fuel start) as [st| |] eqn:Hloop; simpl; [|done..].
  intros [= <-].
  pose proof (fit_inv_start mk meth rs table) as Hinv0. fold start in Hinv0.
  assert (Htr : tr = seq 0 (length (nodes (self st)))).
  { unfold tr. rewrite (dequeued_seq fuel start st 0); try done.
    - f_equal. lia.
    - lia. }
  split_and!; [done..|].
  intros i j ni nj li lj Hi Hj Hli Hlj Hlt. rewrite Htr in Hi, Hj.
  apply lookup_seq in Hi as [-> _]. apply lookup_seq in Hj as [-> _].
  simpl in *.
  destruct (decide (i < j)) as [|Hge]; [done|].
  apply fit_loop_reach with (t0 := init mk meth rs) (table := table) in Hloop
    as [Hr _]; [|constructor].
  pose proof (inv_mono _ (reach_inv _ _ _ _ _ Hr) j i lj li) as Hm.
  simpl in Hli, Hlj. specialize (Hm ltac:(lia) Hlj Hli). lia.
Qed.

(** ** Nodes with too few rows *)

(** A pass over a node of at most two rows only pops it. *)
Lemma fit_iter_few (st : State) cur rest nd dn lv :
  incomplete_nodes (self st) = cur :: rest →
  nodes (self st) !! cur = Some nd →
  (cur = 0 ∧ dn = data_node st ∧ lv = level st ∨
   0 < cur ∧ data nd = Some dn ∧ nodes2levels (self st) !! cur = Some lv) →
  length dn ≤ 2 →
  fit_iter pamk st =
    Ret {| self := pop_front (self st) rest; level := lv; data_node := dn |}.
Proof.
  intros Hq Hnd Hloc Hlen. unfold fit_iter. rewrite Hq. simpl. rewrite Hnd.
  destruct Hloc as [(-> & -> & ->)|(Hc & Hd & Hl)].
  - rewrite bool_decide_false by lia. simpl.
    by rewrite bool_decide_false by lia.
  - rewrite bool_decide_true, Hl by done. simpl. rewrite Hd.
    by rewrite bool_decide_false by lia.
Qed.

(** A node that is not queued is never touched again. *)
Lemma fit_loop_stable fuel (st st' : State) i :
  fit_inv st →
  i < length (nodes (self st)) → i ∉ incomplete_nodes (self st) →
  fit_loop pamk fuel st = Ret st' →
  nodes (self st') !! i = nodes (self st) !! i.
Proof.
  revert st. induction fuel as [|fuel IH]; intros st Hinv Hi Hq; simpl.
  - destruct (incomplete_nodes (self st)); [|done]. by intros [= <-].
  - destruct (incomplete_nodes (self st)) as [|cur rest] eqn:E;
      [by intros [= <-]|].
    destruct (fit_iter pamk st) as [st1| |] eqn:Hit; simpl; [|done..].
    intros Hl.
    destruct (iter_frame st st1 Hinv Hit)
      as (cur' & rest' & k & Hq0 & Hq1 & Hlen & _ & Hsame & _).
    rewrite E in Hq0. injection Hq0 as <- <-.
    rewrite (IH st1); [| |lia|..]; try done.
    + apply Hsame; [|done]. intros ->. apply Hq. by left.
    + by eapply fit_inv_iter.
    + rewrite Hq1. intros [Hin|Hin]%elem_of_app.
      * apply Hq. by right.
      * apply elem_of_seq in Hin. lia.
Qed.

(** C3. A table of at most two rows yields the root alone, a leaf that
    keeps its data, whatever the oracle would answer.  More generally a
    pass that pops a node of at most two rows returns the builder with
    that id removed from the queue and nothing else changed (no call to
    the oracle, no child, nothing enqueued), and the node is as it was
    in the tree that [fit] returns: a leaf holding its rows. *)
Theorem few_rows_leaf :
  (∀ fuel mk meth (rs : Rng) (table : Frame),
     length table ≤ 2 →
     fit scaler pamk (S fuel) (init mk meth rs) table =
       Ret {| nodes := [new_node 0 None
                          (Some ((λ r, (r.1, scaler table.*2 r.2)) <$> table))];
              incomplete_nodes := []; medoids := [];
              levels2nodes := append_level 0 0 ∅;
              nodes2levels := <[0 := 0]> ∅; max_k := mk;
              leaf_nodes_idx := [0]; method := meth; random_state := rs |}) ∧
  (∀ (st : State) cur rest nd dn lv,
     incomplete_nodes (self st) = cur :: rest →
     nodes (self st) !! cur = Some nd →
     (cur = 0 ∧ dn = data_node st ∧ lv = level st ∨
      0 < cur ∧ data nd = Some dn ∧ nodes2levels (self st) !! cur = Some lv) →
     length dn ≤ 2 →
     fit_iter pamk st =
       Ret {| self := pop_front (self st) rest; level := lv;
              data_node := dn |}) ∧
  (∀ mk meth (rs : Rng) (table : Frame) (st st' : State) cur rest nd dn lv fuel,
     reach scaler pamk (init mk meth rs) table st →
     incomplete_nodes (self st) = cur :: rest →
     nodes (self st) !! cur = Some nd →
     (cur = 0 ∧ dn = data_node st ∧ lv = level st ∨
      0 < cur ∧ data nd = Some dn ∧ nodes2levels (self st) !! cur = Some lv) →
     length dn ≤ 2 →
     fit_loop pamk fuel st = Ret st' →
     nodes (self st') !! cur = Some nd ∧ data nd = Some dn ∧
     children_nodes nd = [] ∧ cur ∈ leaf_nodes_idx (set_leaves (self st'))).
Proof.
  split_and!.
  - intros fuel mk meth rs table Hlen. unfold fit. simpl.
    erewrite fit_iter_few;
      [|reflexivity|reflexivity|left; split_and!; reflexivity
       |simpl; rewrite length_fmap; lia].
    simpl. by destruct fuel.
  - apply fit_iter_few.
  - intros mk meth rs table st st' cur rest nd dn lv fuel Hr Hq Hnd Hloc Hlen
      Hloop.
    pose proof (reach_inv _ _ _ _ _ Hr) as Hinv.
    pose proof (fit_iter_few st cur rest nd dn lv Hq Hnd Hloc Hlen) as Hit.
    destruct fuel as [|fuel]; simpl in Hloop; rewrite Hq in Hloop; [done|].
    rewrite Hit in Hloop. simpl in Hloop.
    pose proof (fit_inv_iter _ _ Hinv Hit) as Hinv1.
    assert (Hnin : cur ∉ rest).
    { destruct (inv_queue _ Hinv) as (c & Hc & Hseq). rewrite Hq in Hseq.
      symmetry in Hseq. apply queue_head in Hseq as (-> & _ & ->); [|done].
      rewrite elem_of_seq. lia. }
    pose proof (fit_loop_stable fuel _ st' cur Hinv1) as Hst. simpl in Hst.
    rewrite Hst; [| by eapply lookup_lt_Some |done..].
    destruct (inv_queued _ Hinv cur nd) as [[d Hd] Hch];
      [rewrite Hq; by left|done|].
    assert (data nd = Some dn) as Hdn.
    { destruct Hloc as [(-> & -> & _)|(_ & ? & _)]; [|done].
      destruct (inv_root _ Hinv) as (nd' & Hnd' & ? & _);
        [rewrite Hq; by left|].
      congruence. }
    split_and!; try done.
    pose proof Hloop as Hr'.
    apply fit_loop_reach with (t0 := init mk meth rs) (table := table)
      in Hr' as [Hr' _]; [|by eapply reach_iter].
    apply elem_of_leaves; [apply (reach_inv _ _ _ _ _ Hr')|].
    exists nd. split; [|eauto].
    rewrite Hst; [done|by eapply lookup_lt_Some|done..].
Qed.

(** ** The ids of the medoid table *)

(** C8, as amended.  A pass that accepts a split into [k > 1] clusters adds
    to the medoid table the cluster ids [a .. a + k - 1], where [a] is the
    number of nodes of the tree when the split is computed; these are the
    ids of the [k] children it appends.  All the cluster ids of the
    medoid table are distinct: they are [1 .. size - 1]. *)
Theorem medoid_ids_allocated mk meth (rs : Rng) (table : Frame)
    (st st' : State) :
  reach scaler pamk (init mk meth rs) table st →
  fit_iter pamk st = Ret st' →
  let a := length (nodes (self st)) in
  (∃ meds, medoids (self st') = medoids (self st) ++ meds ∧
     new_medoid_ids st st' = meds.*1 ∧
     (meds = [] ∧ nodes (self st') = nodes (self st) ∨
      1 < length meds ∧ meds.*1 = seq a (length meds) ∧
      name <$> drop a (nodes (self st')) = meds.*1)) ∧
  (medoids (self st')).*1 = seq 1 (length (nodes (self st')) - 1) ∧
  NoDup (medoids (self st')).*1.
Proof.
  intros Hr Hit a. pose proof (reach_inv _ _ _ _ _ Hr) as Hinv.
  pose proof (fit_inv_iter _ _ Hinv Hit) as Hinv'.
  assert (Hnew : ∀ meds, medoids (self st') = medoids (self st) ++ meds →
                         new_medoid_ids st st' = meds.*1).
  { intros meds E. unfold new_medoid_ids.
    rewrite E, fmap_app, drop_app_length'; [done|by rewrite length_fmap]. }
  split_and!.
  - apply fit_iter_Ret in Hit.
    destruct Hit as [cur rest nd dn Hq Hnd Hloc Hdn Hlen Hs
                    |cur rest nd dn cd meds rs' Hq Hnd Hloc Hdn Hlen Hp Hm Hs
                    |cur rest nd dn cd meds rs' Hq Hnd Hloc Hdn Hlen Hp Hm Hs].
    + assert (medoids (self st') = medoids (self st) ++ []) as Hm'
        by (rewrite Hs; simpl; by rewrite app_nil_r).
      exists []. split_and!; [done|by apply Hnew|]. left. by rewrite Hs.
    + assert (medoids (self st') = medoids (self st) ++ []) as Hm'
        by (rewrite Hs; simpl; by rewrite app_nil_r).
      exists []. split_and!; [done|by apply Hnew|]. left. by rewrite Hs.
    + destruct (split_shape st st' cur rest nd dn cd meds rs')
        as (km & k & Hsh); try done; [apply Hinv|].
      simpl in Hsh. fold a in Hsh.
      destruct Hsh as (_ & Hk & Hlm & Hids & _ & _ & Hn & _ & Hmed & _).
      exists meds. split_and!; [done|by apply Hnew|]. right.
      rewrite Hlm. split_and!; [done..|].
      rewrite fmap_drop, (names_are_indices _ (inv_arena _ Hinv')), drop_seq.
      rewrite Hids. f_equal.
      rewrite Hn, length_app, length_alter, length_fmap, length_seq. lia.
  - apply Hinv'.
  - rewrite (inv_medoids _ Hinv'). apply NoDup_seq.
Qed.

End Facts.

(** ** The theorems at the instance [Demo] *)

Lemma demo_labels_in_range : labels_in_range Demo.pamk.
Proof.
  intros X krange meth calls. unfold Demo.pamk.
  destruct (_ || _); cbn [fst snd labels_]; apply Forall_fmap, Forall_forall;
    intros x _; cbn [compose]; [lia|].
  apply Nat.mod_upper_bound. lia.
Qed.

Lemma demo_table_nodup : NoDup Demo.table.*1.
Proof. apply (bool_decide_unpack _). by vm_compute. Qed.

Lemma demo_fit :
  fit Demo.scaler Demo.pamk 20 (init 10 "pam" 0) Demo.table = Ret Demo.tree.
Proof. vm_compute. reflexivity. Qed.

Lemma demo_first_pass : fit_iter Demo.pamk Demo.start = Ret Demo.after_first.
Proof. vm_compute. reflexivity. Qed.

Lemma fit_partition_witness :
  labels_in_range Demo.pamk ∧ NoDup Demo.table.*1 ∧
  fit Demo.scaler Demo.pamk 20 (init 10 "pam" 0) Demo.table = Ret Demo.tree ∧
  concat (ids_at Demo.tree <$> leaf_nodes_idx Demo.tree) ≡ₚ Demo.table.*1.
Proof.
  split_and!;
    [exact demo_labels_in_range|exact demo_table_nodup|exact demo_fit|].
  exact (proj1 (proj2 (fit_partition Demo.scaler Demo.pamk 20 10 "pam" 0
                         Demo.table Demo.tree demo_labels_in_range
                         demo_table_nodup demo_fit))).
Defined.


Lemma few_rows_leaf_witness :
  length Demo.small ≤ 2 ∧
  ∃ t, fit Demo.scaler Demo.pamk 1 (init 10 "pam" 0) Demo.small = Ret t ∧
       leaf_nodes_idx t = [0] ∧ length (nodes t) = 1.
Proof.
  assert (length Demo.small ≤ 2) as Hlen by (simpl; lia).
  split; [exact Hlen|]. eexists. split_and!.
  - exact (proj1 (few_rows_leaf Demo.scaler Demo.pamk) 0 10 "pam" 0
             Demo.small Hlen).
  - reflexivity.
  - reflexivity.
Defined.

Lemma fit_breadth_first_witness :
  fit Demo.scaler Demo.pamk 20 (init 10 "pam" 0) Demo.table = Ret Demo.tree ∧
  dequeued Demo.pamk 20 Demo.start = seq 0 (length (nodes Demo.tree)).
Proof.
  split; [exact demo_fit|].
  exact (proj1 (proj2 (proj2 (fit_breadth_first Demo.scaler Demo.pamk 20 10
                                "pam" 0 Demo.table Demo.tree demo_fit)))).
Defined.

Lemma medoid_ids_allocated_witness :
  reach Demo.scaler Demo.pamk (init 10 "pam" 0) Demo.table Demo.start ∧
  fit_iter Demo.pamk Demo.start = Ret Demo.after_first ∧
  (medoids (self Demo.after_first)).*1 =
    seq 1 (length (nodes (self Demo.after_first)) - 1).
Proof.
  assert (reach Demo.scaler Demo.pamk (init 10 "pam" 0) Demo.table Demo.start)
    as Hr by constructor.
  split_and!; [exact Hr|exact demo_first_pass|].
  exact (proj1 (proj2 (medoid_ids_allocated Demo.scaler Demo.pamk 10 "pam" 0
                         Demo.table Demo.start Demo.after_first Hr
                         demo_first_pass))).
Defined.

(** C8 as stated fails: the first split of the instance is computed when
    the tree has one node, and the ids it records are [1; 2], not
    [2; 3]. *)
Lemma medoid_ids_counterexample :
  fit_iter Demo.pamk Demo.start = Ret Demo.after_first ∧
  length (nodes (self Demo.start)) = 1 ∧
  new_medoid_ids Demo.start Demo.after_first = [1; 2] ∧
  new_medoid_ids Demo.start Demo.after_first ≠
    seq (length (nodes (self Demo.start)) + 1)
        (length (new_medoid_ids Demo.start Demo.after_first)).
Proof.
  split_and!; [exact demo_first_pass|reflexivity|by vm_compute|].
  by vm_compute.
Qed.

Lemma arena_names_witness :
  fit_point Demo.scaler Demo.pamk (init 10 "pam" 0) Demo.table Demo.tree ∧
  arena_ok (nodes Demo.tree).
Proof.
  assert (fit_point Demo.scaler Demo.pamk (init 10 "pam" 0) Demo.table
            Demo.tree) as Hp by (eapply point_return; exact demo_fit).
  split; [exact Hp|].
  exact (proj1 (arena_names Demo.scaler Demo.pamk 10 "pam" 0 Demo.table
                  Demo.tree Hp)).
Defined.


End TreeFacts.


(** * Properties of exact arithmetic on real vectors *)

Module ExactFacts.
Import Exact.

Local Open Scope R_scope.

Lemma sum_list_cons x (v : list R) : sum_list (x :: v) = x + sum_list v.
Proof. reflexivity. Qed.

Lemma sum_sq_nonneg (c : list R) : 0 <= sum_list ((λ x, x * x) <$> c).
Proof.
  induction c as [|x c IH]; [simpl; lra|].
  rewrite fmap_cons, sum_list_cons.
  pose proof (Rle_0_sqr x) as Hx. unfold Rsqr in Hx. lra.
Qed.

Lemma norm_nonneg (c : list R) : 0 <= norm c.
Proof. apply sqrt_pos. Qed.

Lemma sum_sq_zero (c : list R) :
  sum_list ((λ x, x * x) <$> c) = 0 → Forall (λ x, x = 0) c.
Proof.
  induction c as [|x c IH]; [by constructor|].
  rewrite fmap_cons, sum_list_cons. intros Hs.
  pose proof (sum_sq_nonneg c). pose proof (Rle_0_sqr x) as Hx.
  unfold Rsqr in Hx. constructor; [nra|]. apply IH. lra.
Qed.

(** A vector of norm zero is the zero vector. *)
Lemma norm_zero (c : list R) : norm c = 0 → Forall (λ x, x = 0) c.
Proof.
  intros Hn. apply sum_sq_zero. unfold norm in Hn.
  by apply sqrt_eq_0; [apply sum_sq_nonneg|].
Qed.

Lemma sum_sq_scale k (c : list R) :
  sum_list ((λ x, x * x) <$> ((λ x, x * k) <$> c)) =
  k * k * sum_list ((λ x, x * x) <$> c).
Proof.
  induction c as [|x c IH]; [simpl; lra|].
  rewrite !fmap_cons, !sum_list_cons, IH. ring.
Qed.

Lemma norm_scale k (c : list R) :
  norm ((λ x, x * k) <$> c) = Rabs k * norm c.
Proof.
  unfold norm. rewrite sum_sq_scale, sqrt_mult; [|nra|apply sum_sq_nonneg].
  f_equal. apply sqrt_Rsqr_abs.
Qed.

Lemma np_sign_flip h : h ≠ 0 → -1 * h * np_sign h <= 0 ∧ Rabs (- np_sign h) = 1.
Proof.
  intros Hh. unfold np_sign.
  destruct (Rlt_dec 0 h); [|destruct (Rlt_dec h 0)].
  - split; [lra|]. rewrite Rabs_Ropp, Rabs_R1. done.
  - split; [lra|]. replace (- -1) with 1 by lra. apply Rabs_R1.
  - lra.
Qed.

(** A column that is not zero is scaled to norm [b] and turned so that
    its first entry is not positive. *)
Lemma normalize_vector_spec b (c : list R) :
  0 <= b → norm c ≠ 0 →
  norm (normalize_vector b c) = b ∧ hd 0 (normalize_vector b c) <= 0 ∧
  length (normalize_vector b c) = length c.
Proof.
  intros Hb Hc. unfold normalize_vector.
  set (c1 := (λ x, x / norm c * b) <$> c).
  assert (Hn1 : norm c1 = b).
  { unfold c1.
    rewrite (list_fmap_ext _ (λ x, x * (/ norm c * b)) c)
      by (intros; simpl; unfold Rdiv; ring).
    rewrite norm_scale. pose proof (norm_nonneg c).
    rewrite Rabs_right.
    - field. done.
    - apply Rle_ge. apply Rmult_le_pos; [|done].
      left. apply Rinv_0_lt_compat. lra. }
  destruct (Req_dec_T (hd 0 c1) 0) as [Hh|Hh].
  - split_and!; [done|lra|]. unfold c1. by rewrite length_fmap.
  - destruct (np_sign_flip _ Hh) as [Hle Habs]. split_and!.
    + rewrite (list_fmap_ext _ (λ x, x * (- np_sign (hd 0 c1))) c1)
        by (intros; simpl; ring).
      by rewrite norm_scale, Habs, Rmult_1_l.
    + destruct c1 as [|h c1']; simpl in *; [lra|done].
    + unfold c1. by rewrite !length_fmap.
Qed.

(** The pass multiplies the column by one factor, which is not zero. *)
Lemma normalize_vector_multiple b (c : list R) :
  0 < b → norm c ≠ 0 →
  ∃ k, k ≠ 0 ∧ normalize_vector b c = (λ x, k * x) <$> c.
Proof.
  intros Hb Hc. unfold normalize_vector.
  set (c1 := (λ x, x / norm c * b) <$> c).
  pose proof (norm_nonneg c) as Hn.
  assert (/ norm c * b ≠ 0) as Hk.
  { apply Rmult_integral_contrapositive_currified; [|lra].
    by apply Rinv_neq_0_compat. }
  destruct (Req_dec_T (hd 0 c1) 0) as [Hh|Hh].
  - exists (/ norm c * b). split; [done|]. unfold c1.
    apply list_fmap_ext. intros _ x _. simpl. unfold Rdiv. ring.
  - exists (- np_sign (hd 0 c1) * (/ norm c * b)). split.
    + apply Rmult_integral_contrapositive_currified; [|done].
      unfold np_sign.
      destruct (Rlt_dec 0 (hd 0 c1)); [lra|].
      destruct (Rlt_dec (hd 0 c1) 0); lra.
    + unfold c1. rewrite <- list_fmap_compose.
      apply list_fmap_ext. intros _ x _. simpl. unfold Rdiv. ring.
Qed.

Lemma norm_singleton x : norm [x] = Rabs x.
Proof.
  unfold norm. simpl. rewrite Rplus_0_r. apply sqrt_Rsqr_abs.
Qed.

End ExactFacts.


(** * Properties of the discretizer and of the driver *)

Module SpectralFacts.
Import Spectral.

Local Open Scope R_scope.

Section Floats.

Context `{Rounding}.

Lemma Rltb_true x y : x < y → Rltb x y = true.
Proof. intros Hlt. unfold Rltb. by destruct (Rlt_dec x y). Qed.

Lemma Rltb_false x y : ¬ x < y → Rltb x y = false.
Proof. intros Hlt. unfold Rltb. by destruct (Rlt_dec x y). Qed.

Lemma fadd_comm a b : fadd a b = fadd b a.
Proof. destruct a, b; simpl; try done. by rewrite Rplus_comm. Qed.

Lemma signed_inf_pos x : 0 < x → signed_inf x = PInf.
Proof. intros Hx. unfold signed_inf. by destruct (Rlt_dec 0 x). Qed.

Lemma signed_inf_neg x : x < 0 → signed_inf x = NInf.
Proof.
  intros Hx. unfold signed_inf. destruct (Rlt_dec 0 x); [lra|].
  by destruct (Rlt_dec x 0).
Qed.

Lemma signed_inf_zero : signed_inf 0 = NaN.
Proof.
  unfold signed_inf. destruct (Rlt_dec 0 0); [lra|].
  destruct (Rlt_dec 0 0); [lra|done].
Qed.

Lemma fmul_nan_l a : fmul NaN a = NaN.
Proof. by destruct a. Qed.

Lemma fmul_nan_r a : fmul a NaN = NaN.
Proof. by destruct a. Qed.

Lemma fdiv_zero_zero : fdiv (Fin 0) (Fin 0) = NaN.
Proof.
  simpl. destruct (Req_dec_T 0 0); [|done]. unfold signed_inf.
  destruct (Rlt_dec 0 0); [lra|done].
Qed.

Lemma is_zero_true a : is_zero a = true ↔ a = Fin 0.
Proof.
  destruct a as [x| | |]; simpl; try (split; done).
  destruct (Req_dec_T x 0) as [->|Hx]; [done|].
  split; [done|]. intros [= ?]. done.
Qed.

Section Exactness.

Hypothesis Hexact : exact_arithmetic.

Lemma fadd_fin x y : fadd (Fin x) (Fin y) = Fin (x + y).
Proof. apply Hexact. Qed.

Lemma fmul_fin x y : fmul (Fin x) (Fin y) = Fin (x * y).
Proof. apply Hexact. Qed.

Lemma fdiv_fin x y : y ≠ 0 → fdiv (Fin x) (Fin y) = Fin (x / y).
Proof. intros Hy. simpl. destruct (Req_dec_T y 0); [done|apply Hexact]. Qed.

Lemma fsqrt_fin x : 0 <= x → fsqrt (Fin x) = Fin (sqrt x).
Proof. intros Hx. simpl. destruct (Rlt_dec x 0); [lra|apply Hexact]. Qed.

Lemma of_nat_fin n : of_nat n = Fin (INR n).
Proof. apply Hexact. Qed.

Lemma sum_list_fin (v : list R) :
  sum_list (Fin <$> v) = Fin (Exact.sum_list v).
Proof.
  induction v as [|x v IH]; [done|].
  rewrite fmap_cons. cbn [sum_list foldr]. fold (sum_list (Fin <$> v)).
  by rewrite IH, fadd_fin.
Qed.

Lemma squares_fin (v : list R) :
  (λ x, fmul x x) <$> (Fin <$> v) = Fin <$> ((λ x, x * x) <$> v).
Proof.
  rewrite <- !list_fmap_compose. apply list_fmap_ext.
  intros _ x _. simpl. apply Hexact.
Qed.

Lemma norm_fin (v : list R) : norm (Fin <$> v) = Fin (Exact.norm v).
Proof.
  unfold norm, Exact.norm. rewrite squares_fin, sum_list_fin.
  apply fsqrt_fin, ExactFacts.sum_sq_nonneg.
Qed.

End Exactness.

End Floats.

Section Restarts.

Context `{Rounding} {Rng : Type}.
Variable randint : Rng → nat → nat * Rng.

(** When every SVD fails, a pass of the inner loop breaks out with the
    counter of restarts unchanged. *)
Lemma inner_loop_svd_fails n_iter_max fuel vectors n d rot last n_iter r :
  inner_loop (λ _, None) n_iter_max (S fuel) vectors n d rot last n_iter r
  = Broke r.
Proof. reflexivity. Qed.

Lemma outer_loop_svd_fails max n_iter_max fuel vectors n d r (rs : Rng) :
  (r < max)%nat →
  outer_loop randint (λ _, None) max n_iter_max fuel vectors (S n) (S d) r rs
  = OutOfFuel.
Proof.
  intros Hr. revert rs. induction fuel as [|fuel IH]; intros rs; [done|].
  simpl. rewrite (proj2 (Nat.ltb_lt r max) Hr).
  destruct (randint rs (S n)) as [k rs']. destruct fuel as [|fuel]; [done|].
  rewrite inner_loop_svd_fails. apply IH.
Qed.

(** C4 (what the code does where the claim fails).  With the default
    [max_svd_restarts = 30], on an input whose SVD fails at every call,
    [discretize] neither raises the convergence error nor returns,
    whatever the number of passes allowed: the counter [svd_restarts]
    only counts the SVDs that succeed, so the restarts are not bounded.
    This is so for every embedding with at least one sample and one
    component; without samples the first pass ends in the error that
    [randint(0)] raises, and without components in the IndexError of
    the assignment to the empty rotation. *)
Theorem discretize_svd_failures_unbounded n_iter_max fuel vectors (rs : Rng) :
  discretize randint (λ _, None) 30 n_iter_max fuel vectors rs =
  match fuel, shape vectors with
  | O, _ => OutOfFuel
  | S _, (O, _) => Raise (LibraryError "ValueError: high <= 0")
  | S _, (S _, O) => Raise IndexError
  | S _, (S _, S _) => OutOfFuel
  end.
Proof.
  unfold discretize. destruct (shape vectors) as [n d].
  destruct fuel as [|fuel]; [done|].
  destruct n as [|n]; [done|]. destruct d as [|d].
  - simpl. by destruct (randint rs (S n)).
  - apply outer_loop_svd_fails. lia.
Qed.

End Restarts.

Section Argmax.










End Argmax.

Section Passes.

Context `{Rounding} {Rng : Type}.
Variable randint : Rng → nat → nat * Rng.
Variable svd : Matrix → option (Matrix * Vector * Matrix).
Variable max_svd_restarts n_iter_max : nat.

Lemma length_mat_mul d A B : length (mat_mul d A B) = length A.
Proof. unfold mat_mul. by rewrite length_fmap. Qed.

Lemma mat_mul_rows d A B : Forall (λ r, length r = d) (mat_mul d A B).
Proof.
  unfold mat_mul. apply Forall_fmap, Forall_forall. intros r _. simpl.
  by rewrite length_fmap, length_seq.
Qed.




(** With an SVD that never fails, the inner loop converges at the latest
    in the pass numbered [n_iter_max + 1]. *)
Lemma inner_loop_cap fuel vectors n d rotation last n_iter r :
  (∀ M, is_Some (svd M)) →
  (n_iter_max - n_iter < fuel)%nat →
  ∃ labels r', inner_loop svd n_iter_max fuel vectors n d rotation last
                 n_iter r = Converged labels r'.
Proof.
  intros Hsvd. revert rotation last n_iter r.
  induction fuel as [|fuel IH]; intros rotation last n_iter r Hfuel; [lia|].
  simpl. destruct (Hsvd (t_svd d vectors rotation)) as [[[U s] Vh] ->].
  destruct (flt _ _ || _) eqn:Hc; [eauto|].
  apply orb_false_iff in Hc as [_ Hc%Nat.ltb_ge].
  apply IH. lia.
Qed.



End Passes.

Section Driver.

Context `{Rounding} {Seed Rng : Type}.
Variable check_random_state : Seed → lib Rng.
Variable spectral_embedding :
  Matrix → nat → option string → Rng → R → lib Matrix.
Variable KMedoids_fit : Matrix → nat → Rng → lib (list nat * list nat * R).
Variable k_means : Matrix → nat → Rng → nat → bool → lib (Matrix * list nat * R).
Variable randint : Rng → nat → nat * Rng.
Variable svd : Matrix → option (Matrix * Vector * Matrix).

(** [discretize] raises no ValueError of its own. *)
Lemma outer_loop_no_value_error max n_iter_max fuel vectors n d r (rs : Rng) msg :
  outer_loop randint svd max n_iter_max fuel vectors n d r rs
  ≠ Raise (ValueError msg).
Proof.
  revert r rs. induction fuel as [|fuel IH]; intros r rs; [done|]. simpl.
  destruct (r <? max)%nat; [|done].
  destruct (n =? 0)%nat; [done|].
  destruct (randint rs n) as [k rs'].
  destruct (d =? 0)%nat; [done|].
  destruct (inner_loop _ _ _ _ _ _ _ _ _ _); [done|apply IH|done].
Qed.

Lemma discretize_no_value_error max n_iter_max fuel vectors (rs : Rng) msg :
  discretize randint svd max n_iter_max fuel vectors rs
  ≠ Raise (ValueError msg).
Proof.
  unfold discretize. destruct (shape vectors).
  apply outer_loop_no_value_error.
Qed.

Lemma never_bind {A B} (m : IO A) (k : A → IO B) :
  never_value_error m → (∀ a, never_value_error (k a)) →
  never_value_error (io_bind m k).
Proof.
  intros Hm Hk log msg. unfold io_bind. specialize (Hm log msg).
  destruct (m log) as [[a|e|] log']; simpl in *; [apply Hk| |done].
  intros [= ->]. by apply Hm.
Qed.

Lemma never_call {A} ev (answer : lib A) : never_value_error (call ev answer).
Proof. intros log msg. unfold call. by destruct answer. Qed.

Lemma never_ret {A} (a : A) : never_value_error (io_ret a).
Proof. by intros log msg. Qed.

(** C9. With an [assign_labels] outside the accepted values,
    [spectral_clustering_mod] raises its ValueError before any library
    call: the log of calls is still empty, so neither the random state
    was checked nor the embedding computed.  With an accepted value it
    raises no ValueError at all. *)
Theorem invalid_assign_labels fuel affinity n_clusters n_components
    eigen_solver (random_state : Seed) n_init eigen_tol assign_labels verbose :
  let outcome :=
    spectral_clustering_mod check_random_state spectral_embedding
      KMedoids_fit k_means randint svd fuel affinity n_clusters n_components
      eigen_solver random_state n_init eigen_tol assign_labels verbose [] in
  (assign_labels ∉ accepted_labels →
     outcome = (Raise (ValueError (assign_labels_message assign_labels)), [])) ∧
  (assign_labels ∈ accepted_labels →
     ∀ msg, outcome.1 ≠ Raise (ValueError msg)).
Proof.
  intros outcome. unfold outcome, spectral_clustering_mod. split.
  - intros Hbad. by rewrite bool_decide_true.
  - intros Hok msg. rewrite bool_decide_false by (by intros ?).
    revert msg. generalize (@nil event).
    apply never_bind; [apply never_call|]. intros rs.
    apply never_bind; [apply never_call|]. intros maps.
    apply never_bind.
    { destruct verbose; [apply never_call|apply never_ret]. }
    intros _. repeat case_bool_decide.
    + apply never_bind; [apply never_call|].
      intros [[? ?] ?]. apply never_ret.
    + apply never_bind; [apply never_call|].
      intros [[? ?] ?]. apply never_ret.
    + apply never_bind; [|intros ?; apply never_ret].
      intros log msg. apply discretize_no_value_error.
Qed.

End Driver.

Section Columns.

Context `{Rounding}.

Lemma nth_insert_eq (r : Vector) i x :
  (i < length r)%nat → nth i (<[i := x]> r) (Fin 0) = x.
Proof. intros Hi. by rewrite nth_lookup, list_lookup_insert_eq. Qed.

Lemma nth_insert_ne (r : Vector) i j x :
  i ≠ j → nth j (<[i := x]> r) (Fin 0) = nth j r (Fin 0).
Proof. intros Hi. by rewrite !nth_lookup, list_lookup_insert_ne. Qed.

Lemma length_column (M : Matrix) i : length (column M i) = length M.
Proof. unfold column. by rewrite length_fmap. Qed.

Lemma length_set_column (M : Matrix) i v :
  length v = length M → length (set_column M i v) = length M.
Proof. intros Hv. unfold set_column. rewrite length_zip_with. lia. Qed.

Lemma column_set_column_eq (M : Matrix) i v :
  length v = length M → Forall (λ r, (i < length r)%nat) M →
  column (set_column M i v) i = v.
Proof.
  revert v. induction M as [|r M IH]; intros [|x v] Hv Hr; try done.
  apply Forall_cons in Hr as [Hi Hr]. unfold column, set_column in *.
  simpl. rewrite nth_insert_eq by done. f_equal. apply IH; [|done].
  simpl in Hv. lia.
Qed.

Lemma column_set_column_ne (M : Matrix) i j v :
  i ≠ j → length v = length M →
  column (set_column M i v) j = column M j.
Proof.
  intros Hij. revert v. induction M as [|r M IH]; intros [|x v] Hv; try done.
  unfold column, set_column in *. simpl.
  rewrite nth_insert_ne by done. f_equal. apply IH. simpl in Hv. lia.
Qed.

Lemma rect_set_column d (M : Matrix) i v :
  Forall (λ r, length r = d) M → Forall (λ r, length r = d) (set_column M i v).
Proof.
  revert v. induction M as [|r M IH]; intros [|x v] Hr; try constructor.
  - apply Forall_cons in Hr as [Hr _]. by rewrite length_insert.
  - apply Forall_cons in Hr as [_ Hr]. by apply IH.
Qed.

Lemma set_column_twice (M : Matrix) i v w :
  length v = length M → length w = length M →
  set_column (set_column M i v) i w = set_column M i w.
Proof.
  revert v w. induction M as [|r M IH]; intros [|x v] [|y w] Hv Hw; try done.
  unfold set_column in *. simpl. rewrite list_insert_insert_eq. f_equal.
  apply IH; simpl in *; lia.
Qed.

Lemma entry_first (M : Matrix) i : entry M 0 i = hd (Fin 0) (column M i).
Proof. destruct M as [|r M]; [by destruct i|done]. Qed.

Lemma entry_column (M : Matrix) r i :
  entry M r i = nth r (column M i) (Fin 0).
Proof.
  unfold entry, column. rewrite (nth_lookup (_ <$> _)), list_lookup_fmap.
  rewrite (nth_lookup M). destruct (M !! r); simpl; [done|]. by destruct i.
Qed.

Lemma length_normalize_vector b (c : Vector) :
  length (normalize_vector b c) = length c.
Proof.
  unfold normalize_vector. destruct (is_zero _); by rewrite ?length_fmap.
Qed.

(** A pass of the loop only rewrites column [i], with
    [normalize_vector]. *)
Lemma normalize_column_eq b (M : Matrix) i :
  Forall (λ r, (i < length r)%nat) M →
  normalize_column b M i =
  set_column M i (normalize_vector b (column M i)).
Proof.
  intros Hr. unfold normalize_column, normalize_vector.
  set (c1 := (λ x, fmul (fdiv x (norm (column M i))) b) <$> column M i).
  assert (length c1 = length M) as Hc1
    by (unfold c1; by rewrite length_fmap, length_column).
  rewrite entry_first, column_set_column_eq by done.
  destruct (is_zero (hd (Fin 0) c1)); [done|].
  by rewrite set_column_twice by (by rewrite ?length_fmap).
Qed.

Lemma normalize_columns_fold b d (V : Matrix) j :
  Forall (λ r, length r = d) V → (j <= d)%nat →
  let M := foldl (normalize_column b) V (seq 0 j) in
  length M = length V ∧ Forall (λ r, length r = d) M ∧
  (∀ i, (i < j)%nat → column M i = normalize_vector b (column V i)) ∧
  (∀ i, (j <= i)%nat → column M i = column V i).
Proof.
  intros Hrect. induction j as [|j IH]; intros Hj; cbv zeta.
  - simpl. split_and!; [done..|lia|done].
  - destruct IH as (Hlen & Hr & Hlt & Hge); [lia|].
    rewrite seq_S, foldl_app. cbn [foldl Nat.add].
    set (M := foldl (normalize_column b) V (seq 0 j)) in *.
    rewrite normalize_column_eq
      by (eapply Forall_impl; [exact Hr|]; simpl; intros; lia).
    rewrite (Hge j) by done.
    assert (length (normalize_vector b (column V j)) = length M) as Hl
      by (by rewrite length_normalize_vector, length_column).
    split_and!.
    + by rewrite length_set_column.
    + by apply rect_set_column.
    + intros i Hi. destruct (decide (i = j)) as [->|Hne].
      * apply column_set_column_eq; [done|].
        eapply Forall_impl; [exact Hr|]. simpl. intros. lia.
      * rewrite column_set_column_ne by done. apply Hlt. lia.
    + intros i Hi. rewrite column_set_column_ne by (done || lia).
      apply Hge. lia.
Qed.

(** The matrix after the loop over the columns, column by column. *)
Lemma normalize_columns_columns (V : Matrix) n d :
  length V = n → (0 < n)%nat → Forall (λ r, length r = d) V →
  length (normalize_columns V) = n ∧
  Forall (λ r, length r = d) (normalize_columns V) ∧
  ∀ i, (i < d)%nat →
    column (normalize_columns V) i
    = normalize_vector (fsqrt (of_nat n)) (column V i).
Proof.
  intros Hn Hpos Hrect. unfold normalize_columns, shape.
  assert (length (row V 0) = d) as ->.
  { destruct V as [|r V]; [simpl in Hn; lia|].
    by apply Forall_cons in Hrect as [? _]. }
  rewrite Hn. cbn [fst snd].
  destruct (normalize_columns_fold (fsqrt (of_nat n)) d V d Hrect (le_n d))
    as (Hlen & Hr & Hcol & _).
  split_and!; [congruence|done|done].
Qed.

Lemma row_normalize_rows (M : Matrix) r :
  row (normalize_rows M) r = (λ x, fdiv x (norm (row M r))) <$> row M r.
Proof.
  unfold row, normalize_rows. rewrite !nth_lookup, list_lookup_fmap.
  by destruct (M !! r) as [v|].
Qed.

Lemma entry_normalize_rows (M : Matrix) r i :
  (i < length (row M r))%nat →
  entry (normalize_rows M) r i = fdiv (entry M r i) (norm (row M r)).
Proof.
  intros Hi. unfold entry. fold (row (normalize_rows M) r). fold (row M r).
  rewrite row_normalize_rows, !nth_lookup, list_lookup_fmap.
  destruct (lookup_lt_is_Some_2 _ _ Hi) as [x ->]. done.
Qed.

End Columns.

Section Signs.

Context `{Rounding}.

Hypothesis Hsign : sign_preserving.

Lemma rnd_not_positive r : r <= 0 → flt (Fin 0) (rnd r) = false.
Proof. intros Hr. by apply Hsign. Qed.

Lemma rnd_not_negative r : 0 <= r → flt (rnd r) (Fin 0) = false.
Proof. intros Hr. by apply Hsign. Qed.

Lemma fmul_one_not_positive a :
  flt (Fin 0) a = false → flt (Fin 0) (fmul a (Fin 1)) = false.
Proof.
  destruct a as [y| | |]; simpl; intros Ha; try done.
  - apply rnd_not_positive. unfold Rltb in Ha.
    destruct (Rlt_dec 0 y); [done|]. lra.
  - unfold signed_inf. repeat (destruct (Rlt_dec _ _); try lra); done.
Qed.

Lemma fmul_minus_one_not_positive a :
  flt a (Fin 0) = false → flt (Fin 0) (fmul a (Fin (-1))) = false.
Proof.
  destruct a as [y| | |]; simpl; intros Ha; try done.
  - apply rnd_not_positive. unfold Rltb in Ha.
    destruct (Rlt_dec y 0); [done|]. lra.
  - unfold signed_inf. repeat (destruct (Rlt_dec _ _); try lra); done.
Qed.

Lemma fmul_zero_not_positive a : flt (Fin 0) (fmul a (Fin 0)) = false.
Proof.
  destruct a as [y| | |]; simpl; try done.
  - apply rnd_not_positive. lra.
  - unfold signed_inf. repeat (destruct (Rlt_dec _ _); try lra); done.
  - unfold signed_inf. repeat (destruct (Rlt_dec _ _); try lra); done.
Qed.

(** The flip [-1 * v * sign(v)] of a value gives a value that is not
    positive. *)
Lemma flip_not_positive (v : float) :
  flt (Fin 0) (fmul (fmul (Fin (-1)) v) (np_sign v)) = false.
Proof.
  destruct v as [x| | |]; try done.
  - cbn [np_sign]. destruct (Rlt_dec 0 x); [|destruct (Rlt_dec x 0)].
    + apply fmul_one_not_positive. simpl. apply rnd_not_positive. lra.
    + apply fmul_minus_one_not_positive. simpl. apply rnd_not_negative. lra.
    + apply fmul_zero_not_positive.
  - simpl. rewrite signed_inf_neg by lra. simpl.
    by rewrite signed_inf_neg by lra.
  - simpl. rewrite signed_inf_pos by lra. simpl.
    by rewrite signed_inf_neg by lra.
Qed.

(** After a pass the first entry of the column is not positive. *)
Lemma normalize_vector_not_positive b (c : Vector) :
  flt (Fin 0) (hd (Fin 0) (normalize_vector b c)) = false.
Proof.
  unfold normalize_vector.
  set (c1 := (λ x, fmul (fdiv x (norm c)) b) <$> c).
  destruct (is_zero (hd (Fin 0) c1)) eqn:Hz.
  - apply is_zero_true in Hz. rewrite Hz. simpl. apply Rltb_false. lra.
  - destruct c1 as [|h c1']; simpl.
    + apply Rltb_false. lra.
    + apply flip_not_positive.
Qed.

(** A square root is not negative. *)
Lemma fsqrt_not_negative a : flt (fsqrt a) (Fin 0) = false.
Proof.
  destruct a as [x| | |]; simpl; try done.
  destruct (Rlt_dec x 0); [done|]. apply rnd_not_negative, sqrt_pos.
Qed.

(** Dividing by a value that is not negative keeps a value not
    positive. *)
Lemma fdiv_not_positive a b :
  flt (Fin 0) a = false → flt b (Fin 0) = false →
  flt (Fin 0) (fdiv a b) = false.
Proof.
  intros Ha Hb. destruct a as [x| | |], b as [y| | |]; simpl in *;
    try done; unfold Rltb in *.
  - destruct (Rlt_dec 0 x); [done|]. destruct (Rlt_dec y 0); [done|].
    destruct (Req_dec_T y 0).
    + unfold signed_inf. destruct (Rlt_dec 0 x); [done|].
      by destruct (Rlt_dec x 0).
    + apply rnd_not_positive. unfold Rdiv.
      assert (0 < / y) by (apply Rinv_0_lt_compat; lra). nra.
  - by destruct (Rlt_dec 0 0); [lra|].
  - destruct (Rlt_dec y 0); done.
Qed.

End Signs.

Section Refinement.

Context `{Rounding}.

Hypothesis Hexact : exact_arithmetic.

Lemma np_sign_fin h : np_sign (Fin h) = Fin (Exact.np_sign h).
Proof.
  unfold np_sign, Exact.np_sign.
  destruct (Rlt_dec 0 h); [done|]. by destruct (Rlt_dec h 0).
Qed.

Lemma hd_fin (v : list R) : hd (Fin 0) (Fin <$> v) = Fin (hd 0 v).
Proof. by destruct v. Qed.

Lemma is_zero_fin x :
  is_zero (Fin x) = if Req_dec_T x 0 then true else false.
Proof. done. Qed.

Lemma column_fin (W : list (list R)) i :
  column (Exact.fin_matrix W) i = Fin <$> Exact.column W i.
Proof.
  unfold column, Exact.column, Exact.fin_matrix, Exact.fin_vector.
  rewrite <- !list_fmap_compose. apply list_fmap_ext. intros _ r _. simpl.
  rewrite !nth_lookup, list_lookup_fmap. by destruct (r !! i).
Qed.

(** On a column that is not zero the pass is the pass over the reals. *)
Lemma normalize_vector_fin b (c : list R) :
  Exact.norm c ≠ 0 →
  normalize_vector (Fin b) (Fin <$> c) = Fin <$> Exact.normalize_vector b c.
Proof.
  intros Hc. unfold normalize_vector, Exact.normalize_vector.
  rewrite (norm_fin Hexact).
  assert ((λ x, fmul (fdiv x (Fin (Exact.norm c))) (Fin b)) <$> (Fin <$> c)
          = Fin <$> ((λ x, x / Exact.norm c * b) <$> c)) as ->.
  { rewrite <- !list_fmap_compose. apply list_fmap_ext. intros _ x _. unfold compose.
    rewrite (fdiv_fin Hexact) by done. apply (fmul_fin Hexact). }
  set (c1 := (λ x, x / Exact.norm c * b) <$> c).
  rewrite hd_fin, is_zero_fin.
  destruct (Req_dec_T (hd 0 c1) 0); [done|].
  rewrite <- !list_fmap_compose. apply list_fmap_ext. intros _ x _. unfold compose.
  by rewrite np_sign_fin, !(fmul_fin Hexact).
Qed.

(** A zero column is divided by its norm zero: every entry becomes NaN. *)
Lemma normalize_vector_nan b (c : list R) :
  Exact.norm c = 0 →
  normalize_vector b (Fin <$> c) = (λ _, NaN) <$> c.
Proof.
  intros Hc. unfold normalize_vector. rewrite (norm_fin Hexact), Hc.
  apply ExactFacts.norm_zero in Hc.
  assert ((λ x, fmul (fdiv x (Fin 0)) b) <$> (Fin <$> c)
          = (λ _, NaN) <$> c) as ->.
  { rewrite <- list_fmap_compose. apply Forall_fmap_ext.
    eapply Forall_impl; [exact Hc|]. intros x ->. simpl.
    destruct (Req_dec_T 0 0); [|done].
    rewrite signed_inf_zero. apply fmul_nan_l. }
  destruct c as [|x c]; simpl.
  - by destruct (Req_dec_T 0 0).
  - f_equal. rewrite <- list_fmap_compose. by apply list_fmap_ext.
Qed.

(** A row that is not zero is scaled to unit length. *)
Lemma normalize_row_fin (w : list R) :
  Exact.norm w ≠ 0 →
  (λ x, fdiv x (norm (Fin <$> w))) <$> (Fin <$> w)
  = Fin <$> ((λ x, x / Exact.norm w) <$> w) ∧
  Exact.norm ((λ x, x / Exact.norm w) <$> w) = 1.
Proof.
  intros Hw. split.
  - rewrite (norm_fin Hexact), <- !list_fmap_compose.
    apply list_fmap_ext. intros _ x _. unfold compose. by apply (fdiv_fin Hexact).
  - rewrite (list_fmap_ext _ (λ x, x * / Exact.norm w) w) by done.
    rewrite ExactFacts.norm_scale. pose proof (ExactFacts.norm_nonneg w).
    rewrite Rabs_right.
    + by apply Rinv_l.
    + apply Rle_ge. left. apply Rinv_0_lt_compat. lra.
Qed.

Lemma normalize_row_nan (w : list R) :
  Exact.norm w = 0 →
  (λ x, fdiv x (norm (Fin <$> w))) <$> (Fin <$> w) = (λ _, NaN) <$> w.
Proof.
  intros Hw. rewrite (norm_fin Hexact), Hw.
  apply ExactFacts.norm_zero in Hw.
  rewrite <- list_fmap_compose. apply Forall_fmap_ext.
  eapply Forall_impl; [exact Hw|]. intros x ->. simpl.
  destruct (Req_dec_T 0 0); [|done]. apply signed_inf_zero.
Qed.

(** A row of a rectangular matrix, entry by entry along the columns. *)
Lemma row_columns d (M : Matrix) r :
  Forall (λ row, length row = d) M → (r < length M)%nat →
  row M r = (λ i, nth r (column M i) (Fin 0)) <$> seq 0 d.
Proof.
  intros Hrect Hr. destruct (lookup_lt_is_Some_2 _ _ Hr) as [v Hv].
  assert (length v = d) as Hlen
    by (rewrite Forall_lookup in Hrect; by apply (Hrect r)).
  unfold row. rewrite (nth_lookup M), Hv. simpl.
  apply list_eq. intros i. rewrite list_lookup_fmap.
  destruct (decide (i < d)%nat) as [Hi|Hi].
  - rewrite lookup_seq_lt by done. simpl.
    unfold column. rewrite nth_lookup, list_lookup_fmap, Hv. simpl.
    rewrite nth_lookup.
    destruct (lookup_lt_is_Some_2 v i ltac:(lia)) as [x ->]. done.
  - rewrite lookup_seq_ge by lia. apply lookup_ge_None. lia.
Qed.

End Refinement.

Section Normalization.

Context `{Rounding}.

(** C5, as amended.  In the normalization of an [n] by [d] embedding,
    for any rounding that keeps the sign and any values, NaN and the
    infinities included, the entry of the first row is not positive in
    any column after the loop over the columns, and not after the
    normalization of the rows either.  In exact arithmetic on real
    entries: each column that is not zero is multiplied by one factor,
    not zero, which brings it to norm [sqrt n] and its first entry to a
    value that is not positive, and a column that is zero becomes NaN;
    after that, each row of real entries that is not zero is divided
    by its norm, which gives it unit length, and a row that is zero
    becomes NaN; and when no column is zero every row has real
    entries. *)
Theorem normalization_spec (V : Matrix) n d :
  length V = n → (0 < n)%nat → Forall (λ r, length r = d) V →
  let V1 := normalize_columns V in
  let V2 := normalize_rows V1 in
  (sign_preserving →
     ∀ i, (i < d)%nat →
       flt (Fin 0) (entry V1 0 i) = false ∧
       flt (Fin 0) (entry V2 0 i) = false) ∧
  (exact_arithmetic → ∀ W, V = Exact.fin_matrix W →
     (∀ i, (i < d)%nat → Exact.norm (Exact.column W i) ≠ 0 →
        ∃ k, k ≠ 0 ∧
          column V1 i
          = Exact.fin_vector ((λ x, k * x) <$> Exact.column W i) ∧
          Exact.norm ((λ x, k * x) <$> Exact.column W i) = sqrt (INR n) ∧
          k * nth i (nth 0 W []) 0 <= 0) ∧
     (∀ i, (i < d)%nat → Exact.norm (Exact.column W i) = 0 →
        column V1 i = replicate n NaN) ∧
     (∀ r w, (r < n)%nat → row V1 r = Exact.fin_vector w →
        (Exact.norm w ≠ 0 →
           row V2 r = Exact.fin_vector ((λ x, x / Exact.norm w) <$> w) ∧
           Exact.norm ((λ x, x / Exact.norm w) <$> w) = 1) ∧
        (Exact.norm w = 0 → row V2 r = replicate d NaN)) ∧
     ((∀ i, (i < d)%nat → Exact.norm (Exact.column W i) ≠ 0) →
        ∀ r, (r < n)%nat → ∃ w, row V1 r = Exact.fin_vector w)).
Proof.
  intros Hn Hpos Hrect V1 V2.
  destruct (normalize_columns_columns V n d Hn Hpos Hrect)
    as (Hlen1 & Hrect1 & Hcol). fold V1 in Hlen1, Hrect1, Hcol.
  assert (length (row V1 0) = d) as Hrow0.
  { unfold row. destruct V1 as [|r0 V1']; [simpl in Hlen1; lia|].
    by apply Forall_cons in Hrect1 as [? _]. }
  split.
  - intros Hsign i Hi.
    assert (flt (Fin 0) (entry V1 0 i) = false) as H1.
    { rewrite entry_first, (Hcol i Hi).
      by apply normalize_vector_not_positive. }
    split; [done|]. unfold V2.
    rewrite entry_normalize_rows by lia.
    apply (fdiv_not_positive Hsign); [done|].
    by apply fsqrt_not_negative.
  - intros Hexact W ->.
    assert (sqrt (INR n) > 0) as Hb.
    { apply sqrt_lt_R0. apply lt_0_INR. lia. }
    assert (fsqrt (of_nat n) = Fin (sqrt (INR n))) as Hfb.
    { rewrite (of_nat_fin Hexact). apply (fsqrt_fin Hexact).
      apply pos_INR. }
    assert (length W = n) as HnW.
    { unfold Exact.fin_matrix in Hn. by rewrite length_fmap in Hn. }
    split_and!.
    + intros i Hi Hc. specialize (Hcol i Hi).
      rewrite column_fin, Hfb, (normalize_vector_fin Hexact) in Hcol by done.
      destruct (ExactFacts.normalize_vector_multiple (sqrt (INR n))
                  (Exact.column W i) ltac:(lra) Hc) as (k & Hk & Hmul).
      destruct (ExactFacts.normalize_vector_spec (sqrt (INR n))
                  (Exact.column W i) ltac:(lra) Hc) as (Hnorm & Hhd & _).
      exists k. rewrite Hmul in Hcol, Hnorm, Hhd.
      split_and!; [done|done|done|].
      destruct W as [|r0 W']; [simpl in HnW; lia|]. done.
    + intros i Hi Hc. specialize (Hcol i Hi).
      rewrite column_fin, (normalize_vector_nan Hexact) in Hcol by done.
      rewrite Hcol. unfold Exact.column. rewrite <- list_fmap_compose.
      rewrite <- HnW. clear. induction W as [|r W IH]; [done|].
      simpl. by f_equal.
    + intros r w Hr Hw. unfold V2. rewrite row_normalize_rows, Hw.
      unfold Exact.fin_vector. split.
      * intros Hnw. by apply (normalize_row_fin Hexact).
      * intros Hnw. rewrite (normalize_row_nan Hexact) by done.
        assert (length w = d) as <-.
        { rewrite Forall_lookup in Hrect1.
          destruct (lookup_lt_is_Some_2 V1 r ltac:(lia)) as [v Hv].
          specialize (Hrect1 r v Hv). unfold row in Hw.
          rewrite (nth_lookup V1), Hv in Hw. simpl in Hw. subst v.
          unfold Exact.fin_vector in Hrect1.
          by rewrite length_fmap in Hrect1. }
        clear. induction w as [|x w IH]; [done|]. simpl. by f_equal.
    + intros Hall r Hr.
      exists ((λ i, nth r (Exact.normalize_vector (sqrt (INR n))
                             (Exact.column W i)) 0) <$> seq 0 d).
      rewrite (row_columns d) by (done || lia).
      unfold Exact.fin_vector. rewrite <- list_fmap_compose.
      apply Forall_fmap_ext, Forall_forall. intros i Hi%elem_of_seq. simpl.
      rewrite (Hcol i) by lia.
      rewrite column_fin, Hfb, (normalize_vector_fin Hexact) by (apply Hall; lia).
      rewrite !nth_lookup, list_lookup_fmap.
      by destruct (_ !! r).
Qed.

End Normalization.

Section NaNEmbedding.

Context `{Rounding} {Rng : Type}.
Variable randint : Rng → nat → nat * Rng.

Hypothesis Hexact : exact_arithmetic.

(** The embedding [[0, 1], [0, 1]]: the zero column is divided by its
    norm zero, and after the normalization of the rows every entry is
    NaN. *)
Lemma zero_column_nan :
  normalize_rows (normalize_columns SpectralDemo.zero_column)
  = [[NaN; NaN]; [NaN; NaN]].
Proof.
  destruct (normalize_columns_columns SpectralDemo.zero_column 2 2 eq_refl
              (le_S 1 1 (le_n 1)))
    as (Hlen & Hrect & Hcol); [by repeat constructor|].
  specialize (Hcol 0%nat (le_S 1 1 (le_n 1))).
  change (column SpectralDemo.zero_column 0) with (Fin <$> [0; 0]) in Hcol.
  rewrite (normalize_vector_nan Hexact) in Hcol.
  2:{ unfold Exact.norm. simpl.
      replace (0 * 0 + (0 * 0 + 0)) with 0 by ring. apply sqrt_0. }
  destruct (normalize_columns SpectralDemo.zero_column)
    as [|r0 [|r1 [|r2 M]]]; simpl in Hlen; try lia.
  apply Forall_cons in Hrect as [Hr0 Hrect].
  apply Forall_cons in Hrect as [Hr1 _].
  destruct r0 as [|a0 [|a r0]]; simpl in Hr0; try lia.
  destruct r1 as [|b0 [|b r1]]; simpl in Hr1; try lia.
  destruct r0; [|simpl in Hr0; lia]. destruct r1; [|simpl in Hr1; lia].
  injection Hcol as -> ->.
  unfold normalize_rows. simpl. by destruct a, b.
Qed.

Lemma dot_nan_row (c : Vector) :
  dot [NaN; NaN] c = match c with [] => Fin 0 | _ => NaN end.
Proof. destruct c as [|x [|y c]]; [done|by destruct x..]. Qed.

(** On the NaN embedding every sample gets the label 0, and the matrix
    handed to the SVD holds NaN, whatever the rotation. *)
Lemma t_svd_nan (rotation : Matrix) :
  t_svd 2 [[NaN; NaN]; [NaN; NaN]] rotation = [[NaN; NaN]; [Fin 0; Fin 0]].
Proof.
  assert (labels_of 2 [[NaN; NaN]; [NaN; NaN]] rotation = [0%nat; 0%nat])
    as Hlabels.
  { unfold labels_of, mat_mul. simpl. rewrite !dot_nan_row.
    unfold column. destruct rotation as [|r0 rotation]; simpl.
    - rewrite Rltb_false by lra. done.
    - done. }
  unfold t_svd. rewrite Hlabels. reflexivity.
Qed.

Lemma svd_finite_nan (rotation : Matrix) :
  SpectralDemo.svd_finite (t_svd 2 [[NaN; NaN]; [NaN; NaN]] rotation) = None.
Proof.
  rewrite t_svd_nan. unfold SpectralDemo.svd_finite.
  rewrite bool_decide_true; [done|]. by repeat constructor.
Qed.

Lemma outer_loop_nan n_iter_max fuel r (rs : Rng) :
  (r < 30)%nat →
  outer_loop randint SpectralDemo.svd_finite 30 n_iter_max fuel
    [[NaN; NaN]; [NaN; NaN]] 2 2 r rs
  = OutOfFuel.
Proof.
  intros Hr. revert rs. induction fuel as [|fuel IH]; intros rs; [done|].
  cbn [outer_loop]. rewrite (proj2 (Nat.ltb_lt r 30) Hr). cbn [Nat.eqb].
  destruct (randint rs 2) as [k rs']. destruct fuel as [|fuel]; [done|].
  cbn [inner_loop]. rewrite svd_finite_nan. apply IH.
Qed.

(** The failing input of C4, run: on the embedding [[0, 1], [0, 1]],
    with an SVD that fails on NaN as numpy's does, [discretize] neither
    returns nor raises, however many passes it is given. *)
Lemma discretize_zero_column_diverges n_iter_max fuel (rs : Rng) :
  discretize randint SpectralDemo.svd_finite 30 n_iter_max fuel
    SpectralDemo.zero_column rs
  = OutOfFuel.
Proof.
  unfold discretize.
  change (shape SpectralDemo.zero_column) with (2%nat, 2%nat).
  cbv iota beta. rewrite zero_column_nan. apply outer_loop_nan. lia.
Qed.

End NaNEmbedding.


(** ** The theorems at the instance [SpectralDemo] *)

#[local] Existing Instance SpectralDemo.exact.

Lemma demo_exact : exact_arithmetic.
Proof. by intros r. Qed.

Lemma demo_sign_preserving : sign_preserving.
Proof.
  intros r. split; intros Hr; simpl; apply Rltb_false; lra.
Qed.

Lemma sqrt_sum_pos x : 0 < x → sqrt x ≠ 0.
Proof. intros Hx. pose proof (sqrt_lt_R0 x Hx). lra. Qed.

(** C5 as stated fails: on the one-by-one embedding [[1]] the entry of
    the first row is turned negative, not non-negative. *)
Lemma normalization_sign_counterexample :
  normalize_columns [[Fin 1]] = [[Fin (-1)]] ∧
  flt (entry (normalize_columns [[Fin 1]]) 0 0) (Fin 0) = true.
Proof.
  assert (normalize_columns [[Fin 1]] = [[Fin (-1)]]) as E.
  { destruct (normalize_columns_columns [[Fin 1]] 1 1 eq_refl (le_n 1))
      as (Hlen & Hrect & Hcol); [by repeat constructor|].
    specialize (Hcol 0%nat (le_n 1)).
    change (column [[Fin 1]] 0) with (Fin <$> [1]) in Hcol.
    rewrite (of_nat_fin demo_exact), (fsqrt_fin demo_exact) in Hcol
      by apply pos_INR.
    rewrite (normalize_vector_fin demo_exact) in Hcol
      by (rewrite ExactFacts.norm_singleton, Rabs_R1; lra).
    assert (Exact.normalize_vector (sqrt (INR 1)) [1] = [-1]) as Hv.
    { unfold Exact.normalize_vector.
      rewrite ExactFacts.norm_singleton, Rabs_R1. cbn [INR].
      rewrite sqrt_1. cbn [fmap list_fmap hd].
      replace (1 / 1 * 1) with 1 by field.
      destruct (Req_dec_T 1 0) as [H01|_]; [lra|].
      unfold Exact.np_sign. destruct (Rlt_dec 0 1) as [_|Hn]; [|lra].
      f_equal. ring. }
    rewrite Hv in Hcol.
    destruct (normalize_columns [[Fin 1]]) as [|r [|r' M]];
      simpl in Hlen; try lia.
    apply Forall_cons in Hrect as [Hr _].
    destruct r as [|x [|x' r]]; simpl in Hr; try lia.
    by injection Hcol as ->. }
  split; [done|]. rewrite E. cbn [entry nth]. apply Rltb_true. lra.
Qed.

Lemma normalization_spec_witness :
  length (Exact.fin_matrix SpectralDemo.two_by_two) = 2%nat ∧ (0 < 2)%nat ∧
  Forall (λ r : Vector, length r = 2%nat)
    (Exact.fin_matrix SpectralDemo.two_by_two) ∧
  sign_preserving ∧ exact_arithmetic ∧
  Exact.norm (Exact.column SpectralDemo.two_by_two 0) ≠ 0 ∧
  flt (Fin 0)
    (entry (normalize_rows
              (normalize_columns (Exact.fin_matrix SpectralDemo.two_by_two)))
       0 0) = false ∧
  ∃ k, k ≠ 0 ∧
    column (normalize_columns (Exact.fin_matrix SpectralDemo.two_by_two)) 0
    = Exact.fin_vector ((λ x, k * x) <$> [3; 4]) ∧
    Exact.norm ((λ x, k * x) <$> [3; 4]) = sqrt (INR 2) ∧
    k * 3 <= 0.
Proof.
  assert (Forall (λ r : Vector, length r = 2%nat)
            (Exact.fin_matrix SpectralDemo.two_by_two)) as Hrect
    by (by repeat constructor).
  assert (Exact.norm (Exact.column SpectralDemo.two_by_two 0) ≠ 0) as Hc.
  { unfold Exact.norm. simpl. apply sqrt_sum_pos. lra. }
  split_and!; [reflexivity|lia|exact Hrect|exact demo_sign_preserving|
               exact demo_exact|exact Hc|..].
  - exact (proj2 (proj1 (normalization_spec
                           (Exact.fin_matrix SpectralDemo.two_by_two) 2 2
                           eq_refl (le_S 1 1 (le_n 1)) Hrect)
                    demo_sign_preserving 0%nat (le_S 1 1 (le_n 1)))).
  - exact (proj1 (proj2 (normalization_spec
                           (Exact.fin_matrix SpectralDemo.two_by_two) 2 2
                           eq_refl (le_S 1 1 (le_n 1)) Hrect)
                    demo_exact SpectralDemo.two_by_two eq_refl)
             0%nat (le_S 1 1 (le_n 1)) Hc).
Defined.


Lemma invalid_assign_labels_witness :
  ("spectral" ∉ accepted_labels) ∧
  (spectral_clustering_mod SpectralDemo.check_random_state
     SpectralDemo.spectral_embedding SpectralDemo.KMedoids_fit
     SpectralDemo.k_means SpectralDemo.randint SpectralDemo.svd
     50 [[Fin 1]] 1 None None 0%nat 10 0 "spectral" false []
   = (Raise (ValueError (assign_labels_message "spectral")), [])).
Proof.
  assert ("spectral" ∉ accepted_labels) as Hbad.
  { apply (bool_decide_unpack _). by vm_compute. }
  split; [exact Hbad|].
  exact (proj1 (invalid_assign_labels SpectralDemo.check_random_state
                  SpectralDemo.spectral_embedding SpectralDemo.KMedoids_fit
                  SpectralDemo.k_means SpectralDemo.randint SpectralDemo.svd
                  50 [[Fin 1]] 1 None None 0%nat 10 0 "spectral" false) Hbad).
Defined.

End SpectralFacts.


(** * Further properties of the tree builder *)

Module TreeMoreFacts.
Import Tree TreeMore TreeFacts.

Section Facts.

Context {Id Feat Rng : Type} `{EqDecision Id}.
Variable scaler : list Feat -> Feat -> Feat.
Variable pamk : list Feat -> list nat -> string -> Rng -> (KMedoids * nat) * Rng.

Abbreviation Tree := (@AutoAttributeTree Id Feat Rng).
Abbreviation State := (@FitState Id Feat Rng).
Abbreviation Frame := (@DataFrame Id Feat).
Abbreviation ANode := (@Node Id Feat).

Lemma iloc_elem {A} (col : list A) idx xs x :
  iloc col idx = Some xs → x ∈ xs → x ∈ col.
Proof.
  revert xs. induction idx as [|i idx IH]; intros xs; simpl.
  - intros [= <-] Hx. inversion Hx.
  - destruct (col !! i) as [y|] eqn:Hy; [|done].
    destruct (iloc col idx) as [ys|]; [|done].
    intros [= <-] [->|Hx]%elem_of_cons; [|by eapply IH].
    by eapply list_elem_of_lookup_2.
Qed.

(** The representatives that [level_pamk] records are ids of its rows. *)
Lemma level_pamk_medoids (dn : Frame) mk off m rs cd meds rs' c id :
  level_pamk pamk dn mk off m rs = (Ret (cd, meds), rs') →
  (c, id) ∈ meds → id ∈ dn.*1.
Proof.
  unfold level_pamk.
  destruct (pamk _ _ _ _) as [[km k] rs0]. simpl.
  case_bool_decide; [intros [= <- <- <-] Hin; inversion Hin|].
  destruct (iloc _ _) as [ms|] eqn:Hi; [|done].
  repeat (case_bool_decide; [|done]).
  intros [= <- <- <-] Hin%elem_of_zip_r. by eapply iloc_elem.
Qed.

Lemma scaled_table_ids (table : Frame) : (scaled_table scaler table).*1 = table.*1.
Proof. unfold scaled_table. by rewrite <- list_fmap_compose. Qed.

Lemma fit_links_start mk meth (rs : Rng) (table : Frame) :
  fit_links scaler table (fit_start scaler (init mk meth rs) table).
Proof.
  constructor; simpl.
  - intros [|i] nd; [|done]. intros [= <-]. simpl. split; done.
  - intros [|p] c ndp; [|done]. intros [= <-]. simpl. split.
    + intros Hc. inversion Hc.
    + intros (ndc & Hndc & Hp). destruct c; [|done].
      injection Hndc as <-. done.
  - intros [|i] nd; [|done]. intros [= <-]. simpl. split; [constructor|by left].
  - intros [|i] nd d; [|done]. intros [= <-] [= <-]. done.
  - intros c id Hin. inversion Hin.
Qed.

(** The node appended for the cluster [c] of a split. *)
Lemma split_lookup_new (ns : list ANode) f cur dn cd k c :
  length ns ≤ c < length ns + k →
  (alter f cur ns ++ (mk_child cur dn cd <$> seq (length ns) k)) !! c
  = Some (mk_child cur dn cd c).
Proof.
  intros Hc. rewrite lookup_app_r by (rewrite length_alter; lia).
  rewrite length_alter, list_lookup_fmap, lookup_seq_lt by lia.
  simpl. do 2 f_equal. lia.
Qed.

Lemma fit_links_iter (table : Frame) (st st' : State) :
  fit_inv st → fit_links scaler table st →
  fit_iter pamk st = Ret st' → fit_links scaler table st'.
Proof.
  intros Hinv [Hleaf Hchild Hfan Hrows Hmed] Hit. apply fit_iter_Ret in Hit.
  destruct Hit as [cur rest nd dn Hq Hnd Hloc Hdn Hlen Hs
                  |cur rest nd dn cd meds rs Hq Hnd Hloc Hdn Hlen Hlp Hm Hs
                  |cur rest nd dn cd meds rs Hq Hnd Hloc Hdn Hlen Hlp Hm Hs].
  - constructor; rewrite Hs; done.
  - constructor; rewrite Hs; done.
  - destruct (current_level st st' cur rest nd dn) as [Hlv Hd]; try done.
    pose proof (inv_nonempty _ Hinv) as Hne.
    destruct (split_shape pamk st st' cur rest nd dn cd meds rs)
      as (km & k & Hsh); try done.
    simpl in Hsh.
    destruct Hsh as (_ & Hk & _ & _ & _ & _ & Hn & _ & Hmeds & _).
    set (a := length (nodes (self st))) in *.
    set (f := λ n : ANode, del_data (add_children (seq a k) n)) in *.
    assert (Hf : ∀ n : ANode, name (f n) = name n ∧
                              parent_node (f n) = parent_node n) by done.
    destruct (inv_queued _ Hinv cur nd) as [_ Hnochild];
      [rewrite Hq; by left|done|].
    assert (Hcur : cur < a) by by eapply lookup_lt_Some.
    assert (Hpar_lt : ∀ i y p, nodes (self st) !! i = Some y →
                               parent_node y = Some p → p < i).
    { intros i y p Hy Hp. pose proof (inv_parent _ Hinv i y Hy) as Hpar.
      rewrite Hp in Hpar. tauto. }
    constructor.
    + intros i x Hx. rewrite Hn in Hx.
      apply split_lookup in Hx
        as [(Hi & y & Hy & _ & _ & [[-> ->]|[Hne' ->]])|(Hi & ->)];
        [| |done|done].
      * simpl. split; [|done]. intros _ E. apply app_eq_nil in E as [_ E].
        destruct k; [lia|done].
      * by apply (Hleaf i).
    + intros p c x Hx. rewrite Hn in Hx.
      apply split_lookup in Hx
        as [(Hi & y & Hy & _ & _ & [[-> ->]|[Hne' ->]])|(Hi & ->)];
        [| | |done].
      * (* the node that was split *)
        assert (rewrite_children :
                  children_nodes (f y) = seq a k).
        { assert (y = nd) as -> by congruence. simpl. by rewrite Hnochild. }
        rewrite rewrite_children, elem_of_seq. split.
        -- intros Hc. exists (mk_child cur dn cd c). split; [|done].
           rewrite Hn. by apply split_lookup_new.
        -- intros (ndc & Hndc & Hp). rewrite Hn in Hndc.
           apply split_lookup in Hndc
             as [(Hc & z & Hz & _ & Hpz & _)|(Hc & _)]; [|lia|done].
           rewrite Hpz in Hp.
           assert (c ∈ children_nodes nd) as Hin
             by (apply (Hchild cur c nd Hnd); eauto).
           rewrite Hnochild in Hin. inversion Hin.
      * (* another node of the tree *)
        rewrite (Hchild p c y Hy). split.
        -- intros (ndc & Hndc & Hp).
           destruct (decide (c = cur)) as [->|Hc].
           ++ exists (f ndc). split; [|done].
              rewrite Hn, lookup_app_l by (by rewrite length_alter).
              by rewrite list_lookup_alter_eq, Hndc.
           ++ exists ndc. split; [|done].
              rewrite Hn, lookup_app_l
                by (rewrite length_alter; by eapply lookup_lt_Some).
              by rewrite list_lookup_alter_ne.
        -- intros (ndc & Hndc & Hp). rewrite Hn in Hndc.
           apply split_lookup in Hndc
             as [(Hc & z & Hz & _ & Hpz & _)|(Hc & ->)]; [| |done].
           ++ exists z. split; [done|]. by rewrite <- Hpz.
           ++ simpl in Hp. congruence.
      * (* a new child *)
        simpl. split; [intros Hc; inversion Hc|].
        intros (ndc & Hndc & Hp). rewrite Hn in Hndc.
        apply split_lookup in Hndc
          as [(Hc & z & Hz & _ & Hpz & _)|(Hc & ->)]; [| |done].
        -- rewrite Hpz in Hp. apply (Hpar_lt c z p Hz) in Hp. lia.
        -- simpl in Hp. injection Hp as <-. lia.
    + intros i x Hx. rewrite Hn in Hx.
      apply split_lookup in Hx
        as [(Hi & y & Hy & _ & _ & [[-> ->]|[Hne' ->]])|(Hi & ->)];
        [| | |done].
      * assert (y = nd) as -> by congruence. simpl. rewrite Hnochild. simpl.
        split; [apply NoDup_seq|]. right. rewrite length_seq. lia.
      * by apply (Hfan i).
      * simpl. split; [constructor|by left].
    + intros i x d Hx Hdx. rewrite Hn in Hx.
      apply split_lookup in Hx
        as [(Hi & y & Hy & _ & _ & [[-> ->]|[Hne' ->]])|(Hi & ->)];
        [| | |done].
      * done.
      * by apply (Hrows i y).
      * simpl in Hdx. injection Hdx as <-. unfold masked.
        etrans; [apply sublist_filter|]. by apply (Hrows cur nd).
    + intros c id. rewrite Hmeds. intros [Hin|Hin]%elem_of_app; [eauto|].
      eapply level_pamk_medoids in Hin; [|done].
      rewrite <- scaled_table_ids.
      apply list_elem_of_fmap in Hin as (r & -> & Hr).
      apply list_elem_of_fmap_2. eapply elem_of_sublist; [done|].
      by apply (Hrows cur nd).
Qed.

Lemma reach_links mk meth (rs : Rng) (table : Frame) (st : State) :
  reach scaler pamk (init mk meth rs) table st → fit_links scaler table st.
Proof.
  induction 1 as [|st st' Hr IH Hit].
  - apply fit_links_start.
  - eapply fit_links_iter; [|done..]. by eapply reach_inv.
Qed.

(** ** Shape of the completed tree *)

(** X1. In the tree that [fit] returns, a node has lost its data exactly
    when it has children; [c] is listed among the children of [p]
    exactly when the parent pointer of [c] is [p]; and children lists
    have no duplicates and are empty or of length at least two. *)
Theorem tree_shape fuel mk meth (rs : Rng) (table : Frame) (t : Tree) :
  fit scaler pamk fuel (init mk meth rs) table = Ret t →
  (∀ i nd, nodes t !! i = Some nd →
     (data nd = None ↔ children_nodes nd ≠ []) ∧
     NoDup (children_nodes nd) ∧
     (children_nodes nd = [] ∨ 2 ≤ length (children_nodes nd))) ∧
  (∀ p c ndp, nodes t !! p = Some ndp →
     (c ∈ children_nodes ndp ↔
      ∃ ndc, nodes t !! c = Some ndc ∧ parent_node ndc = Some p)).
Proof.
  intros Hfit. apply fit_Ret in Hfit as (st & Hr & _ & ->).
  destruct (reach_links _ _ _ _ _ Hr) as [Hleaf Hchild Hfan _ _].
  split.
  - intros i nd Hnd. split; [by apply (Hleaf i)|by apply (Hfan i)].
  - exact Hchild.
Qed.

(** X2. Every node of the returned tree that still holds data holds rows
    of the table scaled once at the root, in the order of the table:
    no row is rescaled, altered or reordered on the way down. *)
Theorem rows_from_scaled_table fuel mk meth (rs : Rng) (table : Frame)
    (t : Tree) :
  fit scaler pamk fuel (init mk meth rs) table = Ret t →
  ∀ i nd d, nodes t !! i = Some nd → data nd = Some d →
    d `sublist_of` scaled_table scaler table.
Proof.
  intros Hfit. apply fit_Ret in Hfit as (st & Hr & _ & ->).
  apply (lk_rows _ _ _ (reach_links _ _ _ _ _ Hr)).
Qed.

(** X3. Every row of the medoid table of the returned tree pairs the id
    of a node other than the root with the id of a row of the input. *)
Theorem medoid_table_entries fuel mk meth (rs : Rng) (table : Frame)
    (t : Tree) :
  fit scaler pamk fuel (init mk meth rs) table = Ret t →
  ∀ c id, (c, id) ∈ medoids t →
    1 ≤ c < length (nodes t) ∧ id ∈ table.*1.
Proof.
  intros Hfit. apply fit_Ret in Hfit as (st & Hr & _ & ->).
  intros c id Hin. split.
  - pose proof (inv_medoids _ (reach_inv _ _ _ _ _ _ _ Hr)) as Hm.
    assert (c ∈ (medoids (self st)).*1) as Hc
      by (apply list_elem_of_fmap; by exists (c, id)).
    rewrite Hm in Hc. apply elem_of_seq in Hc. simpl. lia.
  - by apply (lk_medoids _ _ _ (reach_links _ _ _ _ _ Hr) c).
Qed.

(** ** The level index *)

Lemma level_ancestors (st : State) n l l' :
  fit_inv st → nodes2levels (self st) !! n = Some l → l' ≤ l →
  ∃ n', nodes2levels (self st) !! n' = Some l'.
Proof.
  intros Hinv. revert l. induction (lt_wf n) as [n _ IH]. intros l Hl Hle.
  destruct (decide (l' = l)) as [->|Hne]; [eauto|].
  destruct (lookup_lt_is_Some_2 (nodes (self st)) n) as [nd Hnd].
  { apply (inv_levels _ Hinv). eauto. }
  pose proof (inv_parent _ Hinv n nd Hnd) as Hp.
  destruct (parent_node nd) as [p|].
  - destruct Hp as (Hlt & lp & Hlp & Hn). rewrite Hn in Hl.
    injection Hl as <-. apply (IH p Hlt lp Hlp). lia.
  - destruct Hp as [-> H0]. rewrite H0 in Hl. injection Hl as <-. lia.
Qed.


(** X4. The level index of the returned tree is consistent: a node is
    in the bucket of depth [l] exactly when its stored depth is [l];
    the stored depths are 0 for the root and one more than the parent's
    for every other node; and [num_levels] returns [N] such that the
    depths present in the tree are exactly [0 .. N - 1]. *)
Theorem level_index fuel mk meth (rs : Rng) (table : Frame) (t : Tree) :
  fit scaler pamk fuel (init mk meth rs) table = Ret t →
  (∀ l n, (∃ ns, levels2nodes t !! l = Some ns ∧ n ∈ ns) ↔
          nodes2levels t !! n = Some l) ∧
  (∀ n, n < length (nodes t) ↔ is_Some (nodes2levels t !! n)) ∧
  nodes2levels t !! 0 = Some 0 ∧
  (∀ i nd p, nodes t !! i = Some nd → parent_node nd = Some p →
     ∃ lp, nodes2levels t !! p = Some lp ∧
           nodes2levels t !! i = Some (S lp)) ∧
  ∃ N, num_levels t = Ret N ∧
       ∀ l, l < N ↔ ∃ n, nodes2levels t !! n = Some l.
Proof.
  intros Hfit. apply fit_Ret in Hfit as (st & Hr & _ & ->).
  pose proof (reach_inv _ _ _ _ _ _ _ Hr) as Hinv.
  split_and!.
  - apply (inv_buckets _ Hinv).
  - apply (inv_levels _ Hinv).
  - apply (root_level _ Hinv).
  - intros i nd p Hnd Hp. pose proof (inv_parent _ Hinv i nd Hnd) as Hpar.
    rewrite Hp in Hpar. tauto.
  - destruct (max_level_spec st Hinv) as (L & HL & [n Hn] & Hmax).
    exists (L + 1). split.
    + unfold num_levels.
      change (max_level (set_leaves (self st))) with (max_level (self st)).
      by rewrite HL.
    + intros l. split.
      * intros Hl. apply (level_ancestors st n L l Hinv Hn). lia.
      * intros [n' Hn']. apply Hmax in Hn'. lia.
Qed.

(** X5. With an oracle that always chooses one cluster, [fit] returns
    the root alone, a leaf, and the medoid table stays empty, whatever
    the size of the table. *)
Theorem never_split fuel mk meth (rs : Rng) (table : Frame) :
  (∀ X krange m r, (pamk X krange m r).1.2 = 1) →
  ∃ t, fit scaler pamk (S fuel) (init mk meth rs) table = Ret t ∧
       nodes t = [new_node 0 None (Some (scaled_table scaler table))] ∧
       leaf_nodes_idx t = [0] ∧ medoids t = [] ∧ incomplete_nodes t = [].
Proof.
  intros Hone. unfold fit. simpl. unfold fit_iter. simpl.
  case_bool_decide as Hlen.
  - unfold level_pamk.
    match goal with |- context [pamk ?X ?k ?m ?r] =>
      pose proof (Hone X k m r) as Hk; destruct (pamk X k m r) as [[km k'] rs']
    end.
    simpl in Hk. subst k'. simpl. eexists. split; [by destruct fuel|].
    by split_and!.
  - simpl. eexists. split; [by destruct fuel|]. by split_and!.
Qed.

(** ** More on cluster labels *)

(** What [get_clusters] returns on a reachable final state, at level [L]. *)
Lemma clusters_at (st : State) L :
  fit_inv st →
  let t := set_leaves (self st) in
  ∃ res,
    (∀ fuel, length (nodes t) ≤ fuel → get_clusters fuel t (Some L) = Ret res) ∧
    res.*1 = concat (ids_at t <$> leaf_nodes_idx t) ∧
    ∀ id c, (id, c) ∈ res →
      ∃ leaf, leaf ∈ leaf_nodes_idx t ∧ id ∈ ids_at t leaf ∧
              climbs t L leaf c.
Proof.
  intros Hinv t.
  destruct (get_clusters_loop_spec t
              (λ i Hi, proj1 (inv_levels _ Hinv i) Hi) (inv_parent _ Hinv)
              L (leaf_nodes_idx t))
    as (res & Hres & Hids & Hin).
  { intros i Hi. by apply (elem_of_leaves (self st) i (inv_arena _ Hinv)). }
  exists res. split_and!; [|done|].
  - intros fuel Hfuel. exact (Hres fuel [] Hfuel).
  - intros id c Hic. destruct (Hin id c Hic) as (leaf & ? & ? & ? & _). eauto.
Qed.

Lemma climbs_det (t : Tree) L n c1 c2 :
  climbs t L n c1 → climbs t L n c2 → c1 = c2.
Proof.
  induction 1 as [n l Hl HL|n l nd p c Hl HL Hnd Hp _ IH];
    destruct 1 as [l' Hl' HL'|l' nd' p' c' Hl' HL' Hnd' Hp' Hc'];
    try done; simplify_eq; try lia.
  by apply IH.
Qed.

Lemma climbs_refine (t : Tree) L L' n c c' :
  L ≤ L' → climbs t L' n c' → climbs t L n c → climbs t L c' c.
Proof.
  intros HLL. induction 1 as [n l Hl HL|n l nd p c' Hl HL Hnd Hp _ IH];
    [done|].
  destruct 1 as [l' Hl' HL'|l' nd' p' c'' Hl' HL' Hnd' Hp' Hc'];
    simplify_eq; [lia|]. by apply IH.
Qed.


(** X7. The labellings are nested: on a completed tree (unique row ids,
    labels of the oracle in range), two rows that share their cluster at
    a level share it at every smaller level. *)
Theorem clusters_nested fuel mk meth (rs : Rng) (table : Frame) (t : Tree)
    L L' fuel1 fuel2 res res' :
  labels_in_range pamk → NoDup table.*1 →
  fit scaler pamk fuel (init mk meth rs) table = Ret t →
  L ≤ L' →
  length (nodes t) ≤ fuel1 → length (nodes t) ≤ fuel2 →
  get_clusters fuel1 t (Some L) = Ret res →
  get_clusters fuel2 t (Some L') = Ret res' →
  ∀ id1 id2 c' c1 c2,
    (id1, c') ∈ res' → (id2, c') ∈ res' →
    (id1, c1) ∈ res → (id2, c2) ∈ res → c1 = c2.
Proof.
  intros Hor Hnd Hfit HLL Hf1 Hf2 Hres Hres'.
  apply fit_Ret in Hfit as (st & Hr & _ & ->).
  pose proof (reach_inv _ _ _ _ _ _ _ Hr) as Hinv.
  pose proof (reach_partition _ _ _ _ _ _ _ Hor Hnd Hr) as Hperm.
  destruct (clusters_at st L Hinv) as (r & Hrun & _ & Hin).
  destruct (clusters_at st L' Hinv) as (r' & Hrun' & _ & Hin').
  rewrite (Hrun fuel1 Hf1) in Hres. rewrite (Hrun' fuel2 Hf2) in Hres'.
  injection Hres as <-. injection Hres' as <-.
  assert (Hleaf : ∀ id l1 l2,
            l1 ∈ leaf_nodes_idx (set_leaves (self st)) →
            l2 ∈ leaf_nodes_idx (set_leaves (self st)) →
            id ∈ ids_at (set_leaves (self st)) l1 →
            id ∈ ids_at (set_leaves (self st)) l2 → l1 = l2).
  { intros id l1 l2 H1 H2 Hi1 Hi2.
    apply (elem_of_leaves (self st) l1 (inv_arena _ Hinv)) in H1
      as (n1 & Hn1 & _).
    apply (elem_of_leaves (self st) l2 (inv_arena _ Hinv)) in H2
      as (n2 & Hn2 & _).
    unfold ids_at in Hi1, Hi2. simpl in Hi1, Hi2.
    rewrite Hn1 in Hi1. rewrite Hn2 in Hi2.
    destruct (decide (l1 = l2)) as [|Hne]; [done|]. exfalso.
    eapply (concat_fmap_disjoint node_ids (nodes (self st)) l1 l2); eauto.
    fold (leaf_ids (nodes (self st))). rewrite Hperm. done. }
  assert (Hdown : ∀ id c' c, (id, c') ∈ r' → (id, c) ∈ r →
            climbs (set_leaves (self st)) L c' c).
  { intros id c' c Hc' Hc.
    destruct (Hin' id c' Hc') as (l' & Hl' & Hid' & Hcl').
    destruct (Hin id c Hc) as (l & Hl & Hid & Hcl).
    assert (l' = l) as -> by by eapply Hleaf.
    by eapply climbs_refine. }
  intros id1 id2 c' c1 c2 H1' H2' H1 H2.
  eapply climbs_det; [by eapply (Hdown id1)|by eapply (Hdown id2)].
Qed.

(** ** Termination *)

Lemma iloc_total {A} (col : list A) idx :
  Forall (λ i, i < length col) idx → ∃ xs, iloc col idx = Some xs.
Proof.
  induction 1 as [|i idx Hi _ [xs IH]]; simpl; [eauto|].
  destruct (lookup_lt_is_Some_2 col i Hi) as [x ->]. rewrite IH. eauto.
Qed.

(** With a well-behaved oracle [level_pamk] raises nothing. *)
Lemma level_pamk_ok (dn : Frame) mk off m rs :
  oracle_ok pamk →
  ∃ cd meds rs', level_pamk pamk dn mk off m rs = (Ret (cd, meds), rs').
Proof.
  intros Hor. unfold level_pamk.
  specialize (Hor dn.*2 (seq 1 (min (length dn - 1) mk)) m rs).
  destruct (pamk _ _ _ _) as [[km k] rs']. simpl in *.
  case_bool_decide as Hk; [eauto|].
  destruct (Hor Hk) as (Hlab & Hmed & Hidx & _).
  rewrite length_fmap in Hlab, Hidx.
  destruct (iloc_total dn.*1 (medoid_indices_ km)) as [ms Hms].
  { by rewrite length_fmap. }
  rewrite Hms. apply iloc_length in Hms.
  rewrite !bool_decide_true; [eauto| |lia].
  by rewrite length_fmap.
Qed.

(** With a well-behaved oracle a pass of the loop raises nothing. *)
Lemma fit_iter_ok (st : State) :
  oracle_ok pamk → fit_inv st → incomplete_nodes (self st) ≠ [] →
  ∃ st', fit_iter pamk st = Ret st'.
Proof.
  intros Hor Hinv Hq. unfold fit_iter.
  destruct (incomplete_nodes (self st)) as [|cur rest] eqn:E; [done|].
  simpl.
  destruct (inv_queue _ Hinv) as (c & Hc & Hseq). rewrite E in Hseq.
  symmetry in Hseq. apply queue_head in Hseq as (-> & Hlt & _); [|done].
  destruct (lookup_lt_is_Some_2 (nodes (self st)) c Hlt) as [nd Hnd].
  rewrite Hnd.
  destruct (inv_queued _ Hinv c nd) as [[d Hd] _]; [rewrite E; by left|done|].
  destruct (proj1 (inv_levels _ Hinv c) Hlt) as [l Hl].
  assert (∀ (dn : Frame) lv,
    ∃ st', (if bool_decide (2 < length dn)
            then let '(res, rs) :=
                   level_pamk pamk dn (max_k (pop_front (self st) rest))
                     (length (nodes (pop_front (self st) rest)) - 1)
                     (method (pop_front (self st) rest))
                     (random_state (pop_front (self st) rest)) in
                 res ≫= λ '(clustered_data, meds),
                   let t := set_random_state (pop_front (self st) rest) rs in
                   if bool_decide (1 < length meds)
                   then Ret {| self := release c
                                 (foldl (child_body c lv dn clustered_data)
                                    (accept_split t meds) meds.*1);
                               level := lv; data_node := dn |}
                   else Ret {| self := t; level := lv; data_node := dn |}
            else Ret {| self := pop_front (self st) rest; level := lv;
                        data_node := dn |}) = Ret st') as Hbody.
  { intros dn lv. case_bool_decide; [|eauto].
    destruct (level_pamk_ok dn (max_k (pop_front (self st) rest))
                (length (nodes (pop_front (self st) rest)) - 1)
                (method (pop_front (self st) rest))
                (random_state (pop_front (self st) rest)) Hor)
      as (cd & meds & rs' & ->).
    simpl. case_bool_decide; eauto. }
  case_bool_decide.
  - rewrite Hl. simpl. rewrite Hd. apply Hbody.
  - simpl. apply Hbody.
Qed.

Lemma length_concat_fmap {A B} (f : A → list B) (l : list A) :
  length (concat (f <$> l)) = sum_list_with (λ a, length (f a)) l.
Proof.
  induction l as [|a l IH]; [done|].
  rewrite fmap_cons. cbn [concat sum_list_with]. by rewrite length_app, IH.
Qed.

Lemma sum_weights {A} (f : A → nat) (l : list A) :
  Forall (λ a, 1 ≤ f a) l →
  sum_list_with (λ a, 2 * f a - 1) l + length l = 2 * sum_list_with f l.
Proof.
  induction 1 as [|a l Ha _ IH]; [done|]. cbn [sum_list_with length]. lia.
Qed.

Lemma sum_budget {A} (f : A → nat) (l : list A) :
  Forall (λ a, 1 ≤ f a) l →
  sum_list_with (λ a, 2 * f a - 2) l + 2 * length l = 2 * sum_list_with f l.
Proof.
  induction 1 as [|a l Ha _ IH]; [done|]. cbn [sum_list_with length]. lia.
Qed.

Lemma sum_list_with_ext_in {A} (f g : A → nat) (l : list A) :
  (∀ a, a ∈ l → f a = g a) → sum_list_with f l = sum_list_with g l.
Proof.
  induction l as [|a l IH]; intros Hfg; simpl; [done|].
  rewrite (Hfg a) by left. rewrite IH; [done|]. intros b Hb. apply Hfg.
  by right.
Qed.

(** Every cluster of a split by a well-behaved oracle receives a row. *)
Lemma masked_nonempty (dn : Frame) (labels : list nat) off j :
  length labels = length dn → j ∈ labels →
  1 ≤ length (masked dn (zip dn.*1 ((λ l, l + (off - 1) + 1) <$> labels))
                (j + (off - 1) + 1)).
Proof.
  intros Hlen (i & Hi)%list_elem_of_lookup.
  destruct (lookup_lt_is_Some_2 dn i) as [r Hr].
  { rewrite <- Hlen. by eapply lookup_lt_Some. }
  assert (r ∈ masked dn (zip dn.*1 ((λ l, l + (off - 1) + 1) <$> labels))
                (j + (off - 1) + 1)) as Hin.
  { apply list_elem_of_filter. split; [|by eapply list_elem_of_lookup_2].
    apply elem_ids_of_cluster, elem_of_lookup_zip_with.
    exists i, r.1, (j + (off - 1) + 1). split_and!; [done| |].
    - by rewrite list_lookup_fmap, Hr.
    - by rewrite list_lookup_fmap, Hi. }
  destruct (masked _ _ _); [inversion Hin|simpl; lia].
Qed.

Lemma ids_at_nodes (t t' : Tree) q :
  nodes t' !! q = nodes t !! q → ids_at t' q = ids_at t q.
Proof. unfold ids_at. by intros ->. Qed.

Lemma node_ids_nodup (ns : list ANode) i nd :
  NoDup (leaf_ids ns) → ns !! i = Some nd → NoDup (node_ids nd).
Proof.
  intros Hnd Hi.
  rewrite (leaf_ids_alter del_data ns i nd Hi eq_refl) in Hnd.
  by apply NoDup_app in Hnd as (? & _ & _).
Qed.

(** A pass of the loop uses up some of the work left in the queue. *)
Lemma step_progress (st st' : State) :
  labels_in_range pamk → oracle_ok pamk →
  fit_inv st → NoDup (leaf_ids (nodes (self st))) → queue_rows st →
  node_rows st →
  fit_iter pamk st = Ret st' →
  queue_rows st' ∧ queue_weight st' < queue_weight st ∧
  node_rows st' ∧ tree_budget st' ≤ tree_budget st.
Proof.
  intros Hlab Hor Hinv Hnd Hrows Hnr Hit. apply fit_iter_Ret in Hit.
  assert (Hpop : ∀ cur rest nd dn,
    incomplete_nodes (self st) = cur :: rest →
    nodes (self st) !! cur = Some nd → data nd = Some dn →
    nodes (self st') = nodes (self st) →
    incomplete_nodes (self st') = rest →
    queue_rows st' ∧ queue_weight st' < queue_weight st ∧
    node_rows st' ∧ tree_budget st' ≤ tree_budget st).
  { intros cur rest nd dn Hq Hcur Hd Hn Hq'.
    assert (Hsame : ∀ q, ids_at (self st') q = ids_at (self st) q)
      by (intros q; apply ids_at_nodes; by rewrite Hn).
    split_and!.
    - intros q Hin. rewrite Hsame. apply Hrows. rewrite Hq. right.
      by rewrite <- Hq'.
    - unfold queue_weight. rewrite Hq, Hq'. cbn [sum_list_with].
      rewrite (sum_list_with_ext_in _
                 (λ q, 2 * length (ids_at (self st) q) - 1) rest)
        by (intros; by rewrite Hsame).
      assert (1 ≤ length (ids_at (self st) cur))
        by (apply Hrows; rewrite Hq; by left).
      lia.
    - unfold node_rows. by rewrite Hn.
    - unfold tree_budget. rewrite Hq, Hq', Hn. cbn [sum_list_with].
      rewrite (sum_list_with_ext_in _
                 (λ q, 2 * length (ids_at (self st) q) - 2) rest)
        by (intros; by rewrite Hsame).
      lia. }
  destruct Hit as [cur rest nd dn Hq Hcur Hloc Hdn Hlen Hs
                  |cur rest nd dn cd meds rs Hq Hcur Hloc Hdn Hlen Hlp Hm Hs
                  |cur rest nd dn cd meds rs Hq Hcur Hloc Hdn Hlen Hlp Hm Hs];
    destruct (current_level st st' cur rest nd dn) as [Hlv Hd]; try done.
  - eapply Hpop; eauto; by rewrite Hs.
  - eapply Hpop; eauto; by rewrite Hs.
  - pose proof (inv_nonempty _ Hinv) as Hne.
    destruct (split_shape pamk st st' cur rest nd dn cd meds rs)
      as (km & k & Hsh); try done.
    simpl in Hsh.
    destruct Hsh as (Hpam & Hk & _ & _ & Hll & Hcd & Hn & Hq' & _).
    set (a := length (nodes (self st))) in *.
    specialize (Hlab dn.*2 (seq 1 (min (length dn - 1) (max_k (self st))))
                  (method (self st)) (random_state (self st))).
    specialize (Hor dn.*2 (seq 1 (min (length dn - 1) (max_k (self st))))
                  (method (self st)) (random_state (self st))).
    rewrite Hpam in Hlab, Hor. simpl in Hlab, Hor.
    destruct Hor as (_ & _ & _ & Hsurj); [lia|].
    destruct (inv_queue _ Hinv) as (c & Hc & Hseq). rewrite Hq in Hseq.
    symmetry in Hseq. apply queue_head in Hseq as (-> & Hlt & Hrest); [|done].
    fold a in Hlt, Hrest.
    assert (Hold : ∀ q, q ∈ rest →
              ids_at (self st') q = ids_at (self st) q).
    { intros q Hin. rewrite Hrest in Hin. apply elem_of_seq in Hin.
      apply ids_at_nodes.
      rewrite Hn, lookup_app_l by (rewrite length_alter; lia).
      apply list_lookup_alter_ne. lia. }
    assert (Hnew : ∀ n, n ∈ seq a k →
              ids_at (self st') n = (masked dn cd n).*1).
    { intros n Hin%elem_of_seq. unfold ids_at.
      rewrite Hn, split_lookup_new by done. done. }
    assert (Hone : ∀ n, n ∈ seq a k → 1 ≤ length (masked dn cd n).*1).
    { intros n Hin%elem_of_seq. rewrite length_fmap, Hcd.
      replace n with ((n - a) + (a - 1) + 1) by lia.
      apply masked_nonempty; [done|]. apply Hsurj. lia. }
    assert (length (concat ((λ n, (masked dn cd n).*1) <$> seq a k))
            = length dn) as Hall.
    { rewrite Hcd, masked_partition, ?length_fmap; try done.
      eapply (node_ids_nodup _ c nd) in Hnd; [|done].
      unfold node_ids in Hnd. by rewrite Hd in Hnd. }
    assert (Hcurids : length (ids_at (self st) c) = length dn).
    { unfold ids_at. rewrite Hcur. unfold node_ids. rewrite Hd.
      by rewrite length_fmap. }
    split_and!.
    + intros q. rewrite Hq'. intros [Hin|Hin]%elem_of_app.
      * rewrite Hold by done. apply Hrows. rewrite Hq. by right.
      * rewrite Hnew by done. by apply Hone.
    + unfold queue_weight. rewrite Hq, Hq', sum_list_with_app.
      cbn [sum_list_with].
      rewrite (sum_list_with_ext_in _
                 (λ q, 2 * length (ids_at (self st) q) - 1) rest)
        by (intros q Hin; by rewrite Hold).
      rewrite (sum_list_with_ext_in _
                 (λ n, 2 * length (masked dn cd n).*1 - 1) (seq a k))
        by (intros n Hin; by rewrite Hnew).
      pose proof (sum_weights (λ n, length (masked dn cd n).*1) (seq a k))
        as Hsum.
      rewrite length_seq, <- length_concat_fmap, Hall in Hsum.
      specialize (Hsum ltac:(by apply Forall_forall)).
      rewrite Hcurids. lia.
    + intros i x d Hx Hdx. rewrite Hn in Hx.
      apply split_lookup in Hx
        as [(Hi & y & Hy & _ & _ & [[-> ->]|[Hne' ->]])|(Hi & ->)];
        [| | |done].
      * done.
      * by apply (Hnr i y).
      * simpl in Hdx. injection Hdx as <-.
        rewrite <- (length_fmap fst). apply Hone. apply elem_of_seq. lia.
    + unfold tree_budget. rewrite Hq, Hq', sum_list_with_app.
      cbn [sum_list_with].
      rewrite (sum_list_with_ext_in _
                 (λ q, 2 * length (ids_at (self st) q) - 2) rest)
        by (intros q Hin; by rewrite Hold).
      rewrite (sum_list_with_ext_in _
                 (λ n, 2 * length (masked dn cd n).*1 - 2) (seq a k))
        by (intros n Hin; by rewrite Hnew).
      pose proof (sum_budget (λ n, length (masked dn cd n).*1) (seq a k))
        as Hsum.
      rewrite length_seq, <- length_concat_fmap, Hall in Hsum.
      specialize (Hsum ltac:(by apply Forall_forall)).
      rewrite Hn, length_app, length_alter, length_fmap, length_seq.
      fold a. rewrite Hcurids. lia.
Qed.

(** The loop ends within as many passes as the queue weighs, and the
    tree stays within its budget. *)
Lemma fit_loop_total mk meth (rs : Rng) (table : Frame) fuel (st : State) :
  labels_in_range pamk → oracle_ok pamk → NoDup table.*1 →
  reach scaler pamk (init mk meth rs) table st →
  queue_rows st → node_rows st → queue_weight st ≤ fuel →
  ∃ st', fit_loop pamk fuel st = Ret st' ∧ node_rows st' ∧
         length (nodes (self st')) ≤ tree_budget st.
Proof.
  intros Hlab Hor Hnd. revert st.
  induction fuel as [|fuel IH]; intros st Hr Hrows Hnr Hw.
  - simpl. destruct (incomplete_nodes (self st)) as [|q qs] eqn:Hq.
    { exists st. unfold tree_budget. rewrite Hq. simpl. split_and!; [done..|lia]. }
    exfalso. unfold queue_weight in Hw. rewrite Hq in Hw.
    cbn [sum_list_with] in Hw.
    assert (1 ≤ length (ids_at (self st) q))
      by (apply Hrows; rewrite Hq; by left).
    lia.
  - simpl. destruct (incomplete_nodes (self st)) as [|q qs] eqn:Hq.
    { exists st. unfold tree_budget. rewrite Hq. simpl. split_and!; [done..|lia]. }
    pose proof (reach_inv _ _ _ _ _ _ _ Hr) as Hinv.
    destruct (fit_iter_ok st Hor Hinv) as [st1 Hit]; [by rewrite Hq|].
    rewrite Hit. simpl.
    destruct (step_progress st st1 Hlab Hor Hinv)
      as (Hrows1 & Hlt & Hnr1 & Hb); [|done..|].
    { rewrite (reach_partition _ _ _ _ _ _ _ Hlab Hnd Hr). done. }
    destruct (IH st1) as (st' & Hst' & Hnr' & Hlen);
      [by eapply reach_iter|done|done|lia|].
    exists st'. split_and!; [done..|lia].
Qed.

Lemma fit_loop_more_fuel fuel fuel' (st st' : State) :
  fit_loop pamk fuel st = Ret st' → fuel ≤ fuel' →
  fit_loop pamk fuel' st = Ret st'.
Proof.
  revert fuel' st. induction fuel as [|fuel IH]; intros fuel' st; simpl.
  - destruct (incomplete_nodes (self st)) eqn:Hq; [|done].
    intros [= <-] _. destruct fuel'; simpl; by rewrite Hq.
  - destruct (incomplete_nodes (self st)) eqn:Hq.
    + intros [= <-] _. destruct fuel'; simpl; by rewrite Hq.
    + destruct (fit_iter pamk st) as [st1| |] eqn:Hit; simpl; [|done..].
      intros Hl Hle. destruct fuel' as [|fuel']; [lia|]. simpl.
      rewrite Hq, Hit. simpl. apply IH; [done|lia].
Qed.

Lemma leaves_bounded (ns : list ANode) :
  (∀ i nd d, ns !! i = Some nd → data nd = Some d → 1 ≤ length d) →
  length (filter (λ n, has_data n = true) ns) ≤ length (leaf_ids ns).
Proof.
  induction ns as [|n ns IH]; intros Hrows; [done|].
  unfold leaf_ids. rewrite fmap_cons. cbn [concat]. rewrite length_app.
  fold (leaf_ids ns). rewrite filter_cons.
  assert (length (filter (λ n, has_data n = true) ns) ≤ length (leaf_ids ns))
    as IH' by (apply IH; intros i; apply (Hrows (S i))).
  case_decide as Hd; [|lia]. simpl.
  unfold has_data in Hd. unfold node_ids.
  destruct (data n) as [d|] eqn:E; [|done].
  specialize (Hrows 0 n d eq_refl E). rewrite length_fmap. lia.
Qed.

(** X8. [fit] terminates: on a non-empty table with unique row ids, with
    an oracle that labels every row in range, names its medoids among
    the rows and leaves none of its clusters empty, [fit] raises nothing
    and returns the same tree for every number of passes allowed from
    twice the number of rows on.  That tree has at most one leaf per
    row and fewer nodes than twice the number of rows. *)
Theorem fit_terminates mk meth (rs : Rng) (table : Frame) :
  labels_in_range pamk → oracle_ok pamk → NoDup table.*1 → table ≠ [] →
  ∃ t, (∀ fuel, 2 * length table ≤ fuel →
          fit scaler pamk fuel (init mk meth rs) table = Ret t) ∧
       length (nodes t) < 2 * length table ∧
       length (leaf_nodes_idx t) ≤ length table.
Proof.
  intros Hlab Hor Hnd Hne.
  set (start := fit_start scaler (init mk meth rs) table).
  assert (Hids : length (ids_at (self start) 0) = length table).
  { unfold ids_at, node_ids. simpl. by rewrite !length_fmap. }
  assert (0 < length table) as Hpos by (destruct table; [done|simpl; lia]).
  assert (Hrows : queue_rows start).
  { intros q Hq. apply list_elem_of_singleton in Hq as ->. rewrite Hids. lia. }
  assert (Hnr : node_rows start).
  { intros [|i] nd d; [|done]. intros [= <-] [= <-].
    rewrite length_fmap. lia. }
  assert (Hw : queue_weight start ≤ 2 * length table).
  { unfold queue_weight. change (incomplete_nodes (self start)) with [0].
    cbn [sum_list_with]. rewrite Hids. lia. }
  assert (Hb : tree_budget start = 2 * length table - 1).
  { unfold tree_budget. change (incomplete_nodes (self start)) with [0].
    cbn [sum_list_with]. rewrite Hids. simpl. lia. }
  destruct (fit_loop_total mk meth rs table (2 * length table) start
              Hlab Hor Hnd (reach_start _ _ _ _) Hrows Hnr Hw)
    as (st & Hst & Hnr' & Hlen).
  exists (set_leaves (self st)). split_and!.
  - intros fuel Hfuel. unfold fit.
    fold start. by rewrite (fit_loop_more_fuel _ fuel _ _ Hst Hfuel).
  - simpl. lia.
  - simpl. rewrite length_fmap.
    etrans; [apply leaves_bounded, Hnr'|].
    apply (fit_loop_reach scaler pamk (init mk meth rs) table) in Hst
      as [Hr _]; [|constructor].
    by rewrite (reach_partition _ _ _ _ _ _ _ Hlab Hnd Hr), length_fmap.
Qed.

(** ** Errors of [level_pamk] and of [Node.remove_child] *)

Lemma iloc_out_of_range {A} (col : list A) idx i :
  i ∈ idx → length col ≤ i → iloc col idx = None.
Proof.
  induction idx as [|j idx IH]; intros Hin Hi; [inversion Hin|]. simpl.
  apply elem_of_cons in Hin as [<-|Hin].
  - by rewrite (lookup_ge_None_2 col i Hi).
  - rewrite (IH Hin Hi). by destruct (col !! j).
Qed.

(** X9. What [level_pamk] does with the oracle's answer [(km, k)]: the
    generator state is the oracle's in every case; [k = 1] gives two
    empty tables; otherwise a medoid index beyond the rows is an
    IndexError, a wrong number of medoids or of labels a ValueError, and
    a success lists the ids of the rows in order, each with a cluster id
    above [offset], and the cluster ids [offset + 1 .. offset + k]. *)
Theorem level_pamk_outcomes (dn : Frame) mk off m rs :
  let answer := pamk dn.*2 (seq 1 (min (length dn - 1) mk)) m rs in
  let km := answer.1.1 in
  let k := answer.1.2 in
  let out := level_pamk pamk dn mk off m rs in
  out.2 = answer.2 ∧
  (k = 1 → out.1 = Ret ([], [])) ∧
  (k ≠ 1 → (∃ i, i ∈ medoid_indices_ km ∧ length dn ≤ i) →
     out.1 = Raise IndexError) ∧
  (k ≠ 1 → Forall (λ i, i < length dn) (medoid_indices_ km) →
     length (medoid_indices_ km) ≠ k ∨ length (labels_ km) ≠ length dn →
     ∃ msg, out.1 = Raise (ValueError msg)) ∧
  (k ≠ 1 → ∀ cd meds, out.1 = Ret (cd, meds) →
     cd.*1 = dn.*1 ∧ meds.*1 = seq (off + 1) k ∧
     cd.*2 = (λ l, l + off + 1) <$> labels_ km).
Proof.
  intros answer km k out. unfold out, level_pamk. fold answer.
  destruct answer as [[km' k'] rs'] eqn:E. simpl in km, k. unfold km, k.
  clear km k out. simpl. split_and!.
  - case_bool_decide; [done|]. destruct (iloc _ _); [|done].
    by repeat case_bool_decide.
  - intros ->. by rewrite bool_decide_true.
  - intros Hk (i & Hin & Hi). rewrite bool_decide_false by done.
    rewrite (iloc_out_of_range dn.*1 _ i Hin); [done|].
    by rewrite length_fmap.
  - intros Hk Hidx Hbad. rewrite bool_decide_false by done.
    destruct (iloc_total dn.*1 (medoid_indices_ km')) as [ms Hms].
    { by rewrite length_fmap. }
    rewrite Hms. apply iloc_length in Hms.
    case_bool_decide as H1; [|eauto]. case_bool_decide as H2; [|eauto].
    rewrite length_fmap in H2. destruct Hbad; [lia|done].
  - intros Hk cd meds. rewrite bool_decide_false by done.
    destruct (iloc _ _) as [ms|] eqn:Hms; [|done].
    case_bool_decide as H1; [|done]. case_bool_decide as H2; [|done].
    simpl. intros [= <- <-]. rewrite length_fmap in H2. split_and!.
    + rewrite fst_zip; [done|]. rewrite !length_fmap. lia.
    + rewrite fst_zip; [done|]. rewrite length_seq. lia.
    + rewrite snd_zip; [done|]. rewrite !length_fmap. lia.
Qed.

Lemma list_remove_snoc x l : x ∉ l → list_remove x (l ++ [x]) = Some l.
Proof.
  induction l as [|y l IH]; intros Hx; simpl.
  - by rewrite decide_True.
  - apply not_elem_of_cons in Hx as [Hne Hx].
    rewrite decide_False by done. by rewrite IH.
Qed.

Lemma list_remove_spec x l :
  match list_remove x l with
  | None => x ∉ l
  | Some l' => l ≡ₚ x :: l' ∧ l' `sublist_of` l
  end.
Proof.
  induction l as [|y l IH]; simpl; [by intros ?%elem_of_nil|].
  case_decide as Hxy.
  - subst. split; [done|]. by apply sublist_cons.
  - destruct (list_remove x l) as [l'|]; simpl.
    + destruct IH as [IH1 IH2]. split; [|by apply sublist_skip].
      rewrite IH1. apply perm_swap.
    + intros [?|?]%elem_of_cons; done.
Qed.

(** X10. [Node.remove_child] raises a ValueError exactly when the child
    is not listed; otherwise it drops one occurrence of it and keeps
    the other children in order, and nothing else of the node changes.
    Removing a child just added gives the node back when the child was
    not listed before. *)
Theorem remove_child_spec (c : nat) (n : ANode) :
  (c ∉ children_nodes n ↔ ∃ msg, remove_child c n = Raise (ValueError msg)) ∧
  (∀ n', remove_child c n = Ret n' →
     children_nodes n ≡ₚ c :: children_nodes n' ∧
     children_nodes n' `sublist_of` children_nodes n ∧
     name n' = name n ∧ parent_node n' = parent_node n ∧ data n' = data n) ∧
  (c ∉ children_nodes n → remove_child c (add_child c n) = Ret n).
Proof.
  unfold remove_child. pose proof (list_remove_spec c (children_nodes n)) as Hs.
  split_and!.
  - destruct (list_remove c (children_nodes n)) as [l'|].
    + destruct Hs as [Hp _]. split; [|by intros [? ?]].
      intros Hc. exfalso. apply Hc. rewrite Hp. by left.
    + split; [eauto|done].
  - intros n'. destruct (list_remove c (children_nodes n)) as [l'|]; [|done].
    intros [= <-]. simpl. tauto.
  - intros Hc. simpl. rewrite list_remove_snoc by done. by destruct n.
Qed.

End Facts.
(** ** The theorems at the instance [Demo] *)

Lemma demo_oracle_ok : oracle_ok Demo.pamk.
Proof.
  intros X krange meth calls. unfold Demo.pamk.
  set (labels := (λ x, (x / 2 ^ calls) mod 2) <$> X).
  destruct (bool_decide (Forall (λ l, l = 0) labels)) eqn:H0; [done|].
  destruct (bool_decide (Forall (λ l, l = 1) labels)) eqn:H1; [done|].
  cbn [orb fst snd labels_ medoid_indices_]. intros _.
  apply bool_decide_eq_false in H0, H1.
  apply not_Forall_Exists in H0; [|intros ?; apply _].
  apply not_Forall_Exists in H1; [|intros ?; apply _].
  apply Exists_exists in H0 as (a & Ha & Hna).
  apply Exists_exists in H1 as (b & Hb & Hnb).
  assert (∀ l, l ∈ labels → l < 2) as Hlt.
  { intros l Hl. apply list_elem_of_fmap in Hl as (x & -> & _).
    apply Nat.mod_upper_bound. lia. }
  unfold compose in Hna, Hnb.
  assert (a = 1) as -> by (apply Hlt in Ha; lia).
  assert (b = 0) as -> by (apply Hlt in Hb; lia).
  assert (2 ≤ length X) as Hlen.
  { apply list_elem_of_lookup in Ha as [i Hi], Hb as [j Hj].
    assert (i ≠ j) by (intros ->; congruence).
    apply lookup_lt_Some in Hi, Hj. unfold labels in Hi, Hj.
    rewrite length_fmap in Hi, Hj. lia. }
  split_and!.
  - unfold labels. by rewrite length_fmap.
  - done.
  - repeat constructor; lia.
  - intros j Hj. destruct j as [|[|j]]; [done|done|lia].
Qed.

Lemma demo_table_nonempty : Demo.table ≠ [].
Proof. by vm_compute. Qed.

Lemma tree_shape_witness :
  fit Demo.scaler Demo.pamk 20 (init 10 "pam" 0) Demo.table = Ret Demo.tree ∧
  ∀ i nd, nodes Demo.tree !! i = Some nd →
    (data nd = None ↔ children_nodes nd ≠ []) ∧
    NoDup (children_nodes nd) ∧
    (children_nodes nd = [] ∨ 2 ≤ length (children_nodes nd)).
Proof.
  split; [exact demo_fit|].
  exact (proj1 (tree_shape Demo.scaler Demo.pamk 20 10 "pam" 0 Demo.table
                  Demo.tree demo_fit)).
Defined.

Lemma rows_from_scaled_table_witness :
  fit Demo.scaler Demo.pamk 20 (init 10 "pam" 0) Demo.table = Ret Demo.tree ∧
  ∀ i nd d, nodes Demo.tree !! i = Some nd → data nd = Some d →
    d `sublist_of` scaled_table Demo.scaler Demo.table.
Proof.
  split; [exact demo_fit|].
  exact (rows_from_scaled_table Demo.scaler Demo.pamk 20 10 "pam" 0
           Demo.table Demo.tree demo_fit).
Defined.

Lemma medoid_table_entries_witness :
  fit Demo.scaler Demo.pamk 20 (init 10 "pam" 0) Demo.table = Ret Demo.tree ∧
  ∀ c id, (c, id) ∈ medoids Demo.tree →
    1 ≤ c < length (nodes Demo.tree) ∧ id ∈ Demo.table.*1.
Proof.
  split; [exact demo_fit|].
  exact (medoid_table_entries Demo.scaler Demo.pamk 20 10 "pam" 0
           Demo.table Demo.tree demo_fit).
Defined.

Lemma level_index_witness :
  fit Demo.scaler Demo.pamk 20 (init 10 "pam" 0) Demo.table = Ret Demo.tree ∧
  ∃ N, num_levels Demo.tree = Ret N ∧
       ∀ l, l < N ↔ ∃ n, nodes2levels Demo.tree !! n = Some l.
Proof.
  split; [exact demo_fit|].
  exact (proj2 (proj2 (proj2 (proj2
           (level_index Demo.scaler Demo.pamk 20 10 "pam" 0 Demo.table
              Demo.tree demo_fit))))).
Defined.

Lemma never_split_witness :
  (∀ X krange m r, (DemoMore.pamk_one X krange m r).1.2 = 1) ∧
  ∃ t, fit Demo.scaler DemoMore.pamk_one 1 (init 10 "pam" 0) Demo.table
       = Ret t ∧
       nodes t
       = [new_node 0 None (Some (scaled_table Demo.scaler Demo.table))] ∧
       leaf_nodes_idx t = [0] ∧ medoids t = [] ∧ incomplete_nodes t = [].
Proof.
  assert (∀ X krange m r, (DemoMore.pamk_one X krange m r).1.2 = 1) as Hone
    by reflexivity.
  split; [exact Hone|].
  exact (never_split Demo.scaler DemoMore.pamk_one 0 10 "pam" 0 Demo.table
           Hone).
Defined.


Lemma clusters_nested_witness :
  labels_in_range Demo.pamk ∧ NoDup Demo.table.*1 ∧
  fit Demo.scaler Demo.pamk 20 (init 10 "pam" 0) Demo.table = Ret Demo.tree ∧
  1 ≤ 2 ∧ length (nodes Demo.tree) ≤ 20 ∧
  ∃ res res',
    get_clusters 20 Demo.tree (Some 1) = Ret res ∧
    get_clusters 20 Demo.tree (Some 2) = Ret res' ∧
    ∀ id1 id2 c' c1 c2,
      (id1, c') ∈ res' → (id2, c') ∈ res' →
      (id1, c1) ∈ res → (id2, c2) ∈ res → c1 = c2.
Proof.
  assert (1 ≤ 2) as Hle by lia.
  assert (length (nodes Demo.tree) ≤ 20) as Hfuel by (vm_compute; lia).
  split_and!; [exact demo_labels_in_range|exact demo_table_nodup|
               exact demo_fit|exact Hle|exact Hfuel|].
  eexists _, _.
  assert (∀ res res' (H1 : get_clusters 20 Demo.tree (Some 1) = Ret res)
            (H2 : get_clusters 20 Demo.tree (Some 2) = Ret res'),
    get_clusters 20 Demo.tree (Some 1) = Ret res ∧
    get_clusters 20 Demo.tree (Some 2) = Ret res' ∧
    ∀ id1 id2 c' c1 c2,
      (id1, c') ∈ res' → (id2, c') ∈ res' →
      (id1, c1) ∈ res → (id2, c2) ∈ res → c1 = c2) as Hall.
  { intros res res' H1 H2. split_and!; [exact H1|exact H2|].
    exact (clusters_nested Demo.scaler Demo.pamk 20 10 "pam" 0 Demo.table
             Demo.tree 1 2 20 20 res res' demo_labels_in_range
             demo_table_nodup demo_fit Hle Hfuel Hfuel H1 H2). }
  apply Hall; vm_compute; reflexivity.
Defined.

Lemma fit_terminates_witness :
  labels_in_range Demo.pamk ∧ oracle_ok Demo.pamk ∧ NoDup Demo.table.*1 ∧
  Demo.table ≠ [] ∧
  ∃ t, (∀ fuel, 2 * length Demo.table ≤ fuel →
          fit Demo.scaler Demo.pamk fuel (init 10 "pam" 0) Demo.table
          = Ret t) ∧
       length (nodes t) < 2 * length Demo.table ∧
       length (leaf_nodes_idx t) ≤ length Demo.table.
Proof.
  split_and!; [exact demo_labels_in_range|exact demo_oracle_ok|
               exact demo_table_nodup|exact demo_table_nonempty|].
  exact (fit_terminates Demo.scaler Demo.pamk 10 "pam" 0 Demo.table
           demo_labels_in_range demo_oracle_ok demo_table_nodup
           demo_table_nonempty).
Defined.

Lemma level_pamk_outcomes_witness :
  (Demo.pamk Demo.table.*2 (seq 1 (min (length Demo.table - 1) 10)) "pam" 0).1.2
    ≠ 1 ∧
  ∀ cd meds,
    (level_pamk Demo.pamk Demo.table 10 0 "pam" 0).1 = Ret (cd, meds) →
    cd.*1 = Demo.table.*1 ∧ meds.*1 = seq (0 + 1) 2.
Proof.
  assert ((Demo.pamk Demo.table.*2
             (seq 1 (min (length Demo.table - 1) 10)) "pam" 0).1.2 ≠ 1)
    as Hk by (by vm_compute).
  split; [exact Hk|]. intros cd meds Hrun.
  destruct (proj2 (proj2 (proj2 (proj2
              (level_pamk_outcomes Demo.pamk Demo.table 10 0 "pam" 0))))
              Hk cd meds Hrun) as (Hids & Hmeds & _).
  split; [exact Hids|exact Hmeds].
Defined.

Lemma remove_child_spec_witness :
  (1 ∉ children_nodes (new_node (Id:=nat) (Feat:=nat) 0 None None)) ∧
  remove_child 1 (add_child 1 (new_node (Id:=nat) (Feat:=nat) 0 None None))
  = Ret (new_node 0 None None).
Proof.
  assert (1 ∉ children_nodes (new_node (Id:=nat) (Feat:=nat) 0 None None))
    as Hnot by apply not_elem_of_nil.
  split; [exact Hnot|].
  exact (proj2 (proj2 (remove_child_spec 1 (new_node 0 None None))) Hnot).
Defined.


End TreeMoreFacts.


(** * Further properties of the discretizer *)

Module SpectralMoreFacts.
Import Spectral SpectralFacts.

Local Open Scope R_scope.

Section Labels.

Context `{Rounding} {Rng : Type}.
Variable randint : Rng → nat → nat * Rng.
Variable svd : Matrix → option (Matrix * Vector * Matrix).
Variable max_svd_restarts n_iter_max : nat.

Lemma argmax_from_bound best_i best i (v : Vector) :
  (best_i < i)%nat → (argmax_from best_i best i v < i + length v)%nat.
Proof.
  revert best_i best i. induction v as [|x v IH]; intros best_i best i Hi;
    simpl; [lia|].
  destruct (negb (is_nan best) && (is_nan x || flt best x)).
  - specialize (IH i x (S i) ltac:(lia)). lia.
  - specialize (IH best_i best (S i) ltac:(lia)). lia.
Qed.

Lemma argmax_lt (v : Vector) : v ≠ [] → (argmax v < length v)%nat.
Proof.
  destruct v as [|x v]; [done|]. intros _. unfold argmax.
  pose proof (argmax_from_bound 0 x 1 v ltac:(lia)). simpl. lia.
Qed.

(** The labels of a pass: one per sample, each naming a component. *)
Lemma labels_of_range d (vectors rotation : Matrix) :
  length (labels_of d vectors rotation) = length vectors ∧
  ((0 < d)%nat → Forall (λ l, (l < d)%nat) (labels_of d vectors rotation)).
Proof.
  unfold labels_of. split.
  - by rewrite length_fmap, length_mat_mul.
  - intros Hd. apply Forall_fmap.
    eapply Forall_impl; [apply (mat_mul_rows d vectors rotation)|].
    intros r Hr. simpl. rewrite <- Hr. apply argmax_lt.
    destruct r; [simpl in Hr; lia|done].
Qed.

Lemma inner_loop_converged_labels fuel vectors n d rotation last n_iter r
    labels r' :
  inner_loop svd n_iter_max fuel vectors n d rotation last n_iter r
    = Converged labels r' →
  ∃ rotation', labels = labels_of d vectors rotation'.
Proof.
  revert rotation last n_iter r. induction fuel as [|fuel IH];
    intros rotation last n_iter r; simpl; [done|].
  destruct (svd _) as [[[U s] Vh]|]; [|done].
  destruct (_ || _); [intros [= <- _]; eauto|apply IH].
Qed.

Lemma length_set_column_min (M : Matrix) i v :
  length (set_column M i v) = min (length M) (length v).
Proof. unfold set_column. apply length_zip_with. Qed.

Lemma length_normalize_column b (M : Matrix) i :
  length (normalize_column b M i) = length M.
Proof.
  unfold normalize_column.
  assert (∀ (N : Matrix) (g : float → float),
            length (set_column N i (g <$> column N i)) = length N) as Hset.
  { intros N g. rewrite length_set_column_min, length_fmap, length_column. lia. }
  destruct (is_zero _); by rewrite ?Hset.
Qed.

Lemma length_normalize_columns (V : Matrix) :
  length (normalize_columns V) = length V.
Proof.
  unfold normalize_columns. generalize (fsqrt (of_nat (shape V).1)).
  generalize (seq 0 (shape V).2). intros l b. revert V.
  induction l as [|i l IH]; intros V; [done|]. simpl.
  by rewrite IH, length_normalize_column.
Qed.

(** X11. For an embedding with at least one sample and one component,
    when [randint] answers below its argument, the SVD never fails and
    answers square factors of the size of its argument, and at least one
    restart is allowed, [discretize] raises nothing: given
    [n_iter_max + 2] units of fuel it returns one label per sample, each
    below the number of components. *)
Theorem discretize_returns_labels fuel (vectors : Matrix) (rs : Rng) :
  (0 < (shape vectors).1)%nat → (0 < (shape vectors).2)%nat →
  Forall (λ r, length r = (shape vectors).2) vectors →
  (∀ rs n, (0 < n)%nat → ((randint rs n).1 < n)%nat) →
  (∀ M, ∃ U s Vh,
     svd M = Some (U, s, Vh) ∧ length s = length M ∧
     length U = length M ∧ Forall (λ r, length r = length M) U ∧
     length Vh = length M ∧ Forall (λ r, length r = length M) Vh) →
  (0 < max_svd_restarts)%nat →
  (n_iter_max + 2 <= fuel)%nat →
  ∃ labels,
    discretize randint svd max_svd_restarts n_iter_max fuel vectors rs
      = Ret labels ∧
    length labels = length vectors ∧
    Forall (λ l, (l < (shape vectors).2)%nat) labels.
Proof.
  intros Hn Hd _ _ Hsvd Hmax Hfuel. unfold discretize.
  assert (∀ M, is_Some (svd M)) as Hsome.
  { intros M. destruct (Hsvd M) as (U & s & Vh & -> & _). by eexists. }
  destruct (shape vectors) as [n d] eqn:Hshape. simpl in Hn, Hd.
  destruct fuel as [|fuel]; [lia|]. simpl.
  rewrite (proj2 (Nat.ltb_lt _ _) Hmax).
  rewrite (proj2 (Nat.eqb_neq n 0)) by lia.
  destruct (randint rs n) as [k rs'].
  rewrite (proj2 (Nat.eqb_neq d 0)) by lia.
  set (V := normalize_rows (normalize_columns vectors)).
  destruct (inner_loop_cap svd n_iter_max fuel V n d
              (init_rotation V n d k) (Fin 0) 0 0 Hsome ltac:(lia))
    as (labels & r' & Hin).
  rewrite Hin. exists labels. split; [done|].
  apply inner_loop_converged_labels in Hin as [rot ->].
  destruct (labels_of_range d V rot) as [Hlen Hrange].
  split; [|by apply Hrange]. rewrite Hlen. unfold V, normalize_rows.
  by rewrite length_fmap, length_normalize_columns.
Qed.

End Labels.

(** ** The theorem at the instance [SpectralDemo] *)

#[local] Existing Instance SpectralDemo.exact.

Lemma demo_svd_identity (M : Matrix) :
  ∃ U s Vh,
    SpectralDemo.svd_identity M = Some (U, s, Vh) ∧ length s = length M ∧
    length U = length M ∧ Forall (λ r, length r = length M) U ∧
    length Vh = length M ∧ Forall (λ r, length r = length M) Vh.
Proof.
  assert (length (SpectralDemo.eye (length M)) = length M ∧
          Forall (λ r, length r = length M) (SpectralDemo.eye (length M)))
    as [Hlen Hrect].
  { unfold SpectralDemo.eye. split; [by rewrite length_fmap, length_seq|].
    apply Forall_fmap, Forall_forall. intros i _. simpl.
    by rewrite length_insert, length_replicate. }
  eexists _, _, _. split; [reflexivity|].
  by rewrite length_replicate.
Qed.

Lemma discretize_returns_labels_witness :
  (0 < (shape (SpectralDemo.eye 2)).1)%nat ∧
  (0 < (shape (SpectralDemo.eye 2)).2)%nat ∧
  Forall (λ r : Vector, length r = (shape (SpectralDemo.eye 2)).2)
    (SpectralDemo.eye 2) ∧
  (∀ rs n, (0 < n)%nat → ((SpectralDemo.randint rs n).1 < n)%nat) ∧
  (0 < 30)%nat ∧ (20 + 2 <= 22)%nat ∧
  ∃ labels,
    discretize SpectralDemo.randint SpectralDemo.svd_identity 30 20 22
      (SpectralDemo.eye 2) 0%nat = Ret labels ∧
    length labels = length (SpectralDemo.eye 2) ∧
    Forall (λ l, (l < (shape (SpectralDemo.eye 2)).2)%nat) labels.
Proof.
  assert (0 < (shape (SpectralDemo.eye 2)).1)%nat as Hn by (simpl; lia).
  assert (0 < (shape (SpectralDemo.eye 2)).2)%nat as Hd by (simpl; lia).
  assert (Forall (λ r : Vector, length r = (shape (SpectralDemo.eye 2)).2)
            (SpectralDemo.eye 2)) as Hrect by (by repeat constructor).
  assert (∀ rs n, (0 < n)%nat → ((SpectralDemo.randint rs n).1 < n)%nat)
    as Hrand by (intros rs n Hpos; exact Hpos).
  assert (0 < 30)%nat as Hmax by lia.
  assert (20 + 2 <= 22)%nat as Hfuel by lia.
  split_and!; [exact Hn|exact Hd|exact Hrect|exact Hrand|exact Hmax|
               exact Hfuel|].
  exact (discretize_returns_labels SpectralDemo.randint
           SpectralDemo.svd_identity 30 20 22 (SpectralDemo.eye 2) 0%nat
           Hn Hd Hrect Hrand demo_svd_identity Hmax Hfuel).
Defined.

End SpectralMoreFacts.


(** * Properties of the driver and of the estimator *)

Module EstimatorFacts.
Import Spectral Estimator.

Local Open Scope R_scope.

Lemma io_bind_ret {A B} (m : IO A) (k : A → IO B) log b log' :
  io_bind m k log = (Ret b, log') →
  ∃ a l, m log = (Ret a, l) ∧ k a l = (Ret b, log').
Proof.
  unfold io_bind. destruct (m log) as [[a| |] l]; [|done..]. by eauto.
Qed.

Lemma call_ret {A} ev (answer : lib A) log a log' :
  call ev answer log = (Ret a, log') → answer = LibOk a ∧ log' = log ++ [ev].
Proof. unfold call. destruct answer; [|done]. by intros [= -> <-]. Qed.

Section Pipeline.

Context `{Rounding} {Seed Rng : Type}.
Variable check_random_state : Seed → lib Rng.
Variable spectral_embedding :
  Matrix → nat → option string → Rng → R → lib Matrix.
Variable KMedoids_fit : Matrix → nat → Rng → lib (list nat * list nat * R).
Variable k_means : Matrix → nat → Rng → nat → bool → lib (Matrix * list nat * R).
Variable randint : Rng → nat → nat * Rng.
Variable svd : Matrix → option (Matrix * Vector * Matrix).

Lemma accepted_cases (a : string) :
  a ∈ accepted_labels → a ≠ "kmedoids" → a ≠ "kmeans" → a = "discretize".
Proof.
  intros Hin H1 H2. unfold accepted_labels in Hin.
  apply elem_of_cons in Hin as [->|Hin]; [done|].
  apply elem_of_cons in Hin as [->|Hin]; [done|].
  by apply list_elem_of_singleton in Hin.
Qed.

(** X13. A run of [spectral_clustering_mod] that returns has checked the
    random state, embedded the affinity matrix with [n_components]
    defaulting to [n_clusters], and labelled that embedding with the one
    method [assign_labels] names; the third component of the result is
    the medoid indices for "kmedoids", the centroids for "kmeans" and
    [None] for "discretize", and the library calls were made in this
    order, each once. *)
Theorem driver_pipeline fuel affinity n_clusters n_components eigen_solver
    (random_state : Seed) n_init eigen_tol assign_labels verbose
    labels maps cluster_centers log :
  spectral_clustering_mod check_random_state spectral_embedding
    KMedoids_fit k_means randint svd fuel affinity n_clusters n_components
    eigen_solver random_state n_init eigen_tol assign_labels verbose []
  = (Ret (labels, maps, cluster_centers), log) →
  ∃ rs,
    check_random_state random_state = LibOk rs ∧
    spectral_embedding affinity (default n_clusters n_components)
      eigen_solver rs eigen_tol = LibOk maps ∧
    (cluster_centers = None ↔ assign_labels = "discretize") ∧
    match cluster_centers with
    | Some (MedoidIndices idx) =>
        assign_labels = "kmedoids" ∧
        ∃ inertia, KMedoids_fit maps n_clusters rs = LibOk (idx, labels, inertia)
    | Some (Centroids c) =>
        assign_labels = "kmeans" ∧
        ∃ inertia,
          k_means maps n_clusters rs n_init verbose = LibOk (c, labels, inertia)
    | None => discretize randint svd 30 20 fuel maps rs = Ret labels
    end ∧
    log = CheckRandomState :: SpectralEmbedding ::
          (if verbose
           then [Print ("Computing label assignment using " +:+ assign_labels)]
           else []) ++
          [match cluster_centers with
           | Some (MedoidIndices _) => KMedoidsFit
           | Some (Centroids _) => KMeans
           | None => Discretize
           end].
Proof.
  unfold spectral_clustering_mod. case_bool_decide as Hacc; [done|].
  intros Hrun.
  apply io_bind_ret in Hrun as (rs & l1 & Hrs & Hrun).
  apply call_ret in Hrs as [Hrs ->].
  apply io_bind_ret in Hrun as (maps' & l2 & Hemb & Hrun).
  apply call_ret in Hemb as [Hemb ->].
  apply io_bind_ret in Hrun as ([] & l3 & Hpr & Hrun).
  assert (l3 = CheckRandomState :: SpectralEmbedding ::
               (if verbose
                then [Print ("Computing label assignment using "
                             +:+ assign_labels)]
                else [])) as ->.
  { destruct verbose.
    - by apply call_ret in Hpr as [_ ->].
    - by injection Hpr as <-. }
  clear Hpr. exists rs. split; [done|].
  case_bool_decide as Hk1; [|case_bool_decide as Hk2].
  - apply io_bind_ret in Hrun as ([[cc lb] inertia] & l4 & Hlib & Hrun).
    apply call_ret in Hlib as [Hlib ->].
    unfold io_ret in Hrun. injection Hrun as <- <- <- <-.
    split; [done|]. split; [by split; [|intros ->]|].
    split; [by eauto|done].
  - apply io_bind_ret in Hrun as ([[cc lb] inertia] & l4 & Hlib & Hrun).
    apply call_ret in Hlib as [Hlib ->].
    unfold io_ret in Hrun. injection Hrun as <- <- <- <-.
    split; [done|]. split; [by split; [|intros ->]|].
    split; [by eauto|done].
  - apply io_bind_ret in Hrun as (lb & l4 & Hlib & Hrun).
    injection Hlib as Hlib <-.
    unfold io_ret in Hrun. injection Hrun as <- <- <- <-.
    split; [done|]. split; [|done].
    split; [|done]. intros _. by apply accepted_cases.
Qed.

End Pipeline.

Section Symmetry.

Context `{Rounding}.

Lemma entry_lookup (M : Matrix) i j :
  entry M i j = default (Fin 0) (M !! i ≫= λ r, r !! j).
Proof.
  unfold entry. rewrite !nth_lookup.
  destruct (M !! i) as [r|]; simpl; [done|]. by destruct j.
Qed.

Lemma entry_transpose d (M : Matrix) i j :
  (i < d)%nat → entry (transpose d M) i j = entry M j i.
Proof.
  intros Hi. rewrite !entry_lookup. unfold transpose, column.
  rewrite list_lookup_fmap, lookup_seq_lt by done. simpl.
  rewrite list_lookup_fmap. destruct (M !! j) as [r|]; simpl; [|done].
  by rewrite nth_lookup.
Qed.

Lemma entry_in_range (M : Matrix) n i j :
  length M = n → Forall (λ r, length r = n) M →
  (i < n)%nat → (j < n)%nat →
  ∃ r, M !! i = Some r ∧ r !! j = Some (entry M i j).
Proof.
  intros Hlen Hrect Hi Hj.
  destruct (lookup_lt_is_Some_2 M i ltac:(lia)) as [r Hr].
  assert (length r = n) as Hlr
    by (rewrite Forall_lookup in Hrect; by apply (Hrect i)).
  destruct (lookup_lt_is_Some_2 r j ltac:(lia)) as [x Hx].
  exists r. split; [done|]. by rewrite entry_lookup, Hr; simpl; rewrite Hx.
Qed.

Lemma entry_out_of_range (M : Matrix) n i j :
  Forall (λ r, length r = n) M → (length M ≤ i ∨ n ≤ j)%nat →
  entry M i j = Fin 0.
Proof.
  intros Hrect Hout. rewrite entry_lookup.
  destruct (M !! i) as [r|] eqn:Hr; simpl; [|done].
  destruct (r !! j) as [x|] eqn:Hx; simpl; [|done].
  apply lookup_lt_Some in Hx. pose proof (lookup_lt_Some _ _ _ Hr).
  rewrite Forall_lookup in Hrect. apply Hrect in Hr. lia.
Qed.

(** [0.5 * (C + C.T)] for a square [C]: its shape and its entries. *)
Lemma symmetrize_entries (C A : Matrix) :
  Forall (λ r, length r = length C) C →
  symmetrize C = Ret A →
  length A = length C ∧ Forall (λ r, length r = length C) A ∧
  ∀ i j, (i < length C)%nat → (j < length C)%nat →
    entry A i j = fmul (Fin 0.5) (fadd (entry C i j) (entry C j i)).
Proof.
  intros Hrect. unfold symmetrize. case_bool_decide as Hsq; [|done].
  intros [= <-]. simpl in Hsq. unfold shape; simpl. rewrite <- Hsq.
  set (n := length C) in *.
  assert (length (transpose n C) = n) as HlenT
    by (unfold transpose; by rewrite length_fmap, length_seq).
  assert (Forall (λ r, length r = n) (transpose n C)) as HrectT.
  { unfold transpose. apply Forall_fmap, Forall_forall. intros i _. simpl.
    unfold column. by rewrite length_fmap. }
  split_and!.
  - unfold mat_scale, mat_add. rewrite length_fmap, length_zip_with. lia.
  - unfold mat_scale, mat_add. apply Forall_fmap.
    rewrite Forall_lookup. intros i r Hr. simpl. rewrite length_fmap.
    apply lookup_zip_with_Some in Hr as (ra & rb & -> & Ha & Hb).
    rewrite Forall_lookup in Hrect, HrectT.
    rewrite length_zip_with, (Hrect i ra Ha), (HrectT i rb Hb). lia.
  - intros i j Hi Hj.
    destruct (entry_in_range C n i j eq_refl Hrect Hi Hj)
      as (ra & Hra & Hx).
    destruct (entry_in_range (transpose n C) n i j HlenT HrectT Hi Hj)
      as (rb & Hrb & Hy).
    rewrite entry_transpose in Hy by done.
    rewrite (entry_lookup (mat_scale _ _)). unfold mat_scale, mat_add.
    rewrite list_lookup_fmap, lookup_zip_with, Hra, Hrb. simpl.
    by rewrite list_lookup_fmap, lookup_zip_with, Hx, Hy.
Qed.

(** So the matrix is symmetric, whatever [C] holds. *)
Lemma symmetrize_symmetric (C A : Matrix) :
  Forall (λ r, length r = length C) C →
  symmetrize C = Ret A →
  ∀ i j, entry A i j = entry A j i.
Proof.
  intros Hrect Hsym i j.
  destruct (symmetrize_entries C A Hrect Hsym) as (Hlen & HrectA & He).
  destruct (decide (i < length C)%nat) as [Hi|Hi];
    [destruct (decide (j < length C)%nat) as [Hj|Hj]|].
  - rewrite (He i j), (He j i) by done. f_equal. apply SpectralFacts.fadd_comm.
  - rewrite (entry_out_of_range A (length C) i j),
      (entry_out_of_range A (length C) j i) by (done || lia). done.
  - rewrite (entry_out_of_range A (length C) i j),
      (entry_out_of_range A (length C) j i) by (done || lia). done.
Qed.

End Symmetry.


Lemma fit_bind_ret {A B} (m : FitIO A) (k : A → FitIO B) log b log' :
  fit_bind m k log = (Ret b, log') →
  ∃ a l, m log = (Ret a, l) ∧ k a l = (Ret b, log').
Proof.
  unfold fit_bind. destruct (m log) as [[a| |] l]; [|done..]. by eauto.
Qed.

Lemma fit_call_ret {A} ev (answer : lib A) log a log' :
  fit_call ev answer log = (Ret a, log') →
  answer = LibOk a ∧ log' = log ++ [ev].
Proof. unfold fit_call. destruct answer; [|done]. by intros [= -> <-]. Qed.

Lemma message_not_shapes (a : string) :
  assign_labels_message a ≠ "inconsistent shapes".
Proof. unfold assign_labels_message. simpl. discriminate. Qed.

Section Fit.

Context `{Rounding} {Seed Rng Neighbors : Type}.
Variable validate_data : Matrix → lib Matrix.
Variable kneighbors_graph : Matrix → nat → bool → option nat → lib Matrix.
Variable NearestNeighbors_fit : nat → option nat → Matrix → lib Neighbors.
Variable estimator_kneighbors_graph : Neighbors → Matrix → lib Matrix.
Variable pairwise_kernels :
  Matrix → affinity_param → gmap string R → lib Matrix.
Variable check_random_state : Seed → lib Rng.
Variable spectral_embedding :
  Matrix → nat → option string → Rng → R → lib Matrix.
Variable KMedoids_fit : Matrix → nat → Rng → lib (list nat * list nat * R).
Variable k_means : Matrix → nat → Rng → nat → bool → lib (Matrix * list nat * R).
Variable randint : Rng → nat → nat * Rng.
Variable svd : Matrix → option (Matrix * Vector * Matrix).

Local Abbreviation run_fit :=
  (fit validate_data kneighbors_graph NearestNeighbors_fit
     estimator_kneighbors_graph pairwise_kernels check_random_state
     spectral_embedding KMedoids_fit k_means randint svd).
Local Abbreviation run_fit_predict :=
  (fit_predict validate_data kneighbors_graph NearestNeighbors_fit
     estimator_kneighbors_graph pairwise_kernels check_random_state
     spectral_embedding KMedoids_fit k_means randint svd).
Local Abbreviation run_affinity :=
  (build_affinity kneighbors_graph NearestNeighbors_fit
     estimator_kneighbors_graph pairwise_kernels).
Local Abbreviation run_driver :=
  (spectral_clustering_mod (λ r : Rng, LibOk r) spectral_embedding
     KMedoids_fit k_means randint svd).

(** What a way to the affinity matrix that ends normally has done. *)
Lemma build_affinity_ret (self : SpectralClustering Seed) X log A kept log' :
  run_affinity self X log = (Ret (A, kept), log') →
  log' = log ++ affinity_calls self ∧
  ((affinity self = AffinityName "nearest_neighbors" ∧
    kept = kernel_params self ∧
    (∃ C, kneighbors_graph X (n_neighbors self) true (n_jobs self) = LibOk C ∧
          symmetrize C = Ret A)) ∨
   (affinity self = AffinityName "precomputed_nearest_neighbors" ∧
    kept = kernel_params self ∧
    (∃ est C,
       NearestNeighbors_fit (n_neighbors self) (n_jobs self) X = LibOk est ∧
       estimator_kneighbors_graph est X = LibOk C ∧ symmetrize C = Ret A)) ∨
   (affinity self = AffinityName "precomputed" ∧
    kept = kernel_params self ∧ A = X) ∨
   ((affinity self ∉ [AffinityName "nearest_neighbors";
                      AffinityName "precomputed_nearest_neighbors";
                      AffinityName "precomputed"]) ∧
    kept = (kernel_arguments self).2 ∧
    pairwise_kernels X (affinity self) (kernel_arguments self).1 = LibOk A)).
Proof.
  unfold build_affinity, affinity_calls.
  case_bool_decide as H1; [|case_bool_decide as H2; [|case_bool_decide as H3]].
  - intros Hrun. apply fit_bind_ret in Hrun as (C & l1 & Hc & Hrun).
    apply fit_call_ret in Hc as [Hc ->].
    apply fit_bind_ret in Hrun as (A' & l2 & Hs & Hrun).
    unfold fit_own in Hs. injection Hs as Hs <-.
    unfold fit_ret in Hrun. injection Hrun as <- <- <-.
    split; [done|]. left. by eauto.
  - intros Hrun. apply fit_bind_ret in Hrun as (est & l1 & He & Hrun).
    apply fit_call_ret in He as [He ->].
    apply fit_bind_ret in Hrun as (C & l2 & Hc & Hrun).
    apply fit_call_ret in Hc as [Hc ->].
    apply fit_bind_ret in Hrun as (A' & l3 & Hs & Hrun).
    unfold fit_own in Hs. injection Hs as Hs <-.
    unfold fit_ret in Hrun. injection Hrun as <- <- <-.
    split; [by rewrite <- app_assoc|]. right; left. by eauto 10.
  - unfold fit_ret. intros [= <- <- <-].
    split; [by rewrite app_nil_r|]. right; right; left. done.
  - destruct (kernel_arguments self) as [params kept'] eqn:Hk.
    intros Hrun. apply fit_bind_ret in Hrun as (A' & l1 & Hc & Hrun).
    apply fit_call_ret in Hc as [Hc ->].
    unfold fit_ret in Hrun. injection Hrun as <- <- <-.
    split; [done|]. right; right; right. split_and!; [|done|done].
    rewrite !not_elem_of_cons. split_and!; [done..|]. apply not_elem_of_nil.
Qed.

(** Every way to the affinity matrix only adds to the log, runs out of
    no fuel, and raises no ValueError but that of the sum of a matrix
    with a transpose of another shape. *)
Lemma build_affinity_outcome (self : SpectralClustering Seed) X log r log' :
  run_affinity self X log = (r, log') →
  (∃ calls, log' = log ++ calls) ∧
  match r with
  | Ret _ => True
  | Raise (ValueError msg) => msg = "inconsistent shapes"
  | Raise (LibraryError _) => True
  | _ => False
  end.
Proof.
  assert (∀ C l (k : Matrix → option (gmap string R)),
    fit_bind (fit_own (symmetrize C)) (λ A, fit_ret (A, k A)) (log ++ l)
    = (r, log') →
    (∃ calls, log' = log ++ calls) ∧
    match r with
    | Ret _ => True
    | Raise (ValueError msg) => msg = "inconsistent shapes"
    | Raise (LibraryError _) => True
    | _ => False
    end) as Hsym.
  { intros C l k. unfold fit_bind, fit_own, fit_ret, symmetrize.
    case_bool_decide; intros [= <- <-]; by eauto. }
  unfold build_affinity.
  case_bool_decide as H1; [|case_bool_decide as H2; [|case_bool_decide as H3]].
  - unfold fit_bind at 1, fit_call.
    destruct (kneighbors_graph _ _ _ _) as [C|tag].
    + apply (Hsym C [KNeighborsGraph] (λ _, kernel_params self)).
    + intros [= <- <-]. by eauto.
  - unfold fit_bind at 1, fit_call at 1.
    destruct (NearestNeighbors_fit _ _ _) as [est|tag];
      [|intros [= <- <-]; by eauto].
    unfold fit_bind at 1, fit_call.
    destruct (estimator_kneighbors_graph _ _) as [C|tag].
    + rewrite <- app_assoc.
      apply (Hsym C ([NearestNeighborsFit] ++ [EstimatorKNeighborsGraph])
               (λ _, kernel_params self)).
    + rewrite <- app_assoc. intros [= <- <-]. by eauto.
  - intros [= <- <-]. split; [|done]. exists []. by rewrite app_nil_r.
  - destruct (kernel_arguments self) as [params kept'].
    unfold fit_bind, fit_call, fit_ret.
    destruct (pairwise_kernels _ _ _); intros [= <- <-]; by eauto.
Qed.

(** A run of [fit] that ends normally, step by step. *)
Lemma fit_ret_inv fuel (self self' : SpectralClustering Seed) X log :
  run_fit fuel self X [] = (Ret self', log) →
  ∃ X' A kept rs labels maps cluster_centers calls,
    validate_data X = LibOk X' ∧
    run_affinity self X' (ValidateData :: warning_calls self X')
    = (Ret (A, kept),
       ValidateData :: warning_calls self X' ++ affinity_calls self) ∧
    check_random_state (random_state self) = LibOk rs ∧
    run_driver fuel A (n_clusters self) (n_components self)
      (eigen_solver self) rs (n_init self) (eigen_tol self)
      (assign_labels self) (verbose self) []
    = (Ret (labels, maps, cluster_centers), calls) ∧
    log = ValidateData :: warning_calls self X' ++ affinity_calls self
          ++ CheckSeed :: (Driver <$> calls) ∧
    self' =
      {| n_clusters := n_clusters self; eigen_solver := eigen_solver self;
         n_components := n_components self;
         random_state := random_state self; n_init := n_init self;
         gamma := gamma self; affinity := affinity self;
         n_neighbors := n_neighbors self; eigen_tol := eigen_tol self;
         assign_labels := assign_labels self; degree := degree self;
         coef0 := coef0 self; kernel_params := kept; n_jobs := n_jobs self;
         verbose := verbose self; affinity_matrix_ := Some A;
         labels_ := Some labels; maps_ := Some maps;
         medoid_indices_ := Some cluster_centers |}.
Proof.
  unfold fit. intros Hrun.
  apply fit_bind_ret in Hrun as (X' & l1 & Hv & Hrun).
  apply fit_call_ret in Hv as [Hv ->].
  apply fit_bind_ret in Hrun as ([] & l2 & Hw & Hrun).
  assert (l2 = ValidateData :: warning_calls self X') as ->.
  { unfold warning_calls.
    destruct (Nat.eqb _ _ && negb _).
    - by apply fit_call_ret in Hw as [_ ->].
    - by injection Hw as <-. }
  clear Hw.
  apply fit_bind_ret in Hrun as ([A kept] & l3 & Ha & Hrun).
  pose proof (build_affinity_ret _ _ _ _ _ _ Ha) as [-> _].
  apply fit_bind_ret in Hrun as (rs & l4 & Hc & Hrun).
  apply fit_call_ret in Hc as [Hc ->].
  apply fit_bind_ret in Hrun as ([[labels maps] cc] & l5 & Hd & Hrun).
  unfold fit_driver in Hd.
  destruct (spectral_clustering_mod _ _ _ _ _ _ _ _ _ _ _ _ _ _ _ _ _)
    as [r calls] eqn:Hdr.
  injection Hd as -> <-. unfold fit_ret in Hrun. injection Hrun as <- <-.
  exists X', A, kept, rs, labels, maps, cc, calls.
  split_and!; [done|done|done|done| |done].
  simpl. by rewrite <- !app_assoc.
Qed.

(** X14. A run of [fit] that returns made its library calls in this
    order: the validation of [X], the API warning exactly when the
    validated data is square and [affinity] is none of the two
    precomputed names, the calls that build the affinity matrix, the
    check of the random state, then the calls of
    [spectral_clustering_mod].  The attributes [labels_], [maps_] and
    [medoid_indices_] of the result are what that driver returned for
    the stored [affinity_matrix_] and the checked random state, every
    constructor parameter but [kernel_params] is as it was, and
    [fit_predict] returns [labels_]. *)
Theorem fit_attributes fuel (self self' : SpectralClustering Seed) X log :
  run_fit fuel self X [] = (Ret self', log) →
  ∃ X' A rs labels maps cluster_centers calls,
    validate_data X = LibOk X' ∧
    check_random_state (random_state self) = LibOk rs ∧
    run_driver fuel A (n_clusters self) (n_components self)
      (eigen_solver self) rs (n_init self) (eigen_tol self)
      (assign_labels self) (verbose self) []
    = (Ret (labels, maps, cluster_centers), calls) ∧
    log = ValidateData :: warning_calls self X' ++ affinity_calls self
          ++ CheckSeed :: (Driver <$> calls) ∧
    self' =
      {| n_clusters := n_clusters self; eigen_solver := eigen_solver self;
         n_components := n_components self;
         random_state := random_state self; n_init := n_init self;
         gamma := gamma self; affinity := affinity self;
         n_neighbors := n_neighbors self; eigen_tol := eigen_tol self;
         assign_labels := assign_labels self; degree := degree self;
         coef0 := coef0 self; kernel_params := kernel_params self';
         n_jobs := n_jobs self; verbose := verbose self;
         affinity_matrix_ := Some A; labels_ := Some labels;
         maps_ := Some maps; medoid_indices_ := Some cluster_centers |} ∧
    (affinity self = AffinityName "precomputed" → A = X') ∧
    assign_labels self ∈ accepted_labels ∧
    run_fit_predict fuel self X [] = (Ret (Some labels), log).
Proof.
  intros Hrun.
  pose proof (fit_ret_inv _ _ _ _ _ Hrun)
    as (X' & A & kept & rs & labels & maps & cc & calls
        & Hv & Ha & Hc & Hd & -> & ->).
  exists X', A, rs, labels, maps, cc, calls.
  split_and!; [done|done|done|done|done| | |].
  - intros Hpre. apply build_affinity_ret in Ha as [_ Hcase].
    destruct Hcase as [[Hn _]|[[Hn _]|[(_ & _ & ->)|[Hn _]]]]; [..|done|].
    + by rewrite Hpre in Hn.
    + by rewrite Hpre in Hn.
    + rewrite Hpre in Hn. exfalso. apply Hn. by repeat constructor.
  - destruct (decide (assign_labels self ∈ accepted_labels)) as [|Hbad];
      [done|].
    unfold spectral_clustering_mod in Hd.
    by rewrite bool_decide_true in Hd.
  - unfold fit_predict, fit_bind. by rewrite Hrun.
Qed.

(** X15. With a kernel affinity (any [affinity] but the three reserved
    names) a run of [fit] that returns has called [pairwise_kernels] on
    the validated data, and for an affinity that is not callable the
    keyword arguments it passed hold the estimator's [gamma], [degree]
    and [coef0]: entries of these names in [kernel_params] are
    overridden, the other entries are passed on.  A [kernel_params]
    dictionary that was given is left holding the three entries as well;
    for a callable affinity it is passed and left as it is. *)
Theorem fit_kernel_params fuel (self self' : SpectralClustering Seed) X log :
  affinity self ∉ [AffinityName "nearest_neighbors";
                   AffinityName "precomputed_nearest_neighbors";
                   AffinityName "precomputed"] →
  run_fit fuel self X [] = (Ret self', log) →
  ∃ X' params A,
    validate_data X = LibOk X' ∧
    pairwise_kernels X' (affinity self) params = LibOk A ∧
    affinity_matrix_ self' = Some A ∧
    kernel_params self' = (λ _, params) <$> kernel_params self ∧
    (callable (affinity self) = true →
       params = default ∅ (kernel_params self)) ∧
    (callable (affinity self) = false →
       params !! "gamma" = Some (gamma self) ∧
       params !! "degree" = Some (degree self) ∧
       params !! "coef0" = Some (coef0 self) ∧
       ∀ key, key ∉ ["gamma"; "degree"; "coef0"] →
              params !! key = default ∅ (kernel_params self) !! key).
Proof.
  intros Hkernel Hrun.
  pose proof (fit_ret_inv _ _ _ _ _ Hrun)
    as (X' & A & kept & rs & labels & maps & cc & calls
        & Hv & Ha & Hc & Hd & -> & ->).
  apply build_affinity_ret in Ha as [_ Hcase].
  destruct Hcase as [[Hn _]|[[Hn _]|[[Hn _]|(_ & -> & Hpk)]]].
  1-3: exfalso; apply Hkernel; rewrite Hn; by repeat constructor.
  exists X', (kernel_arguments self).1, A. simpl.
  split_and!; [done|done|done|..]; unfold kernel_arguments;
    destruct (callable (affinity self)); simpl; try done.
  { by destruct (kernel_params self). }
  intros _. split_and!.
  - rewrite lookup_insert_ne by done.
    rewrite lookup_insert_ne by done. by rewrite lookup_insert.
  - rewrite lookup_insert_ne by done. by rewrite lookup_insert.
  - by rewrite lookup_insert.
  - intros key Hkey. rewrite !not_elem_of_cons in Hkey.
    destruct Hkey as (? & ? & ? & _).
    by rewrite !lookup_insert_ne by done.
Qed.

(** X16. In the two nearest-neighbour modes, when the library's graphs
    are square arrays, the [affinity_matrix_] of a fitted estimator is
    built from the graph [C] that the library returned for the
    validated data: it has the shape of [C], its entry [(i, j)] is
    [0.5 * (C[i, j] + C[j, i])] in float64 arithmetic, whatever the
    rounding, and so it is a symmetric matrix, whatever the graph
    was. *)
Theorem fit_neighbors_symmetric fuel (self self' : SpectralClustering Seed)
    X log :
  (∀ X k b j C, kneighbors_graph X k b j = LibOk C →
                Forall (λ r, length r = length C) C) →
  (∀ est X C, estimator_kneighbors_graph est X = LibOk C →
              Forall (λ r, length r = length C) C) →
  affinity self ∈ [AffinityName "nearest_neighbors";
                   AffinityName "precomputed_nearest_neighbors"] →
  run_fit fuel self X [] = (Ret self', log) →
  ∃ X' C A,
    validate_data X = LibOk X' ∧
    (if bool_decide (affinity self = AffinityName "nearest_neighbors")
     then kneighbors_graph X' (n_neighbors self) true (n_jobs self) = LibOk C
     else ∃ est,
       NearestNeighbors_fit (n_neighbors self) (n_jobs self) X' = LibOk est ∧
       estimator_kneighbors_graph est X' = LibOk C) ∧
    affinity_matrix_ self' = Some A ∧
    length A = length C ∧
    Forall (λ r, length r = length C) A ∧
    (∀ i j, (i < length C)%nat → (j < length C)%nat →
       entry A i j = fmul (Fin 0.5) (fadd (entry C i j) (entry C j i))) ∧
    (∀ i j, entry A i j = entry A j i).
Proof.
  intros Hg1 Hg2 Hmode Hrun.
  pose proof (fit_ret_inv _ _ _ _ _ Hrun)
    as (X' & A & kept & rs & labels & maps & cc & calls
        & Hv & Ha & Hc & Hd & -> & ->).
  apply build_affinity_ret in Ha as [_ Hcase].
  assert (∃ C,
    (if bool_decide (affinity self = AffinityName "nearest_neighbors")
     then kneighbors_graph X' (n_neighbors self) true (n_jobs self) = LibOk C
     else ∃ est,
       NearestNeighbors_fit (n_neighbors self) (n_jobs self) X' = LibOk est ∧
       estimator_kneighbors_graph est X' = LibOk C) ∧
    Forall (λ r, length r = length C) C ∧ symmetrize C = Ret A)
    as (C & Hlib & Hrect & Hsym).
  { destruct Hcase as [(Hn & _ & C & Hlib & Hs)
                      |[(Hn & _ & est & C & Hest & Hlib & Hs)
                      |[[Hn _]|[Hn _]]]].
    - exists C. rewrite bool_decide_true by done.
      split; [done|]. split; [by eapply Hg1|done].
    - exists C. rewrite bool_decide_false by (by rewrite Hn).
      split; [by eauto|]. split; [by eapply Hg2|done].
    - rewrite Hn in Hmode. exfalso.
      apply elem_of_cons in Hmode as [?|Hmode]; [done|].
      by apply list_elem_of_singleton in Hmode.
    - exfalso. apply Hn.
      apply elem_of_cons in Hmode as [->|Hmode]; [by constructor|].
      apply list_elem_of_singleton in Hmode as ->. by repeat constructor. }
  exists X', C, A. simpl.
  destruct (symmetrize_entries C A Hrect Hsym) as (Hlen & HrectA & He).
  split_and!; [done|done|done|done|done|done|].
  by apply (symmetrize_symmetric C A).
Qed.

(** X17. An estimator whose [assign_labels] is none of the accepted
    values is not refused when [fit] starts: the run never returns
    normally, but the data is validated first, and the ValueError that
    names the bad value is raised only after the affinity matrix was
    built and the random state checked.  With a precomputed affinity
    and libraries that answer, this error is the outcome. *)
Theorem fit_invalid_assign_labels fuel (self : SpectralClustering Seed) X
    outcome log :
  assign_labels self ∉ accepted_labels →
  run_fit fuel self X [] = (outcome, log) →
  (∀ self', outcome ≠ Ret self') ∧
  head log = Some ValidateData ∧
  (outcome = Raise (ValueError (assign_labels_message (assign_labels self))) →
     last log = Some CheckSeed ∧
     ∃ X' rs, validate_data X = LibOk X' ∧
              check_random_state (random_state self) = LibOk rs) ∧
  (∀ X' rs,
     validate_data X = LibOk X' →
     affinity self = AffinityName "precomputed" →
     check_random_state (random_state self) = LibOk rs →
     outcome = Raise (ValueError (assign_labels_message (assign_labels self))) ∧
     log = [ValidateData; CheckSeed]).
Proof.
  intros Hbad. unfold fit.
  unfold fit_bind at 1, fit_call at 1.
  destruct (validate_data X) as [X'|tag].
  2:{ intros [= <- <-]. split_and!; [done|done|done|]. intros; done. }
  assert (∃ l1,
    (if Nat.eqb (shape X').1 (shape X').2 && negb (pairwise self)
     then fit_call (Warn api_warning) (LibOk ())
     else fit_ret ()) ([] ++ [ValidateData]) = (Ret (), ValidateData :: l1) ∧
    (pairwise self = true → l1 = [])) as (l1 & Hw & Hl1).
  { destruct (pairwise self).
    - rewrite andb_false_r. by exists [].
    - destruct (Nat.eqb _ _ && _); by eexists. }
  unfold fit_bind at 1. rewrite Hw. clear Hw.
  unfold fit_bind at 1.
  destruct (build_affinity _ _ _ _ _ _ _) as [ra l2] eqn:Ha.
  pose proof (build_affinity_outcome _ _ _ _ _ Ha) as [[calls ->] Hra].
  destruct ra as [[A kept]|e|]; [| |done].
  2:{ intros [= <- <-]. split_and!; [done|done| |].
      - intros [= ->]. destruct (message_not_shapes _ Hra).
      - intros X'' rs [= <-] Hpre _. exfalso.
        unfold build_affinity in Ha. rewrite Hpre in Ha.
        by repeat (case_bool_decide; [done|]). }
  unfold fit_bind at 1, fit_call at 1.
  destruct (check_random_state (random_state self)) as [rs|tag].
  2:{ intros [= <- <-]. split_and!; [done|done|done|]. intros; done. }
  unfold fit_bind, fit_driver, spectral_clustering_mod.
  rewrite bool_decide_true by done. unfold io_raise.
  intros [= <- <-]. split_and!; [done|done| |].
  - intros _. split; [|by eauto].
    rewrite app_nil_r.
    rewrite app_comm_cons. apply last_snoc.
  - intros X'' rs' [= <-] Hpre [= <-]. split; [done|].
    apply build_affinity_ret in Ha as [Hlog _].
    unfold affinity_calls in Hlog. rewrite Hpre in Hlog.
    rewrite Hl1 in Hlog |- *
      by (unfold pairwise, pairwise_names; rewrite Hpre;
          apply bool_decide_eq_true; by repeat constructor).
    apply app_inv_head in Hlog. vm_compute in Hlog. by subst calls.
Qed.

End Fit.


(** ** The theorems at the instances [SpectralDemo] and [EstimatorDemo] *)

#[local] Existing Instance SpectralDemo.exact.

Lemma driver_pipeline_witness :
  spectral_clustering_mod SpectralDemo.check_random_state
    SpectralDemo.spectral_embedding SpectralDemo.KMedoids_fit
    SpectralDemo.k_means SpectralDemo.randint SpectralDemo.svd
    50 [[Fin 1]] 1 None None 0%nat 10 0 "kmedoids" false []
  = (Ret ([0%nat], [[Fin 1]], Some (MedoidIndices [0%nat])),
     [CheckRandomState; SpectralEmbedding; KMedoidsFit]) ∧
  ∃ rs,
    SpectralDemo.check_random_state 0%nat = LibOk rs ∧
    SpectralDemo.spectral_embedding [[Fin 1]] (default 1%nat None) None rs 0
    = LibOk [[Fin 1]].
Proof.
  assert (spectral_clustering_mod SpectralDemo.check_random_state
            SpectralDemo.spectral_embedding SpectralDemo.KMedoids_fit
            SpectralDemo.k_means SpectralDemo.randint SpectralDemo.svd
            50 [[Fin 1]] 1 None None 0%nat 10 0 "kmedoids" false []
          = (Ret ([0%nat], [[Fin 1]], Some (MedoidIndices [0%nat])),
             [CheckRandomState; SpectralEmbedding; KMedoidsFit])) as Hrun
    by reflexivity.
  split; [exact Hrun|].
  destruct (driver_pipeline SpectralDemo.check_random_state
              SpectralDemo.spectral_embedding SpectralDemo.KMedoids_fit
              SpectralDemo.k_means SpectralDemo.randint SpectralDemo.svd
              50 [[Fin 1]] 1 None None 0%nat 10 0 "kmedoids" false
              [0%nat] [[Fin 1]] (Some (MedoidIndices [0%nat])) _ Hrun)
    as (rs & Hrs & Hemb & _).
  exists rs. split; [exact Hrs|exact Hemb].
Defined.

Lemma demo_fit_precomputed :
  EstimatorDemo.fit_demo EstimatorDemo.precomputed_kmedoids [[Fin 1]] []
  = (Ret (EstimatorDemo.fitted EstimatorDemo.precomputed_kmedoids [[Fin 1]]),
     [ValidateData; CheckSeed; Driver CheckRandomState;
      Driver SpectralEmbedding; Driver KMedoidsFit]).
Proof. reflexivity. Qed.

Lemma demo_fit_rbf :
  EstimatorDemo.fit_demo EstimatorDemo.rbf_kmedoids [[Fin 1]] []
  = (Ret (EstimatorDemo.fitted EstimatorDemo.rbf_kmedoids [[Fin 1]]),
     [ValidateData; Warn api_warning; PairwiseKernels; CheckSeed;
      Driver CheckRandomState; Driver SpectralEmbedding; Driver KMedoidsFit]).
Proof. reflexivity. Qed.

Lemma demo_fit_neighbors :
  EstimatorDemo.fit_demo EstimatorDemo.neighbors_kmedoids
    EstimatorDemo.two_samples []
  = (Ret (EstimatorDemo.fitted EstimatorDemo.neighbors_kmedoids
            EstimatorDemo.two_samples),
     [ValidateData; KNeighborsGraph; CheckSeed;
      Driver CheckRandomState; Driver SpectralEmbedding; Driver KMedoidsFit]).
Proof. reflexivity. Qed.

Lemma demo_graphs_square (X C : Matrix) :
  LibOk (EstimatorDemo.directed_graph X) = LibOk C →
  Forall (λ r, length r = length C) C.
Proof.
  intros [= <-]. unfold EstimatorDemo.directed_graph.
  rewrite length_imap. apply Forall_lookup. intros i r Hr.
  rewrite list_lookup_imap in Hr.
  destruct (X !! i); simplify_eq/=. by rewrite length_imap.
Qed.

Lemma fit_attributes_witness :
  EstimatorDemo.fit_demo EstimatorDemo.precomputed_kmedoids [[Fin 1]] []
  = (Ret (EstimatorDemo.fitted EstimatorDemo.precomputed_kmedoids [[Fin 1]]),
     [ValidateData; CheckSeed; Driver CheckRandomState;
      Driver SpectralEmbedding; Driver KMedoidsFit]) ∧
  ∃ labels,
    labels_ (EstimatorDemo.fitted EstimatorDemo.precomputed_kmedoids [[Fin 1]])
    = Some labels ∧
    fit_predict EstimatorDemo.validate_data EstimatorDemo.kneighbors_graph
      EstimatorDemo.NearestNeighbors_fit
      EstimatorDemo.estimator_kneighbors_graph EstimatorDemo.pairwise_kernels
      SpectralDemo.check_random_state SpectralDemo.spectral_embedding
      SpectralDemo.KMedoids_fit SpectralDemo.k_means SpectralDemo.randint
      SpectralDemo.svd 50 EstimatorDemo.precomputed_kmedoids [[Fin 1]] []
    = (Ret (Some labels),
       [ValidateData; CheckSeed; Driver CheckRandomState;
        Driver SpectralEmbedding; Driver KMedoidsFit]).
Proof.
  split; [exact demo_fit_precomputed|].
  destruct (fit_attributes EstimatorDemo.validate_data
              EstimatorDemo.kneighbors_graph
              EstimatorDemo.NearestNeighbors_fit
              EstimatorDemo.estimator_kneighbors_graph
              EstimatorDemo.pairwise_kernels
              SpectralDemo.check_random_state SpectralDemo.spectral_embedding
              SpectralDemo.KMedoids_fit SpectralDemo.k_means
              SpectralDemo.randint SpectralDemo.svd 50
              EstimatorDemo.precomputed_kmedoids
              (EstimatorDemo.fitted EstimatorDemo.precomputed_kmedoids [[Fin 1]])
              [[Fin 1]]
              [ValidateData; CheckSeed; Driver CheckRandomState;
               Driver SpectralEmbedding; Driver KMedoidsFit]
              demo_fit_precomputed)
    as (X' & A & rs & labels & maps & cc & calls & _ & _ & _ & _
        & Hself & _ & _ & Hpredict).
  exists labels. split; [by rewrite Hself|exact Hpredict].
Defined.

Lemma fit_kernel_params_witness :
  (AffinityName "rbf" ∉ [AffinityName "nearest_neighbors";
                         AffinityName "precomputed_nearest_neighbors";
                         AffinityName "precomputed"]) ∧
  EstimatorDemo.fit_demo EstimatorDemo.rbf_kmedoids [[Fin 1]] []
  = (Ret (EstimatorDemo.fitted EstimatorDemo.rbf_kmedoids [[Fin 1]]),
     [ValidateData; Warn api_warning; PairwiseKernels; CheckSeed;
      Driver CheckRandomState; Driver SpectralEmbedding; Driver KMedoidsFit]) ∧
  ∃ params,
    kernel_params (EstimatorDemo.fitted EstimatorDemo.rbf_kmedoids [[Fin 1]])
    = Some params ∧
    params !! "gamma" = Some 1.
Proof.
  assert (AffinityName "rbf" ∉ [AffinityName "nearest_neighbors";
                                AffinityName "precomputed_nearest_neighbors";
                                AffinityName "precomputed"]) as Hkernel.
  { apply (bool_decide_unpack _). by vm_compute. }
  split; [exact Hkernel|]. split; [exact demo_fit_rbf|].
  destruct (fit_kernel_params EstimatorDemo.validate_data
              EstimatorDemo.kneighbors_graph
              EstimatorDemo.NearestNeighbors_fit
              EstimatorDemo.estimator_kneighbors_graph
              EstimatorDemo.pairwise_kernels
              SpectralDemo.check_random_state SpectralDemo.spectral_embedding
              SpectralDemo.KMedoids_fit SpectralDemo.k_means
              SpectralDemo.randint SpectralDemo.svd 50
              EstimatorDemo.rbf_kmedoids
              (EstimatorDemo.fitted EstimatorDemo.rbf_kmedoids [[Fin 1]]) [[Fin 1]]
              [ValidateData; Warn api_warning; PairwiseKernels; CheckSeed;
               Driver CheckRandomState; Driver SpectralEmbedding;
               Driver KMedoidsFit]
              Hkernel demo_fit_rbf)
    as (X' & params & A & _ & _ & _ & Hkept & _ & Hnot).
  exists params. split; [exact Hkept|].
  exact (proj1 (Hnot eq_refl)).
Defined.

Lemma fit_neighbors_symmetric_witness :
  (∀ X k b j C, EstimatorDemo.kneighbors_graph X k b j = LibOk C →
                Forall (λ r, length r = length C) C) ∧
  (∀ est X C, EstimatorDemo.estimator_kneighbors_graph est X = LibOk C →
              Forall (λ r, length r = length C) C) ∧
  (AffinityName "nearest_neighbors"
   ∈ [AffinityName "nearest_neighbors";
      AffinityName "precomputed_nearest_neighbors"]) ∧
  EstimatorDemo.fit_demo EstimatorDemo.neighbors_kmedoids
    EstimatorDemo.two_samples []
  = (Ret (EstimatorDemo.fitted EstimatorDemo.neighbors_kmedoids
            EstimatorDemo.two_samples),
     [ValidateData; KNeighborsGraph; CheckSeed;
      Driver CheckRandomState; Driver SpectralEmbedding; Driver KMedoidsFit]) ∧
  ∃ C A,
    EstimatorDemo.kneighbors_graph EstimatorDemo.two_samples 10 true None
    = LibOk C ∧
    affinity_matrix_ (EstimatorDemo.fitted EstimatorDemo.neighbors_kmedoids
                        EstimatorDemo.two_samples) = Some A ∧
    entry C 0 1 = Fin 1 ∧ entry C 1 0 = Fin 0 ∧
    entry A 0 1 = fmul (Fin 0.5) (fadd (entry C 0 1) (entry C 1 0)) ∧
    entry A 1 0 = entry A 0 1.
Proof.
  assert (∀ X k b j C, EstimatorDemo.kneighbors_graph X k b j = LibOk C →
                       Forall (λ r, length r = length C) C) as Hg1
    by (intros X k b j C; apply demo_graphs_square).
  assert (∀ est X C, EstimatorDemo.estimator_kneighbors_graph est X = LibOk C →
                     Forall (λ r, length r = length C) C) as Hg2
    by (intros est X C; apply demo_graphs_square).
  assert (AffinityName "nearest_neighbors"
          ∈ [AffinityName "nearest_neighbors";
             AffinityName "precomputed_nearest_neighbors"]) as Hmode
    by constructor.
  split_and!; [exact Hg1|exact Hg2|exact Hmode|exact demo_fit_neighbors|].
  destruct (fit_neighbors_symmetric EstimatorDemo.validate_data
              EstimatorDemo.kneighbors_graph
              EstimatorDemo.NearestNeighbors_fit
              EstimatorDemo.estimator_kneighbors_graph
              EstimatorDemo.pairwise_kernels
              SpectralDemo.check_random_state SpectralDemo.spectral_embedding
              SpectralDemo.KMedoids_fit SpectralDemo.k_means
              SpectralDemo.randint SpectralDemo.svd 50
              EstimatorDemo.neighbors_kmedoids
              (EstimatorDemo.fitted EstimatorDemo.neighbors_kmedoids
                 EstimatorDemo.two_samples)
              EstimatorDemo.two_samples
              [ValidateData; KNeighborsGraph; CheckSeed;
               Driver CheckRandomState; Driver SpectralEmbedding;
               Driver KMedoidsFit]
              Hg1 Hg2 Hmode demo_fit_neighbors)
    as (X' & C & A & Hv & Hlib & HA & Hlen & _ & He & Hsym).
  injection Hv as <-. injection Hlib as <-.
  exists (EstimatorDemo.directed_graph EstimatorDemo.two_samples), A.
  split_and!; [reflexivity|exact HA|reflexivity|reflexivity| |].
  - apply He; simpl; lia.
  - apply Hsym.
Defined.

Lemma fit_invalid_assign_labels_witness :
  ("spectral" ∉ accepted_labels) ∧
  EstimatorDemo.fit_demo EstimatorDemo.precomputed_spectral [[Fin 1]] []
  = (Raise (ValueError (assign_labels_message "spectral")),
     [ValidateData; CheckSeed]) ∧
  last [ValidateData; CheckSeed] = Some CheckSeed.
Proof.
  assert ("spectral" ∉ accepted_labels) as Hbad.
  { apply (bool_decide_unpack _). by vm_compute. }
  assert (EstimatorDemo.fit_demo EstimatorDemo.precomputed_spectral [[Fin 1]] []
          = (Raise (ValueError (assign_labels_message "spectral")),
             [ValidateData; CheckSeed])) as Hrun by reflexivity.
  split; [exact Hbad|]. split; [exact Hrun|].
  exact (proj1 (proj1 (proj2 (proj2
           (fit_invalid_assign_labels EstimatorDemo.validate_data
              EstimatorDemo.kneighbors_graph
              EstimatorDemo.NearestNeighbors_fit
              EstimatorDemo.estimator_kneighbors_graph
              EstimatorDemo.pairwise_kernels
              SpectralDemo.check_random_state SpectralDemo.spectral_embedding
              SpectralDemo.KMedoids_fit SpectralDemo.k_means
              SpectralDemo.randint SpectralDemo.svd 50
              EstimatorDemo.precomputed_spectral [[Fin 1]]
              (Raise (ValueError (assign_labels_message "spectral")))
              [ValidateData; CheckSeed] Hbad Hrun)))
           eq_refl)).
Defined.


End EstimatorFacts.
